(** * Isla interpreter: a shallow embedding of [src/interpreter.js]

    The interpreter walks an abstract syntax tree and mutates a context
    object.  Every JavaScript object the code allocates or mutates (the
    environment [{ctx, ret}], the context, the [{ref, val}] results of a
    value read, reference wrappers [{ref}], Isla lists) is a cell of an
    explicit heap, so that identity, aliasing and in-place mutation are the
    ones of the source. *)

From stdpp Require Import base list strings pretty.

Open Scope string_scope.
Open Scope list_scope.

(** ** Host values and the heap *)

Abbreviation loc := nat.

Inductive jsvalue :=
| VUndef
| VNull
| VNum (n : Z)
| VStr (s : string)
| VLoc (l : loc).

Global Instance value_eq_dec : EqDecision jsvalue.
Proof. solve_decision. Defined.

(** [v === undefined] *)
Definition is_undefined (v : jsvalue) : bool :=
  match v with VUndef => true | _ => false end.

(** What [instanceof Isla.Library.IslaList] and [Isla.Utils.type] tell apart. *)
Inductive shape :=
| SObject                         (* Utils.type = "Object" *)
| SArray (elems : list jsvalue)     (* Utils.type = "Array" *)
| SList (items : list jsvalue)      (* an IslaList and the array behind items() *)
| SFun (f : nat).                 (* Utils.type = "Function" *)

(** Own properties are kept in insertion order, the order of [for .. in]. *)
Record cell := Cell { shape_of : shape; props : list (string * jsvalue) }.

Abbreviation heap := (list cell).

Inductive exn :=
| TypeError                 (* property of undefined/null, call of a non-function *)
| ErrorMsg (msg : string)   (* throw Error(msg) *)
| ThrownStr (msg : string)  (* throw "..." *)
| Malformed.                (* the tree is outside the grammar the code switches on *)

Inductive outcome (A : Type) :=
| Ret (a : A)
| Raise (e : exn)
| OutOfFuel.
Arguments Ret {A} a.
Arguments Raise {A} e.
Arguments OutOfFuel {A}.

(** A computation reads and writes the heap; the heap at the point of a
    throw is kept, so what an aborted statement left behind can be stated. *)
Definition M (A : Type) : Type := heap -> outcome A * heap.

Definition ret {A} (a : A) : M A := fun h => (Ret a, h).
Definition raise {A} (e : exn) : M A := fun h => (Raise e, h).
Definition out_of_fuel {A} : M A := fun h => (OutOfFuel, h).
Definition bind {A B} (m : M A) (k : A -> M B) : M B :=
  fun h => match m h with
           | (Ret a, h') => k a h'
           | (Raise e, h') => (Raise e, h')
           | (OutOfFuel, h') => (OutOfFuel, h')
           end.

Notation "'let*' x ':=' m 'in' k" := (bind m (fun x => k))
  (at level 10, x pattern, m at level 100, k at level 200).

(** ** Association lists for own properties *)

Fixpoint alookup (k : string) (ps : list (string * jsvalue)) : option jsvalue :=
  match ps with
  | [] => None
  | (k', v) :: ps => if String.eqb k k' then Some v else alookup k ps
  end.

(** Assignment keeps the position of an existing key and appends a new one. *)
Fixpoint aupdate (k : string) (v : jsvalue) (ps : list (string * jsvalue))
  : list (string * jsvalue) :=
  match ps with
  | [] => [(k, v)]
  | (k', v') :: ps =>
      if String.eqb k k' then (k, v) :: ps else (k', v') :: aupdate k v ps
  end.

(** ** Primitive operations of the host language *)

Definition alloc (c : cell) : M jsvalue :=
  fun h => (Ret (VLoc (List.length h)), h ++ [c]).

Definition new_object (ps : list (string * jsvalue)) : M jsvalue :=
  alloc (Cell SObject ps).

(** ToString of a primitive inside [Array.prototype.join]. *)
Definition join_str (v : jsvalue) : string :=
  match v with
  | VUndef | VNull => ""
  | VNum n => pretty n
  | VStr s => s
  | VLoc _ => "[object Object]"
  end.

Fixpoint join_comma (vs : list jsvalue) : string :=
  match vs with
  | [] => ""
  | [v] => join_str v
  | v :: vs => join_str v +:+ "," +:+ join_comma vs
  end.

(** ToString, as used by [+] on strings and by computed property keys. *)
Definition to_str (h : heap) (v : jsvalue) : string :=
  match v with
  | VUndef => "undefined"
  | VNull => "null"
  | VNum n => pretty n
  | VStr s => s
  | VLoc l =>
      match h !! l with
      | Some (Cell (SArray es) _) => join_comma es
      | _ => "[object Object]"
      end
  end.

Definition to_key (v : jsvalue) : M string := fun h => (Ret (to_str h v), h).

(** [o[k]] on own properties; properties inherited from the host's
    prototypes (toString, constructor, ...) are outside the model. *)
Definition read_prop (h : heap) (o : jsvalue) (k : string) : outcome jsvalue :=
  match o with
  | VUndef | VNull => Raise TypeError
  | VNum _ => Ret VUndef
  | VStr s => if String.eqb k "length" then Ret (VNum (Z.of_nat (String.length s)))
              else Ret VUndef
  | VLoc l =>
      match h !! l with
      | Some c => Ret (default VUndef (alookup k (props c)))
      | None => Ret VUndef
      end
  end.

Definition getp (o : jsvalue) (k : string) : M jsvalue :=
  fun h => (read_prop h o k, h).

(** [o[k] = v]; no strict mode in the file, so a write to a number or a
    string is silently dropped. *)
Definition setp (o : jsvalue) (k : string) (v : jsvalue) : M unit :=
  fun h =>
    match o with
    | VUndef | VNull => (Raise TypeError, h)
    | VNum _ | VStr _ => (Ret tt, h)
    | VLoc l =>
        match h !! l with
        | Some c => (Ret tt, <[l := Cell (shape_of c) (aupdate k v (props c))]> h)
        | None => (Ret tt, h)
        end
    end.

(** [x[0]], [x[1]] where [x] may be an array. *)
Definition index (h : heap) (v : jsvalue) (i : nat) : jsvalue :=
  match v with
  | VLoc l =>
      match h !! l with
      | Some (Cell (SArray es) _) => default VUndef (es !! i)
      | _ => VUndef
      end
  | _ => VUndef
  end.

(** [Isla.Utils.type(x) === "Array"]. *)
Definition is_array (h : heap) (v : jsvalue) : bool :=
  match v with
  | VLoc l => match h !! l with Some (Cell (SArray _) _) => true | _ => false end
  | _ => false
  end.

(** ** Syntax trees

    A node is [{tag, c}]; the children of a leaf production hold the
    payload the parser classified (a string or a number). *)

#[local] Set Warnings "-register-all".

Inductive ast :=
| Node (tag : string) (c : list ast)
| Str (s : string)
| Num (n : Z).

(** [x.tag] for [x] a tree or [undefined] (an index past the end of [c]). *)
Definition tag_of (x : option ast) : M (option string) :=
  match x with
  | None => raise TypeError
  | Some (Node t _) => ret (Some t)
  | Some _ => ret None
  end.

(** [x.c] *)
Definition children (x : option ast) : M (list ast) :=
  match x with
  | None => raise TypeError
  | Some (Node _ c) => ret c
  | Some _ => raise Malformed
  end.

(** A leaf payload as a host value. *)
Definition payload (x : option ast) : M jsvalue :=
  match x with
  | None => ret VUndef
  | Some (Str s) => ret (VStr s)
  | Some (Num n) => ret (VNum n)
  | Some (Node _ _) => raise Malformed
  end.

(** Modelled from the spec: [Isla.Parser.extract] is not part of
    [src/interpreter.js].  The evaluator uses it to "extract the bound
    identifier from the assignee node" and "the two-part path": it follows a
    route from a node, where a tag name checks the tag of the node at hand
    and steps to its array of children, and a number indexes the array at
    hand. *)
Inductive cursor :=
| At (x : option ast)
| Kids (cs : list ast).

Inductive hop :=
| Tag (tag : string)
| Idx (i : nat).

Fixpoint extract_route (cur : cursor) (route : list hop) : option cursor :=
  match route with
  | [] => Some cur
  | Tag t :: route =>
      match cur with
      | At (Some (Node t' cs)) =>
          if String.eqb t t' then extract_route (Kids cs) route else None
      | _ => None
      end
  | Idx i :: route =>
      match cur with
      | Kids cs => extract_route (At (cs !! i)) route
      | _ => None
      end
  end.

Definition extract (cur : cursor) (route : list hop) : M cursor :=
  match extract_route cur route with
  | Some c => ret c
  | None => raise Malformed
  end.

Definition as_kids (c : cursor) : M (list ast) :=
  match c with Kids cs => ret cs | At _ => raise Malformed end.

Definition as_node (c : cursor) : M (option ast) :=
  match c with At x => ret x | Kids _ => raise Malformed end.

Definition extract_kids (cur : cursor) (route : list hop) : M (list ast) :=
  let* c := extract cur route in as_kids c.

Definition extract_node (cur : cursor) (route : list hop) : M (option ast) :=
  let* c := extract cur route in as_node c.

Definition extract_payload (cur : cursor) (route : list hop) : M jsvalue :=
  let* x := extract_node cur route in payload x.

(** The tags the multimethods are registered for. *)
Inductive production :=
| PRoot | PBlock | PExpression
| PValueAssignment | PTypeAssignment | PListAssignment | PInvocation
| PValue | PInteger | PString | PIdentifier
| PLiteral | PVariable | PScalar | PObject
| POther.

Definition production_of (tag : option string) : production :=
  match tag with
  | Some "root" => PRoot
  | Some "block" => PBlock
  | Some "expression" => PExpression
  | Some "value_assignment" => PValueAssignment
  | Some "type_assignment" => PTypeAssignment
  | Some "list_assignment" => PListAssignment
  | Some "invocation" => PInvocation
  | Some "value" => PValue
  | Some "integer" => PInteger
  | Some "string" => PString
  | Some "identifier" => PIdentifier
  | Some "literal" => PLiteral
  | Some "variable" => PVariable
  | Some "scalar" => PScalar
  | Some "object" => PObject
  | _ => POther
  end.

Fixpoint for_each {A} (f : A -> M unit) (xs : list A) : M unit :=
  match xs with
  | [] => ret tt
  | x :: xs => let* _ := f x in for_each f xs
  end.

(** ** The interpreter *)

Section Interpreter.

(** The collaborators of the evaluator that live in the library: the
    functions stored in the context (built-ins, type constructors), the
    operations of an Isla list other than [add], and the factory of the
    initial environment. *)
Variable library_fn : nat -> list jsvalue -> M jsvalue.
Variable library_list_op : string -> option (list jsvalue -> jsvalue -> list jsvalue).
Variable getInitialEnv : M jsvalue.

(** Modelled from the spec: [Isla.Library.IslaList] is not part of
    [src/interpreter.js].  A list value is "an ordered, mutable sequence
    of Bindings exposing named mutation operations (e.g., add/remove by
    operation keyword) and an items() accessor"; [add] appends, as
    [resolve] uses it to "append the resolved form of every item,
    preserving element order". *)
Definition list_method (op : string)
  : option (list jsvalue -> jsvalue -> list jsvalue) :=
  if String.eqb op "add" then Some (fun items item => items ++ [item])
  else library_list_op op.

(** [thing.items()] *)
Definition list_items (thing : jsvalue) : M (list jsvalue) :=
  fun h =>
    match thing with
    | VLoc l =>
        match h !! l with
        | Some (Cell (SList items) _) => (Ret items, h)
        | _ => (Raise TypeError, h)
        end
    | _ => (Raise TypeError, h)
    end.

(** [f(args)] *)
Definition call (f : jsvalue) (args : list jsvalue) : M jsvalue :=
  fun h =>
    match f with
    | VLoc l =>
        match h !! l with
        | Some (Cell (SFun n) _) => library_fn n args h
        | _ => (Raise TypeError, h)
        end
    | _ => (Raise TypeError, h)
    end.

(** [recv[name](arg)] *)
Definition invoke (recv : jsvalue) (name : string) (arg : jsvalue) : M jsvalue :=
  fun h =>
    let other := (let* f := getp recv name in call f [arg]) in
    match recv with
    | VLoc l =>
        match h !! l with
        | Some (Cell (SList items) ps) =>
            match list_method name with
            | Some op => (Ret VUndef, <[l := Cell (SList (op items arg)) ps]> h)
            | None => other h
            end
        | _ => other h
        end
    | _ => other h
    end.

(** *** resolve *)

Inductive resolve_case := AsList | AsObject | AsRef | AsOther.

Definition resolve_case_of (h : heap) (thing : jsvalue) : resolve_case :=
  match thing with
  | VLoc l =>
      match h !! l with
      | Some (Cell (SList _) _) => AsList
      | Some (Cell SObject ps) =>
          match alookup "ref" ps with
          | None | Some VUndef => AsObject
          | Some _ => AsRef
          end
      | _ => AsOther
      end
  | _ => AsOther
  end.

Definition resolve_dispatch (thing : jsvalue) : M resolve_case :=
  fun h => (Ret (resolve_case_of h thing), h).

(** The names [for (var i in thing)] runs through. *)
Definition own_keys (thing : jsvalue) : M (list string) :=
  fun h =>
    (match thing with
     | VLoc l => match h !! l with
                 | Some c => Ret (map fst (props c))
                 | None => Ret []
                 end
     | _ => Ret []
     end, h).

(** The three methods of the multimethod, over the recursive call. *)
Definition resolve_ref (resolve : jsvalue -> jsvalue -> M jsvalue)
    (thing env : jsvalue) : M jsvalue :=
  let* ctx := getp env "ctx" in
  let* r := getp thing "ref" in
  let* k := to_key r in
  let* target := getp ctx k in
  resolve target env.

Definition resolve_object (resolve : jsvalue -> jsvalue -> M jsvalue)
    (thing env : jsvalue) : M jsvalue :=
  let* keys := own_keys thing in
  let* _ := for_each (fun i =>
              if String.eqb i "_meta" then ret tt
              else
                let* v := getp thing i in
                let* r := resolve v env in
                setp thing i r) keys in
  ret thing.

Definition resolve_list (resolve : jsvalue -> jsvalue -> M jsvalue)
    (thing env : jsvalue) : M jsvalue :=
  let* items := list_items thing in
  let* resolvedList := alloc (Cell (SList []) []) in
  let* _ := for_each (fun item =>
              let* r := resolve item env in
              let* _ := invoke resolvedList "add" r in
              ret tt) items in
  ret resolvedList.

Fixpoint resolve (fuel : nat) (thing env : jsvalue) : M jsvalue :=
  match fuel with
  | 0 => out_of_fuel
  | S fuel =>
      let* d := resolve_dispatch thing in
      match d with
      | AsRef => resolve_ref (resolve fuel) thing env
      | AsObject => resolve_object (resolve fuel) thing env
      | AsList => resolve_list (resolve fuel) thing env
      | AsOther => ret thing
      end
  end.

(** *** Small helpers of the source *)

Definition rmRet (env : jsvalue) : M jsvalue :=
  let* _ := setp env "ret" VNull in
  ret env.

Definition nreturn (ctx ret_ : jsvalue) : M jsvalue :=
  if is_undefined ret_ then new_object [("ctx", ctx); ("ret", VNull)]
  else new_object [("ctx", ctx); ("ret", ret_)].

Definition instantiateType (typeFn identifier : jsvalue) : M jsvalue :=
  let* value := call typeFn [] in
  let* meta := new_object [("type", identifier)] in
  let* _ := setp value "_meta" meta in
  ret value.

Definition runSequence_with (interpret : option ast -> jsvalue -> M jsvalue)
  : list ast -> jsvalue -> M jsvalue :=
  fix go (nodes : list ast) (env : jsvalue) : M jsvalue :=
    match nodes with
    | [] => ret env
    | first :: rest =>
        let* env := rmRet env in
        let* env := interpret (Some first) env in
        go rest env
    end.

(** *** assign *)

Definition assign (ctx : jsvalue) (assigneeNode : option ast) (value : jsvalue)
  : M jsvalue :=
  let* cs := children assigneeNode in
  let* tag := tag_of (cs !! 0) in
  match production_of tag with
  | PScalar =>
      let* identifier :=
        extract_payload (At assigneeNode)
          [Tag "assignee"; Idx 0; Tag "scalar"; Idx 0; Tag "identifier"; Idx 0] in
      let* k := to_key identifier in
      let* _ := setp ctx k value in
      ret ctx
  | PObject =>
      let* objectNode :=
        extract_kids (At assigneeNode) [Tag "assignee"; Idx 0; Tag "object"] in
      let* objectIdentifier :=
        extract_payload (Kids objectNode) [Idx 0; Tag "identifier"; Idx 0] in
      let* slotIdentifier :=
        extract_payload (Kids objectNode) [Idx 1; Tag "identifier"; Idx 0] in
      let* ko := to_key objectIdentifier in
      let* o := getp ctx ko in
      let* ks := to_key slotIdentifier in
      let* _ := setp o ks value in
      ret ctx
  | _ => raise Malformed
  end.

(** *** interpretAst and evaluateValue *)

Definition no_such_list (ref : jsvalue) : M string :=
  fun h =>
    (Ret ("I do not know of a list called "
          +:+ (if is_array h ref
               then to_str h (index h ref 0) +:+ " " +:+ to_str h (index h ref 1)
               else to_str h ref)
          +:+ "."), h).

Fixpoint interpretAst (fuel : nat) (ast : option ast) (env : jsvalue)
  {struct fuel} : M jsvalue :=
  match fuel with
  | 0 => out_of_fuel
  | S fuel =>
      let* tag := tag_of ast in
      match production_of tag with
      | PRoot =>
          let* env := (if is_undefined env then getInitialEnv
                       else ret env) in
          let* cs := children ast in
          runSequence_with (interpretAst fuel) cs env
      | PBlock =>
          let* cs := children ast in
          runSequence_with (interpretAst fuel) cs env
      | PExpression =>
          let* cs := children ast in
          interpretAst fuel (cs !! 0) env
      | PValueAssignment =>
          let* node := extract_kids (At ast) [Tag "value_assignment"] in
          let assignee := node !! 0 in
          let* valueNode := interpretAst fuel (node !! 2) env in
          let* r := getp valueNode "ref" in
          let* value := (if is_undefined r then getp valueNode "val"
                         else new_object [("ref", r)]) in
          let* c := getp env "ctx" in
          let* ctx := assign c assignee value in
          nreturn ctx VUndef
      | PTypeAssignment =>
          let* node := extract_kids (At ast) [Tag "type_assignment"] in
          let assignee := node !! 0 in
          let* typeIdentifier := interpretAst fuel (node !! 2) env in
          let* c := getp env "ctx" in
          let* types := getp c "types" in
          let* k := to_key typeIdentifier in
          let* typeFn := getp types k in
          let* typeFn := (if is_undefined typeFn then getp types "generic"
                          else ret typeFn) in
          let* value := instantiateType typeFn typeIdentifier in
          let* c := getp env "ctx" in
          let* ctx := assign c assignee value in
          nreturn ctx VUndef
      | PListAssignment =>
          let* node := extract_kids (At ast) [Tag "list_assignment"] in
          let assignee := node !! 3 in
          let* target := extract_node (At assignee) [Tag "assignee"; Idx 0] in
          let* currentListEval := evaluateValue fuel target env in
          let* val := getp currentListEval "val" in
          if is_undefined val then
            let* ref := getp currentListEval "ref" in
            let* msg := no_such_list ref in
            raise (ErrorMsg msg)
          else
            let* opNode :=
              extract_node (Kids node) [Idx 0; Tag "list_operation"; Idx 0] in
            let* operation := tag_of opNode in
            let* itemNode := extract_node (Kids node) [Idx 1] in
            let* itemEval := interpretAst fuel itemNode env in
            let* r := getp itemEval "ref" in
            let* item := (if is_undefined r then getp itemEval "val"
                          else new_object [("ref", r)]) in
            let* list := getp currentListEval "val" in
            let* _ := invoke list (default "undefined" operation) item in
            let* c := getp env "ctx" in
            let* val := getp currentListEval "val" in
            let* newCtx := assign c assignee val in
            nreturn newCtx VUndef
      | PInvocation =>
          let* calleeNode := extract_node (At ast) [Tag "invocation"; Idx 0] in
          let* callee := interpretAst fuel calleeNode env in
          let* wrapper := new_object [("ref", callee)] in
          let* fn := resolve fuel wrapper env in
          let* paramNode := extract_node (At ast) [Tag "invocation"; Idx 1] in
          let* paramEval := interpretAst fuel paramNode env in
          let* param := getp paramEval "val" in
          let* returnVal := call fn [env; param] in
          let* c := getp env "ctx" in
          nreturn c returnVal
      | PValue =>
          let* node := extract_kids (At ast) [Tag "value"] in
          evaluateValue fuel (node !! 0) env
      | PInteger => extract_payload (At ast) [Tag "integer"; Idx 0]
      | PString => extract_payload (At ast) [Tag "string"; Idx 0]
      | PIdentifier => extract_payload (At ast) [Tag "identifier"; Idx 0]
      | _ => raise (ThrownStr "You've forgotten a tag type.")
      end
  end
with evaluateValue (fuel : nat) (node : option ast) (env : jsvalue)
  {struct fuel} : M jsvalue :=
  match fuel with
  | 0 => out_of_fuel
  | S fuel =>
      let* tag := tag_of node in
      match production_of tag with
      | PLiteral =>
          let* cs := children node in
          let* v := interpretAst fuel (cs !! 0) env in
          new_object [("val", v)]
      | PVariable =>
          let* cs := children node in
          evaluateValue fuel (cs !! 0) env
      | PScalar =>
          let* cs := children node in
          let* identifier := interpretAst fuel (cs !! 0) env in
          let* c := getp env "ctx" in
          let* k := to_key identifier in
          let* v := getp c k in
          new_object [("ref", identifier); ("val", v)]
      | PObject =>
          let* cs := children node in
          let* c0 := children (cs !! 0) in
          let* objId := payload (c0 !! 0) in
          let* c1 := children (cs !! 1) in
          let* attrId := payload (c1 !! 0) in
          let* c := getp env "ctx" in
          let* ko := to_key objId in
          let* o := getp c ko in
          let* val := (if is_undefined o then ret VUndef
                       else let* ka := to_key attrId in getp o ka) in
          let* path := alloc (Cell (SArray [objId; attrId]) []) in
          new_object [("ref", path); ("val", val)]
      | _ => raise Malformed
      end
  end.

Definition runSequence (fuel : nat) : list ast -> jsvalue -> M jsvalue :=
  runSequence_with (interpretAst fuel).

End Interpreter.

Arguments bind {A B} m k h /.
Arguments ret {A} a h /.
Arguments raise {A} e h /.
Arguments out_of_fuel {A} h /.
Arguments extract cur route h /.
Arguments extract_kids cur route h /.
Arguments extract_node cur route h /.
Arguments extract_payload cur route h /.
Arguments as_kids c h /.
Arguments as_node c h /.
Arguments tag_of x h /.
Arguments children x h /.
Arguments payload x h /.
Arguments getp o k h /.
Arguments setp o k v h /.
Arguments to_key v h /.
Arguments new_object ps h /.
Arguments alloc c h /.
Arguments rmRet env h /.
Arguments nreturn ctx ret_ h /.
Arguments assign ctx assigneeNode value h /.
Arguments no_such_list ref h /.
Arguments list_items thing h /.
Arguments own_keys thing h /.
Arguments resolve_dispatch thing h /.
Arguments resolve_ref resolve thing env h /.

(** ** The trees the parser hands over

    The shapes are the ones the routes of the evaluator walk: an assignee
    holds a [scalar] or an [object] node, whose identifiers hold a name. *)

Inductive target :=
| Scalar (x : string)
| Attribute (o a : string).

Definition identifier (x : string) : ast := Node "identifier" [Str x].

Definition target_node (t : target) : ast :=
  match t with
  | Scalar x => Node "scalar" [identifier x]
  | Attribute o a => Node "object" [identifier o; identifier a]
  end.

Definition assignee (t : target) : ast := Node "assignee" [target_node t].

Definition variable (t : target) : ast :=
  Node "value" [Node "variable" [target_node t]].

Definition literal_integer (n : Z) : ast :=
  Node "value" [Node "literal" [Node "integer" [Num n]]].

Definition value_assignment (t : target) (kw rhs : ast) : ast :=
  Node "value_assignment" [assignee t; kw; rhs].

Definition type_assignment (t : target) (kw : ast) (typeName : string) : ast :=
  Node "type_assignment" [assignee t; kw; identifier typeName].

Definition list_assignment (op : string) (item kw : ast) (t : target) : ast :=
  Node "list_assignment" [Node "list_operation" [Node op []]; item; kw; assignee t].

Definition invocation (f : string) (arg : ast) : ast :=
  Node "invocation" [identifier f; arg].

Definition program (statements : list ast) : ast :=
  Node "root" [Node "block" (map (fun s => Node "expression" [s]) statements)].

(** ** Reading the store *)

(** The binding stored at a target: [ctx[x]], or [ctx[o][a]] when [ctx[o]]
    is defined (the read of [evaluateValue]). *)
Definition binding (h : heap) (ctx : jsvalue) (t : target) : outcome jsvalue :=
  match t with
  | Scalar x => read_prop h ctx x
  | Attribute o a =>
      match read_prop h ctx o with
      | Ret ov => if is_undefined ov then Ret VUndef else read_prop h ov a
      | other => other
      end
  end.


(** [Some r] when [v] is a reference wrapper [{ref: r}] (what [resolve]
    dispatches to its "ref" case). *)
Definition reference_of (h : heap) (v : jsvalue) : option jsvalue :=
  match v with
  | VLoc l =>
      match h !! l with
      | Some (Cell SObject ps) =>
          match alookup "ref" ps with
          | Some r => if is_undefined r then None else Some r
          | None => None
          end
      | _ => None
      end
  | _ => None
  end.

(** A stored reference that points at a slot whose binding is a reference. *)
Definition points_at_reference (h : heap) (ctx v : jsvalue) : bool :=
  match reference_of h v with
  | Some r =>
      match read_prop h ctx (to_str h r) with
      | Ret v' => bool_decide (is_Some (reference_of h v'))
      | _ => false
      end
  | None => false
  end.

(** No binding of the context is a reference to a slot holding a reference. *)
Definition chain_free (h : heap) (ctx : jsvalue) : bool :=
  match ctx with
  | VLoc c =>
      match h !! c with
      | Some cc => forallb (fun kv => negb (points_at_reference h ctx kv.2)) (props cc)
      | None => true
      end
  | _ => true
  end.

(** ** A small library to run examples with

    Function 0 is the [generic] constructor (a fresh empty object),
    function 1 the [list] constructor (a fresh Isla list), function 2 a
    built-in returning nothing, function 3 a built-in returning its
    argument. *)
Definition sample_fn (n : nat) (args : list jsvalue) : M jsvalue :=
  match n with
  | 0 => alloc (Cell SObject [])
  | 1 => alloc (Cell (SList []) [])
  | 2 => ret VUndef
  | _ => ret (default VUndef (args !! 1))
  end.

Definition sample_list_op (op : string)
  : option (list jsvalue -> jsvalue -> list jsvalue) := None.

Definition sample_initial_env : M jsvalue :=
  let* generic := alloc (Cell (SFun 0) []) in
  let* list := alloc (Cell (SFun 1) []) in
  let* types := new_object [("generic", generic); ("list", list)] in
  let* nothing := alloc (Cell (SFun 2) []) in
  let* same := alloc (Cell (SFun 3) []) in
  let* ctx := new_object [("types", types); ("nothing", nothing); ("same", same)] in
  new_object [("ctx", ctx); ("ret", VNull)].

(** The heap [getInitialEnv] builds from nothing: the environment is cell 6
    and its context cell 5. *)
Definition sample_heap : heap := (sample_initial_env []).2.
Definition sample_env : jsvalue := VLoc 6.
Definition sample_ctx : jsvalue := VLoc 5.

Definition sample_interpret : nat -> option ast -> jsvalue -> M jsvalue :=
  interpretAst sample_fn sample_list_op sample_initial_env.

Definition sample_resolve : nat -> jsvalue -> jsvalue -> M jsvalue :=
  resolve sample_fn sample_list_op.

(** The cell an assignment to a target writes into: the context itself for
    a scalar, the object bound to [o] for an attribute [o a]. *)
Definition target_cell (h : heap) (c : loc) (t : target) : option loc :=
  match t with
  | Scalar _ => match h !! c with Some _ => Some c | None => None end
  | Attribute o _ =>
      match read_prop h (VLoc c) o with
      | Ret (VLoc lo) =>
          match h !! lo with
          | Some _ => if bool_decide (lo = c) then None else Some lo
          | None => None
          end
      | _ => None
      end
  end.

(** The property name the assignment writes. *)
Definition slot (t : target) : string :=
  match t with Scalar x => x | Attribute _ a => a end.

(** The heap after [cell.k = v]. *)
Definition write (h : heap) (l : loc) (k : string) (v : jsvalue) : heap :=
  match h !! l with
  | Some c => <[l := Cell (shape_of c) (aupdate k v (props c))]> h
  | None => h
  end.

(** The cells the "object" case of [resolve] rewrites in place: plain
    objects that are not reference wrappers. *)
Definition plain (c : cell) : bool :=
  match shape_of c with
  | SObject =>
      match alookup "ref" (props c) with
      | None | Some VUndef => true
      | Some _ => false
      end
  | _ => false
  end.

(** [h'] comes from [h] by allocations and by rewriting attributes of plain
    objects: every cell is still there with its shape; lists, arrays,
    functions and reference wrappers are as they were; a plain object is
    still one, with the same attribute names and the same [_meta]. *)
Definition frame (h h' : heap) : Prop :=
  ∀ l c, h !! l = Some c ->
         ∃ c', h' !! l = Some c' ∧ shape_of c' = shape_of c ∧
               (plain c = false -> c' = c) ∧
               (plain c = true ->
                plain c' = true ∧ map fst (props c') = map fst (props c) ∧
                alookup "_meta" (props c') = alookup "_meta" (props c)).

(** [r] is what [resolve] returned for [item] in a heap [h] has evolved to. *)
Definition resolved_form library_fn library_list_op
    (n : nat) (env : jsvalue) (h : heap) (item r : jsvalue) : Prop :=
  ∃ hi hi', frame h hi ∧ resolve library_fn library_list_op n item env hi = (Ret r, hi').

(** The cells a value read of a target allocates: the [{ref, val}] pair,
    after the two-part path when the target is an attribute. *)
Definition read_cells (h : heap) (t : target) (v : jsvalue) : list cell :=
  match t with
  | Scalar x => [Cell SObject [("ref", VStr x); ("val", v)]]
  | Attribute o a =>
      [Cell (SArray [VStr o; VStr a]) [];
       Cell SObject [("ref", VLoc (length h)); ("val", v)]]
  end.

(** Where the pair of a value read lands. *)
Definition read_result (h : heap) (t : target) : loc :=
  match t with
  | Scalar _ => length h
  | Attribute _ _ => S (length h)
  end.

(** The sample heap after [l is a list]: the list is cell 7. *)
Definition list_heap : heap :=
  (sample_interpret 5 (Some (type_assignment (Scalar "l") (Node "is" []) "list"))
     sample_env sample_heap).2.


(** The sample program [x is 5; y is x; z is y]. *)
Definition chain_program : ast :=
  program [value_assignment (Scalar "x") (Node "is" []) (literal_integer 5);
           value_assignment (Scalar "y") (Node "is" []) (variable (Scalar "x"));
           value_assignment (Scalar "z") (Node "is" []) (variable (Scalar "y"))].


(** ** Contents

    What a value amounts to once every reference in it is followed: the
    tree a reader of the resolved value sees.  Objects keep their identity
    (they are resolved in place), lists do not (they are copied); [_meta]
    is carried as it is stored. *)

Inductive tree :=
| TLeaf (v : jsvalue)
| TObj (l : loc) (attrs : list (string * tree))
| TList (items : list tree).

(** The nesting of a tree; [_meta] is not walked and does not count. *)
Fixpoint theight (t : tree) : nat :=
  match t with
  | TLeaf _ => 1
  | TObj _ attrs =>
      S (foldr (fun kt m => if String.eqb kt.1 "_meta" then m
                            else Nat.max (theight kt.2) m) 0 attrs)
  | TList items => S (foldr (fun t m => Nat.max (theight t) m) 0 items)
  end.

(** The contents of one attribute of a plain object. *)
Definition view_attr (view : jsvalue -> option tree) (ps : list (string * jsvalue))
    (k : string) : option (string * tree) :=
  if String.eqb k "_meta" then Some (k, TLeaf (default VUndef (alookup k ps)))
  else match view (default VUndef (alookup k ps)) with
       | Some t => Some (k, t)
       | None => None
       end.

(** One step of the walk, over the walk of what lies below. *)
Definition view_step (view : jsvalue -> option tree) (env : jsvalue) (h : heap)
    (v : jsvalue) : option tree :=
  match resolve_case_of h v with
  | AsOther => Some (TLeaf v)
  | AsRef =>
      match read_prop h env "ctx", read_prop h v "ref" with
      | Ret ctx, Ret r =>
          match read_prop h ctx (to_str h r) with
          | Ret b => view b
          | _ => None
          end
      | _, _ => None
      end
  | AsObject =>
      match v with
      | VLoc l =>
          match h !! l with
          | Some c =>
              match mapM (view_attr view (props c)) (map fst (props c)) with
              | Some attrs => Some (TObj l attrs)
              | None => None
              end
          | None => None
          end
      | _ => None
      end
  | AsList =>
      match v with
      | VLoc l =>
          match h !! l with
          | Some (Cell (SList its) _) =>
              match mapM view its with
              | Some ts => Some (TList ts)
              | None => None
              end
          | _ => None
          end
      | _ => None
      end
  end.

(** [view n env h v]: the contents of [v] in heap [h], read the way
    [resolve] walks [v] but without writing; [None] when the walk needs more
    than [n] nested steps or a read fails. *)
Fixpoint view (n : nat) (env : jsvalue) (h : heap) (v : jsvalue) : option tree :=
  match n with
  | 0 => None
  | S n => view_step (view n env h) env h v
  end.

(** The values a cell holds. *)
Definition mentions (c : cell) : list jsvalue :=
  map snd (props c) ++
  match shape_of c with
  | SArray es => es
  | SList its => its
  | _ => []
  end.

(** A value that is not a pointer to nowhere, nor to one of the lists
    [building] that a running [resolve] has allocated and not yet returned. *)
Definition sound (building : loc -> Prop) (h : heap) (v : jsvalue) : Prop :=
  match v with
  | VLoc l => l < length h ∧ ¬ building l
  | _ => True
  end.

(** A heap as the host keeps it: every value held by a cell is sound. *)
Definition well_formed (building : loc -> Prop) (h : heap) : Prop :=
  (∀ b, building b -> b < length h) ∧
  ∀ l c v, h !! l = Some c -> In v (mentions c) -> sound building h v.

(** The environment is a cell whose [ctx] is a plain object. *)
Definition env_ready (building : loc -> Prop) (h : heap) (env : jsvalue) : Prop :=
  sound building h env ∧
  ∃ c, read_prop h env "ctx" = Ret (VLoc c) ∧
       resolve_case_of h (VLoc c) = AsObject ∧ ¬ building c.

(** [h'] has the cells of [h] that sound values can lead to. *)
Definition agree (building : loc -> Prop) (h h' : heap) : Prop :=
  ∀ l, l < length h -> ¬ building l -> h' !! l = h !! l.

(** What a run of [resolve] from heap [h] on a value of contents [t] has
    done when it returns [r] in heap [h']: the heap is still well formed and
    the environment ready; every value that had contents has the same
    contents; [r] has the contents [t], with no reference left to follow;
    and no object with taller contents than [t] was touched. *)
Definition resolved_to (building : loc -> Prop) (env : jsvalue) (h : heap)
    (t : tree) (r : jsvalue) (h' : heap) : Prop :=
  well_formed building h' ∧ env_ready building h' env ∧ sound building h' r ∧
  frame h h' ∧
  (∀ k u t', sound building h u -> view k env h u = Some t' ->
             view k env h' u = Some t') ∧
  view (theight t) env h' r = Some t ∧
  (∀ l' k T', sound building h (VLoc l') -> view k env h (VLoc l') = Some T' ->
              theight t < theight T' -> h' !! l' = h !! l').

(** No cell holds a pointer past the end of the heap (the check behind
    [well_formed], when no list is being built). *)
Definition closed (h : heap) : bool :=
  forallb (fun c =>
             forallb (fun v => match v with
                               | VLoc l => Nat.ltb l (length h)
                               | _ => true
                               end) (mentions c)) h.

(** A program that nests: the list [k] holds a reference to the object [o],
    whose attribute [a] is a reference to the list [l], and a reference to
    [l] itself; [l] holds the number 7. *)
Definition nested_program : ast :=
  program [type_assignment (Scalar "o") (Node "is" []) "thing";
           type_assignment (Scalar "l") (Node "is" []) "list";
           type_assignment (Scalar "k") (Node "is" []) "list";
           value_assignment (Attribute "o" "a") (Node "is" []) (variable (Scalar "l"));
           value_assignment (Attribute "o" "n") (Node "is" []) (literal_integer 5);
           list_assignment "add" (variable (Scalar "o")) (Node "to" []) (Scalar "k");
           list_assignment "add" (variable (Scalar "l")) (Node "to" []) (Scalar "k");
           list_assignment "add" (literal_integer 7) (Node "to" []) (Scalar "l")].

(** The heap it leaves: [o] is cell 7, [l] cell 10 and [k] cell 13. *)
Definition nested_heap : heap :=
  (sample_interpret 12 (Some nested_program) sample_env sample_heap).2.

(** The contents of [k]. *)
Definition nested_contents : tree :=
  TList [TObj 7 [("_meta", TLeaf (VLoc 8)); ("a", TList [TLeaf (VNum 7)]);
                 ("n", TLeaf (VNum 5))];
         TList [TLeaf (VNum 7)]].

(** The sample heap after [l is a list; add l to l]: the list, cell 7,
    holds a wrapper naming the slot that holds the list. *)
Definition knot_heap : heap :=
  (sample_interpret 5
     (Some (list_assignment "add" (variable (Scalar "l")) (Node "to" []) (Scalar "l")))
     sample_env list_heap).2.

(** ** Following references *)

(** The binding a reference wrapper leads to, [env.ctx[thing.ref]]: one
    step of the "ref" case of [resolve]. *)
Definition follow (h : heap) (env v : jsvalue) : option jsvalue :=
  match reference_of h v with
  | Some r =>
      match read_prop h env "ctx" with
      | Ret ctx =>
          match read_prop h ctx (to_str h r) with
          | Ret b => Some b
          | _ => None
          end
      | _ => None
      end
  | None => None
  end.

(** [k] such steps in a row. *)
Fixpoint follow_n (k : nat) (h : heap) (env v : jsvalue) : option jsvalue :=
  match k with
  | 0 => Some v
  | S k =>
      match follow h env v with
      | Some b => follow_n k h env b
      | None => None
      end
  end.

(** ** Straight-line programs *)

(** [x1 is n1; x2 is n2; ...] *)
Definition assignments (xs : list (string * Z)) : list ast :=
  map (fun xn => value_assignment (Scalar xn.1) (Node "is" []) (literal_integer xn.2)) xs.

(** The number the last assignment to [x] in such a program gives it. *)
Fixpoint last_assigned (x : string) (xs : list (string * Z)) : option Z :=
  match xs with
  | [] => None
  | (y, n) :: xs =>
      match last_assigned x xs with
      | Some m => Some m
      | None => if String.eqb x y then Some n else None
      end
  end.

(** The sample heap after [x is y; y is x]: each of the two slots holds a
    wrapper naming the other. *)
Definition cycle_heap : heap :=
  (sample_interpret 8
     (Some (program [value_assignment (Scalar "x") (Node "is" []) (variable (Scalar "y"));
                     value_assignment (Scalar "y") (Node "is" []) (variable (Scalar "x"))]))
     sample_env sample_heap).2.

(** The tags [interpretAst] has a method for. *)
Definition interpretAst_tags : list string :=
  ["root"; "block"; "expression"; "value_assignment"; "type_assignment";
   "list_assignment"; "invocation"; "value"; "integer"; "string"; "identifier"].

(** Whether a production is one of those methods. *)
Definition has_method (p : production) : bool :=
  match p with
  | PRoot | PBlock | PExpression | PValueAssignment | PTypeAssignment
  | PListAssignment | PInvocation | PValue | PInteger | PString | PIdentifier => true
  | _ => false
  end.

(** The sample heap after [o is a thing; p is o]: [o] holds a new object
    (cell 7) and [p] a wrapper naming [o]. *)
Definition alias_heap : heap :=
  (sample_interpret 8
     (Some (program [type_assignment (Scalar "o") (Node "is" []) "thing";
                     value_assignment (Scalar "p") (Node "is" []) (variable (Scalar "o"))]))
     sample_env sample_heap).2.


(** ** Knots *)

(** The container [l] holds the value [w]: as one of its items when it is an
    Isla list, as its attribute [k] when it is a plain object. *)
Definition knot_link (h : heap) (l w : loc) (k : string) : Prop :=
  match h !! l with
  | Some (Cell (SList its) _) => In (VLoc w) its
  | Some (Cell SObject ps) =>
      plain (Cell SObject ps) = true ∧ k ≠ "_meta" ∧ alookup k ps = Some (VLoc w)
  | _ => False
  end.

(** A knot: [l] holds the reference wrapper [w], which names the slot [x] of
    the context [c] of the environment, and that slot holds [l]. *)
Definition knotted (env : jsvalue) (c l w : loc) (x k : string) (h : heap) : Prop :=
  knot_link h l w k ∧
  reference_of h (VLoc w) = Some (VStr x) ∧
  read_prop h env "ctx" = Ret (VLoc c) ∧
  resolve_case_of h (VLoc c) = AsObject ∧
  read_prop h (VLoc c) x = Ret (VLoc l).

(** The sample heap after [o is a thing; o a is o]: the object, cell 7,
    holds under [a] a wrapper naming the slot that holds the object. *)
Definition object_knot_heap : heap :=
  (sample_interpret 8
     (Some (program [type_assignment (Scalar "o") (Node "is" []) "thing";
                     value_assignment (Attribute "o" "a") (Node "is" [])
                       (variable (Scalar "o"))]))
     sample_env sample_heap).2.

(** ** Values without a list operation *)

(** A defined value on which [list[operation](item)] finds nothing to call:
    null, a number, a string, or a cell that is not an Isla list and whose
    own property [op] is not an object. *)
Definition no_list_method (h : heap) (b : jsvalue) (op : string) : bool :=
  match b with
  | VUndef => false
  | VNull | VNum _ | VStr _ => true
  | VLoc lb =>
      match h !! lb with
      | Some (Cell (SList _) _) => false
      | Some c =>
          match alookup op (props c) with
          | Some (VLoc _) => false
          | _ => true
          end
      | None => false
      end
  end.

(** The sample heap after [l is a list; m is l]: [m] holds a wrapper naming
    [l], not the list. *)
Definition list_alias_heap : heap :=
  (sample_interpret 5
     (Some (value_assignment (Scalar "m") (Node "is" []) (variable (Scalar "l"))))
     sample_env list_heap).2.

(** The sample heap after [o is a thing; o a is 5]. *)
Definition attribute_heap : heap :=
  (sample_interpret 8
     (Some (program [type_assignment (Scalar "o") (Node "is" []) "thing";
                     value_assignment (Attribute "o" "a") (Node "is" [])
                       (literal_integer 5)]))
     sample_env sample_heap).2.
(** * Properties *)

(** ** Own properties and heap cells *)

Lemma alookup_aupdate_eq k v ps : alookup k (aupdate k v ps) = Some v.
Proof.
  induction ps as [|[k' v'] ps IH]; simpl.
  - by rewrite String.eqb_refl.
  - destruct (String.eqb k k') eqn:E; simpl.
    + by rewrite String.eqb_refl.
    + by rewrite E.
Qed.

Lemma alookup_aupdate_ne k k' v ps :
  k ≠ k' -> alookup k (aupdate k' v ps) = alookup k ps.
Proof.
  intros Hne. apply String.eqb_neq in Hne.
  induction ps as [|[k2 v2] ps IH]; simpl.
  - by rewrite Hne.
  - destruct (String.eqb k' k2) eqn:E; simpl.
    + apply String.eqb_eq in E as ->. by rewrite Hne.
    + destruct (String.eqb k k2); [done|apply IH].
Qed.

Lemma read_prop_cell h l c k :
  h !! l = Some c -> read_prop h (VLoc l) k = Ret (default VUndef (alookup k (props c))).
Proof. intros E. simpl. by rewrite E. Qed.

(** A read that found something finds it again after allocations. *)
Lemma read_prop_app h h' o k v :
  read_prop h o k = Ret v -> v ≠ VUndef -> read_prop (h ++ h') o k = Ret v.
Proof.
  destruct o as [| | |s|l]; simpl; try done.
  destruct (h !! l) as [c|] eqn:E.
  - by rewrite (lookup_app_l_Some _ _ _ _ E).
  - intros [= <-] Hv. by destruct Hv.
Qed.

Lemma read_prop_insert_ne h l l' c k :
  l ≠ l' -> read_prop (<[l' := c]> h) (VLoc l) k = read_prop h (VLoc l) k.
Proof. intros Hne. unfold read_prop. by rewrite list_lookup_insert_ne. Qed.

Lemma read_prop_insert_eq h l c k :
  l < length h ->
  read_prop (<[l := c]> h) (VLoc l) k = Ret (default VUndef (alookup k (props c))).
Proof. intros Hl. unfold read_prop. by rewrite list_lookup_insert_eq. Qed.

(** A read that found something was made on an allocated cell. *)
Lemma read_prop_found h o k l :
  read_prop h o k = Ret (VLoc l) ->
  ∃ lo co, o = VLoc lo ∧ h !! lo = Some co ∧ alookup k (props co) = Some (VLoc l).
Proof.
  destruct o as [| | |s|lo]; simpl; try done.
  - by destruct (String.eqb k "length").
  - destruct (h !! lo) as [co|] eqn:E; [|done].
    destruct (alookup k (props co)) as [v|] eqn:Ek; simpl; [|done].
    intros [= ->]. eauto.
Qed.

Lemma lookup_snoc_new (h : heap) c : (h ++ [c]) !! length h = Some c.
Proof. by apply list_lookup_middle. Qed.

Lemma lookup_snoc_old (h : heap) c l cl : h !! l = Some cl -> (h ++ [c]) !! l = Some cl.
Proof. apply lookup_app_l_Some. Qed.

Lemma write_length h l k v : length (write h l k v) = length h.
Proof. unfold write. destruct (h !! l); [apply length_insert|done]. Qed.

Lemma write_lookup_ne h l l' k v : l ≠ l' -> write h l k v !! l' = h !! l'.
Proof.
  intros Hne. unfold write. destruct (h !! l); [|done].
  by apply list_lookup_insert_ne.
Qed.

Lemma write_lookup_eq h l k v c :
  h !! l = Some c ->
  write h l k v !! l = Some (Cell (shape_of c) (aupdate k v (props c))).
Proof.
  intros E. unfold write. rewrite E. apply list_lookup_insert_eq.
  by eapply lookup_lt_Some.
Qed.

Lemma write_read_eq h l k v c :
  h !! l = Some c -> read_prop (write h l k v) (VLoc l) k = Ret v.
Proof.
  intros E. unfold read_prop. rewrite (write_lookup_eq _ _ _ _ _ E). simpl.
  by rewrite alookup_aupdate_eq.
Qed.

Lemma write_read_other h l k v o k' :
  o ≠ VLoc l ∨ k' ≠ k -> read_prop (write h l k v) o k' = read_prop h o k'.
Proof.
  intros Hne. destruct o as [| | |s|l']; try done. unfold read_prop.
  destruct (decide (l = l')) as [<-|Hl].
  - destruct Hne as [Hne|Hne]; [done|].
    destruct (h !! l) as [c|] eqn:E.
    + rewrite (write_lookup_eq _ _ _ _ _ E); simpl. by rewrite alookup_aupdate_ne.
    + unfold write. rewrite E. by rewrite E.
  - by rewrite write_lookup_ne.
Qed.

Lemma setp_write l k v h : setp (VLoc l) k v h = (Ret tt, write h l k v).
Proof. unfold setp, write. by destruct (h !! l). Qed.

Lemma target_cell_allocated h c t l : target_cell h c t = Some l -> is_Some (h !! l).
Proof.
  destruct t as [x|o a]; simpl.
  - destruct (h !! c) eqn:E; [|done]. intros [= <-]. by rewrite E.
  - destruct (h !! c) as [cc|]; [|done].
    destruct (default VUndef (alookup o (props cc))) as [| | | |lo]; try done.
    destruct (h !! lo) eqn:E; [|done]. case_bool_decide; [done|].
    intros [= <-]. by rewrite E.
Qed.

Lemma target_cell_app h h' c t l :
  target_cell h c t = Some l -> target_cell (h ++ h') c t = Some l.
Proof.
  destruct t as [x|o a]; simpl.
  - destruct (h !! c) eqn:E; [|done]. by rewrite (lookup_app_l_Some _ _ _ _ E).
  - destruct (h !! c) as [cc|] eqn:E; [|done].
    rewrite (lookup_app_l_Some _ _ _ _ E).
    destruct (default VUndef (alookup o (props cc))) as [| | | |lo]; try done.
    destruct (h !! lo) eqn:E'; [|done]. by rewrite (lookup_app_l_Some _ _ _ _ E').
Qed.

Section Facts.
Variable library_fn : nat -> list jsvalue -> M jsvalue.
Variable library_list_op : string -> option (list jsvalue -> jsvalue -> list jsvalue).
Variable getInitialEnv : M jsvalue.

#[local] Abbreviation interpret := (interpretAst library_fn library_list_op getInitialEnv).
#[local] Abbreviation run_sequence := (runSequence library_fn library_list_op getInitialEnv).
#[local] Abbreviation deref := (resolve library_fn library_list_op).
#[local] Abbreviation resolved_form := (resolved_form library_fn library_list_op).

(** The Assignment Engine on a well-formed assignee writes one slot. *)
Lemma assign_writes h c t l v :
  target_cell h c t = Some l ->
  assign (VLoc c) (Some (assignee t)) v h = (Ret (VLoc c), write h l (slot t) v).
Proof.
  destruct t as [x|o a]; cbn.
  - destruct (h !! c) as [cc|] eqn:E; [|done]. intros [= <-].
    unfold write. by rewrite E.
  - destruct (h !! c) as [cc|] eqn:E; [|done].
    destruct (default VUndef (alookup o (props cc))) as [| | | |lo]; try done.
    destruct (h !! lo) as [oc|] eqn:E'; [|done]. case_bool_decide; [done|].
    intros [= <-]. unfold write. by rewrite E'.
Qed.

(** ... and a read of the target then finds what was written, also after
    further allocations. *)
Lemma binding_write h h' c t l v :
  target_cell h c t = Some l ->
  binding (write h l (slot t) v ++ h') (VLoc c) t = Ret v.
Proof.
  intros Ht. destruct (target_cell_allocated _ _ _ _ Ht) as [cl El].
  pose proof (write_lookup_eq _ _ (slot t) v _ El) as Ew.
  destruct t as [x|o a]; simpl in Ht, Ew |- *.
  - destruct (h !! c) eqn:E; [|done]. injection Ht as <-.
    rewrite (lookup_app_l_Some _ _ _ _ Ew). simpl. by rewrite alookup_aupdate_eq.
  - destruct (h !! c) as [cc|] eqn:E; [|done].
    destruct (default VUndef (alookup o (props cc))) as [| | | |lo] eqn:Eo; try done.
    destruct (h !! lo) as [oc|] eqn:E'; [|done]. case_bool_decide as Hc; [done|].
    injection Ht as <-.
    assert (write h lo a v !! c = Some cc) as Ec by (by rewrite write_lookup_ne).
    rewrite (lookup_app_l_Some _ _ _ _ Ec), Eo. simpl.
    rewrite (lookup_app_l_Some _ _ _ _ Ew). simpl. by rewrite alookup_aupdate_eq.
Qed.



(** What a statement's right-hand side or operand turns into before it is
    stored: the value read when the evaluation carries no reference, a new
    wrapper [{ref: r}] otherwise. *)
Lemma value_or_reference h valueNode r v :
  read_prop h valueNode "ref" = Ret r ->
  read_prop h valueNode "val" = Ret v ->
  (if is_undefined r then getp valueNode "val" else new_object [("ref", r)]) h
  = if is_undefined r then (Ret v, h)
    else (Ret (VLoc (length h)), h ++ [Cell SObject [("ref", r)]]).
Proof. intros Hr Hv. destruct (is_undefined r); cbn; by rewrite ?Hv. Qed.

(** C2: a value assignment stores a reference wrapper naming the referent
    when the evaluation of its right-hand side carries a reference, and the
    value read otherwise; it returns a new [{ctx, ret: null}].  The wrapper
    is a cell that did not exist before the statement. *)
Theorem value_assignment_stores :
  ∀ fuel t kw rhs env h valueNode h1 r v c l,
    interpret fuel (Some rhs) env h = (Ret valueNode, h1) ->
    read_prop h1 valueNode "ref" = Ret r ->
    read_prop h1 valueNode "val" = Ret v ->
    read_prop h1 env "ctx" = Ret (VLoc c) ->
    target_cell h1 c t = Some l ->
    ∃ e h2 stored,
      interpret (S fuel) (Some (value_assignment t kw rhs)) env h
        = (Ret (VLoc e), h2) ∧
      h2 !! e = Some (Cell SObject [("ctx", VLoc c); ("ret", VNull)]) ∧
      binding h2 (VLoc c) t = Ret stored ∧
      if is_undefined r then stored = v
      else ∃ w, stored = VLoc w ∧ h1 !! w = None ∧
                h2 !! w = Some (Cell SObject [("ref", r)]).
Proof.
  intros fuel t kw rhs env h valueNode h1 r v c l Hrhs Hr Hv Hctx Ht.
  cbn -[assign]. rewrite Hrhs. cbn -[assign]. rewrite Hr.
  rewrite (value_or_reference _ _ _ _ Hr Hv).
  destruct (is_undefined r) eqn:Eu.
  - rewrite Hctx. rewrite (assign_writes _ _ _ _ _ Ht). cbn.
    eexists _, _, v. split; [reflexivity|].
    split; [apply lookup_snoc_new|]. split; [|done].
    by apply binding_write.
  - rewrite (read_prop_app _ _ _ _ _ Hctx) by done.
    rewrite (assign_writes _ _ _ _ _ (target_cell_app _ [_] _ _ _ Ht)). cbn.
    eexists _, _, _. split; [reflexivity|].
    split; [apply lookup_snoc_new|].
    split; [by apply binding_write, target_cell_app|].
    exists (length h1). split; [done|]. split; [by apply lookup_ge_None|].
    apply lookup_snoc_old. rewrite write_lookup_ne.
    + apply lookup_snoc_new.
    + destruct (target_cell_allocated _ _ _ _ Ht) as [cl El].
      apply lookup_lt_Some in El. lia.
Qed.

(** The value assignment, run to its final heap. *)
Lemma value_assignment_run fuel t kw rhs env h valueNode h1 r v c l :
  interpret fuel (Some rhs) env h = (Ret valueNode, h1) ->
  read_prop h1 valueNode "ref" = Ret r ->
  read_prop h1 valueNode "val" = Ret v ->
  read_prop h1 env "ctx" = Ret (VLoc c) ->
  target_cell h1 c t = Some l ->
  interpret (S fuel) (Some (value_assignment t kw rhs)) env h
  = if is_undefined r
    then (Ret (VLoc (length h1)),
          write h1 l (slot t) v ++ [Cell SObject [("ctx", VLoc c); ("ret", VNull)]])
    else (Ret (VLoc (S (length h1))),
          write (h1 ++ [Cell SObject [("ref", r)]]) l (slot t) (VLoc (length h1))
            ++ [Cell SObject [("ctx", VLoc c); ("ret", VNull)]]).
Proof.
  intros Hrhs Hr Hv Hctx Ht.
  cbn -[assign]. rewrite Hrhs. cbn -[assign]. rewrite Hr.
  rewrite (value_or_reference _ _ _ _ Hr Hv).
  destruct (is_undefined r) eqn:Eu.
  - rewrite Hctx, (assign_writes _ _ _ _ _ Ht). cbn. by rewrite write_length.
  - rewrite (read_prop_app _ _ _ _ _ Hctx) by done.
    rewrite (assign_writes _ _ _ _ _ (target_cell_app _ [_] _ _ _ Ht)). cbn.
    by rewrite write_length, length_app, Nat.add_1_r.
Qed.

(** Reading a variable yields a new [{ref, val}] pair: the name read and the
    binding found under it, as it is stored. *)
Lemma variable_read fuel x env h c v :
  read_prop h env "ctx" = Ret (VLoc c) ->
  read_prop h (VLoc c) x = Ret v ->
  interpret (S (S (S (S fuel)))) (Some (variable (Scalar x))) env h
  = (Ret (VLoc (length h)), h ++ [Cell SObject [("ref", VStr x); ("val", v)]]).
Proof. intros Hctx Hx. cbn. rewrite Hctx. cbn in Hx |- *. by rewrite Hx. Qed.

(** [resolve] on a reference wrapper reads the context under the name the
    wrapper holds and goes on from what it finds. *)
Lemma resolve_reference n v env h r ctx :
  reference_of h v = Some r ->
  read_prop h env "ctx" = Ret ctx ->
  deref (S n) v env h = (let* b := getp ctx (to_str h r) in deref n b env) h.
Proof.
  intros Hv Hctx. destruct v as [| | | |w]; try done. simpl in Hv.
  cbn. destruct (h !! w) as [[[] ps]|] eqn:E; try done.
  destruct (alookup "ref" ps) as [r'|] eqn:Er; [|done].
  destruct r'; try done; injection Hv as <-; cbn; rewrite Hctx; cbn;
    rewrite ?E; cbn; rewrite ?Er; cbn; try done.
Qed.

(** [y is x]: the context gets a new wrapper naming [x] under [y]; no
    other cell that existed changes, and no other slot of the context. *)
Lemma value_assignment_variable fuel x y kw env h c :
  read_prop h env "ctx" = Ret (VLoc c) ->
  is_Some (h !! c) ->
  ∃ e w h2,
    interpret (S (S (S (S (S fuel)))))
      (Some (value_assignment (Scalar y) kw (variable (Scalar x)))) env h
      = (Ret (VLoc e), h2) ∧
    h !! w = None ∧ h !! e = None ∧
    h2 !! w = Some (Cell SObject [("ref", VStr x)]) ∧
    h2 !! e = Some (Cell SObject [("ctx", VLoc c); ("ret", VNull)]) ∧
    read_prop h2 (VLoc c) y = Ret (VLoc w) ∧
    (∀ l cl, l ≠ c -> h !! l = Some cl -> h2 !! l = Some cl) ∧
    (∀ k, k ≠ y -> read_prop h2 (VLoc c) k = read_prop h (VLoc c) k).
Proof.
  intros Hctx [cc Hc].
  pose proof (lookup_lt_Some _ _ _ Hc) as Hlt.
  set (v := default VUndef (alookup x (props cc))).
  assert (read_prop h (VLoc c) x = Ret v) as Hx by (by apply read_prop_cell).
  set (h1 := h ++ [Cell SObject [("ref", VStr x); ("val", v)]]).
  assert (h1 !! c = Some cc) as Hc1 by (by apply lookup_snoc_old).
  assert (target_cell h1 c (Scalar y) = Some c) as Ht by (simpl; by rewrite Hc1).
  eexists _, (length h1), _. split.
  { erewrite value_assignment_run with (r := VStr x) (v := v) (h1 := h1) (c := c);
      [reflexivity| by apply (variable_read _ _ _ _ c)
      | subst h1; cbn; by rewrite lookup_snoc_new ..
      | by apply read_prop_app | done]. }
  cbn [is_undefined slot].
  assert (length h1 = S (length h)) as Hl1
      by (subst h1; rewrite length_app; simpl; lia).
  set (hw := h1 ++ [Cell SObject [("ref", VStr x)]]).
  assert (hw !! c = Some cc) as Hcw by (by apply lookup_snoc_old).
  assert (write hw c y (VLoc (length h1)) !! c
          = Some (Cell (shape_of cc) (aupdate y (VLoc (length h1)) (props cc))))
    as Hwc by (by apply write_lookup_eq).
  split; [apply lookup_ge_None; lia|]. split; [apply lookup_ge_None; lia|].
  split.
  { apply lookup_snoc_old. rewrite write_lookup_ne by lia. apply lookup_snoc_new. }
  split.
  { replace (S (length h1)) with (length (write hw c y (VLoc (length h1)))).
    - apply lookup_snoc_new.
    - rewrite write_length. subst hw. rewrite length_app; simpl; lia. }
  split.
  { unfold read_prop. rewrite (lookup_snoc_old _ _ _ _ Hwc).
    simpl. by rewrite alookup_aupdate_eq. }
  split.
  - intros l cl Hne Hl. apply lookup_snoc_old. rewrite write_lookup_ne by done.
    by do 2 apply lookup_snoc_old.
  - intros k Hk. unfold read_prop. rewrite (lookup_snoc_old _ _ _ _ Hwc).
    rewrite Hc. simpl. by rewrite alookup_aupdate_ne.
Qed.


(** C3, as the code has it: a value assignment from a variable stores a
    wrapper naming that variable whatever its slot holds.  When [y] holds a
    reference to [x], [z is y] leaves in storage a reference ([z]) that
    points at a slot ([y]) holding a reference; nothing collapses the chain
    at assignment time, and [resolve] walks its two links at read time. *)
Theorem reference_chain_stored :
  ∀ fuel x y z kw env h c wy,
    z ≠ y ->
    read_prop h env "ctx" = Ret (VLoc c) ->
    env ≠ VLoc c ->
    read_prop h (VLoc c) y = Ret (VLoc wy) ->
    reference_of h (VLoc wy) = Some (VStr x) ->
    wy ≠ c ->
    ∃ e wz h2,
      interpret (S (S (S (S (S fuel)))))
        (Some (value_assignment (Scalar z) kw (variable (Scalar y)))) env h
        = (Ret (VLoc e), h2) ∧
      read_prop h2 (VLoc c) z = Ret (VLoc wz) ∧
      reference_of h2 (VLoc wz) = Some (VStr y) ∧
      read_prop h2 (VLoc c) y = Ret (VLoc wy) ∧
      reference_of h2 (VLoc wy) = Some (VStr x) ∧
      points_at_reference h2 (VLoc c) (VLoc wz) = true ∧
      ∀ n, deref (S (S n)) (VLoc wz) env h2
           = (let* b := getp (VLoc c) x in deref n b env) h2.
Proof.
  intros fuel x y z kw env h c wy Hzy Hctx Henv Hy Hwy Hne.
  destruct (read_prop_found _ _ _ _ Hy) as (? & cc & [= <-] & Hc & _).
  destruct (value_assignment_variable fuel y z kw env h c Hctx (mk_is_Some _ _ Hc))
    as (e & wz & h2 & Hrun & _ & _ & Hwz & _ & Hz & Hframe & Hslots).
  assert (reference_of h2 (VLoc wz) = Some (VStr y)) as Hrz by (by simpl; rewrite Hwz).
  assert (read_prop h2 (VLoc c) y = Ret (VLoc wy)) as Hy2
      by (by rewrite Hslots).
  assert (reference_of h2 (VLoc wy) = Some (VStr x)) as Hry.
  { simpl in Hwy |- *. destruct (h !! wy) as [cw|] eqn:E; [|done].
    by rewrite (Hframe _ _ Hne E). }
  assert (read_prop h2 env "ctx" = Ret (VLoc c)) as Hctx2.
  { destruct (read_prop_found _ _ _ _ Hctx) as (le & ce & -> & He & Hk).
    unfold read_prop. rewrite (Hframe le ce); [by rewrite Hk| congruence | done]. }
  exists e, wz, h2. repeat split; try done.
  - unfold points_at_reference. rewrite Hrz. simpl to_str. rewrite Hy2, Hry.
    by rewrite bool_decide_eq_true.
  - intros n.
    rewrite resolve_reference with (r := VStr y) (ctx := VLoc c); [|done..].
    simpl to_str. cbn [bind getp]. rewrite Hy2.
    by rewrite resolve_reference with (r := VStr x) (ctx := VLoc c).
Qed.

(** [x is n] for an integer literal: the number itself goes into the slot. *)
Lemma value_assignment_literal fuel x n kw env h c :
  read_prop h env "ctx" = Ret (VLoc c) ->
  is_Some (h !! c) ->
  ∃ e h2,
    interpret (S (S (S (S fuel))))
      (Some (value_assignment (Scalar x) kw (literal_integer n))) env h
      = (Ret (VLoc e), h2) ∧
    h !! e = None ∧
    h2 !! e = Some (Cell SObject [("ctx", VLoc c); ("ret", VNull)]) ∧
    read_prop h2 (VLoc c) x = Ret (VNum n) ∧
    (∀ l cl, l ≠ c -> h !! l = Some cl -> h2 !! l = Some cl) ∧
    (∀ k, k ≠ x -> read_prop h2 (VLoc c) k = read_prop h (VLoc c) k).
Proof.
  intros Hctx [cc Hc].
  pose proof (lookup_lt_Some _ _ _ Hc) as Hlt.
  set (h1 := h ++ [Cell SObject [("val", VNum n)]]).
  assert (h1 !! c = Some cc) as Hc1 by (by apply lookup_snoc_old).
  assert (target_cell h1 c (Scalar x) = Some c) as Ht by (simpl; by rewrite Hc1).
  assert (length h1 = S (length h)) as Hl1
      by (subst h1; rewrite length_app; simpl; lia).
  eexists _, _. split.
  { erewrite value_assignment_run with (r := VUndef) (v := VNum n) (h1 := h1) (c := c);
      [reflexivity| by cbn | subst h1; cbn; by rewrite lookup_snoc_new ..
      | by apply read_prop_app | done]. }
  cbn [is_undefined slot].
  assert (write h1 c x (VNum n) !! c
          = Some (Cell (shape_of cc) (aupdate x (VNum n) (props cc))))
    as Hwc by (by apply write_lookup_eq).
  split; [apply lookup_ge_None; lia|].
  split.
  { replace (length h1) with (length (write h1 c x (VNum n))) by apply write_length.
    apply lookup_snoc_new. }
  split.
  { unfold read_prop. rewrite (lookup_snoc_old _ _ _ _ Hwc).
    simpl. by rewrite alookup_aupdate_eq. }
  split.
  - intros l cl Hne Hl. apply lookup_snoc_old. rewrite write_lookup_ne by done.
    by apply lookup_snoc_old.
  - intros k Hk. unfold read_prop. rewrite (lookup_snoc_old _ _ _ _ Hwc).
    rewrite Hc. simpl. by rewrite alookup_aupdate_ne.
Qed.

Lemma rmRet_write e h : rmRet (VLoc e) h = (Ret (VLoc e), write h e "ret" VNull).
Proof. cbn -[setp]. by rewrite setp_write. Qed.

(** A program clears [ret] and runs the statements of its block in turn. *)
Lemma program_run fuel statements env h :
  is_undefined env = false ->
  interpret (S (S fuel)) (Some (program statements)) env h
  = (let* env := rmRet env in
     let* env := run_sequence fuel (map (fun s => Node "expression" [s]) statements) env in
     ret env) h.
Proof.
  intros Hd. cbn -[rmRet]. rewrite Hd. cbn -[rmRet].
  by destruct (rmRet env h) as [[a| |] h'].
Qed.

Lemma statement_run fuel s rest env h :
  run_sequence (S fuel) (Node "expression" [s] :: rest) env h
  = (let* env := rmRet env in
     let* env := interpret fuel (Some s) env in
     run_sequence (S fuel) rest env) h.
Proof. reflexivity. Qed.

Lemma write_allocated h l k v l' : is_Some (h !! l') -> is_Some (write h l k v !! l').
Proof.
  intros [c Hc]. destruct (decide (l = l')) as [<-|Hne].
  - rewrite (write_lookup_eq _ _ _ _ _ Hc). eauto.
  - rewrite write_lookup_ne by done. eauto.
Qed.

Lemma read_prop_allocated h l k v :
  read_prop h (VLoc l) k = Ret v -> v ≠ VUndef -> is_Some (h !! l).
Proof.
  unfold read_prop. destruct (h !! l); [eauto|]. intros [= <-] Hv. by destruct Hv.
Qed.

(** C5, as the code has it: after [x is 5; y is x] the slot of [x] holds 5,
    and the slot of [y] holds a reference wrapper naming [x], not the number:
    a variable on the right-hand side always carries a reference, whatever it
    is bound to.  Reading [y] yields 5 only through [resolve]. *)
Theorem scalar_assignment_then_alias :
  ∀ fuel kw kw' env h c,
    read_prop h env "ctx" = Ret (VLoc c) ->
    is_Some (h !! c) ->
    ∃ e h2 w,
      interpret (S (S (S (S (S (S (S (S fuel))))))))
        (Some (program [value_assignment (Scalar "x") kw (literal_integer 5);
                        value_assignment (Scalar "y") kw' (variable (Scalar "x"))]))
        env h = (Ret (VLoc e), h2) ∧
      binding h2 (VLoc c) (Scalar "x") = Ret (VNum 5) ∧
      binding h2 (VLoc c) (Scalar "y") = Ret (VLoc w) ∧
      reference_of h2 (VLoc w) = Some (VStr "x") ∧
      ∀ n, deref (S (S n)) (VLoc w) (VLoc e) h2 = (Ret (VNum 5), h2).
Proof.
  intros fuel kw kw' env h c Hctx Hc.
  destruct (read_prop_found _ _ _ _ Hctx) as (e0 & ce & -> & He & Hk).
  rewrite program_run by done. cbn [map]. cbn [bind].
  rewrite rmRet_write, statement_run. cbn [bind]. rewrite rmRet_write.
  set (ha := write (write h e0 "ret" VNull) e0 "ret" VNull).
  assert (read_prop ha (VLoc e0) "ctx" = Ret (VLoc c)) as Hctxa.
  { subst ha. rewrite !write_read_other by (by right). done. }
  assert (is_Some (ha !! c)) as Hca by (by do 2 apply write_allocated).
  destruct (value_assignment_literal (S fuel) "x" 5 kw _ _ _ Hctxa Hca)
    as (e1 & h1 & -> & _ & He1 & Hx1 & _ & _).
  rewrite statement_run. cbn [bind]. rewrite rmRet_write.
  set (hb := write h1 e1 "ret" VNull).
  assert (read_prop hb (VLoc e1) "ctx" = Ret (VLoc c)) as Hctxb.
  { subst hb. rewrite write_read_other by (by right). unfold read_prop.
    by rewrite He1. }
  assert (read_prop hb (VLoc c) "x" = Ret (VNum 5)) as Hxb.
  { subst hb. by rewrite write_read_other by (by right). }
  assert (is_Some (hb !! c)) as Hcb by (by eapply read_prop_allocated).
  destruct (value_assignment_variable fuel "x" "y" kw' _ _ _ Hctxb Hcb)
    as (e2 & w & h2 & -> & _ & _ & Hw & He2 & Hy & _ & Hslots).
  cbn -[resolve binding reference_of]. exists e2, h2, w.
  assert (read_prop h2 (VLoc c) "x" = Ret (VNum 5)) as Hx2
      by (by rewrite Hslots).
  assert (reference_of h2 (VLoc w) = Some (VStr "x")) as Hrw
      by (by simpl; rewrite Hw).
  repeat split; try done.
  intros n.
  rewrite resolve_reference with (r := VStr "x") (ctx := VLoc c);
    [|done|by unfold read_prop; rewrite He2].
  simpl to_str. cbn [bind getp]. by rewrite Hx2.
Qed.

(** ** What [resolve] leaves alone *)

Lemma aupdate_keys k v ps :
  In k (map fst ps) -> map fst (aupdate k v ps) = map fst ps.
Proof.
  induction ps as [|[k' v'] ps IH]; simpl; [done|].
  destruct (String.eqb k k') eqn:E; simpl.
  - apply String.eqb_eq in E as ->. done.
  - intros [->|Hin]; [by rewrite String.eqb_refl in E|]. by rewrite IH.
Qed.

Lemma plain_aupdate sh ps k v :
  plain (Cell sh ps) = true -> (k = "ref" -> v = VUndef) ->
  plain (Cell sh (aupdate k v ps)) = true.
Proof.
  unfold plain; simpl. destruct sh; try done. intros Hp Hk.
  destruct (String.eqb "ref" k) eqn:E.
  - apply String.eqb_eq in E as <-. rewrite alookup_aupdate_eq. by rewrite Hk.
  - apply String.eqb_neq in E. by rewrite alookup_aupdate_ne.
Qed.

Lemma frame_refl h : frame h h.
Proof. intros l c Hl. exists c. by repeat split. Qed.

Lemma frame_trans h1 h2 h3 : frame h1 h2 -> frame h2 h3 -> frame h1 h3.
Proof.
  intros H12 H23 l c Hl.
  destruct (H12 l c Hl) as (c2 & Hl2 & Hs2 & Hn2 & Hp2).
  destruct (H23 l c2 Hl2) as (c3 & Hl3 & Hs3 & Hn3 & Hp3).
  exists c3. split; [done|]. split; [congruence|]. split.
  - intros Hp. specialize (Hn2 Hp). subst c2. by apply Hn3.
  - intros Hp. destruct (Hp2 Hp) as (Hpl & Hk & Hm).
    destruct (Hp3 Hpl) as (Hpl' & Hk' & Hm'). split; [done|]. split; congruence.
Qed.

Lemma frame_alloc h c : frame h (h ++ [c]).
Proof.
  intros l cl Hl. exists cl. split; [by apply lookup_snoc_old|]. by repeat split.
Qed.

Lemma frame_length h h' : frame h h' -> (length h <= length h')%nat.
Proof.
  intros Hf. destruct (decide (length h = 0)) as [->|Hne]; [lia|].
  destruct (lookup_lt_is_Some_2 h (pred (length h))) as [c Hc]; [lia|].
  destruct (Hf _ _ Hc) as (c' & Hc' & _). apply lookup_lt_Some in Hc'. lia.
Qed.

(** A write behind the back of [h]: into an attribute a plain object of [h]
    has, or into a cell allocated since. *)
Lemma frame_write h h' l k v :
  frame h h' ->
  (∀ c, h !! l = Some c ->
        plain c = true ∧ In k (map fst (props c)) ∧ k ≠ "_meta" ∧
        (k = "ref" -> v = VUndef)) ->
  frame h (write h' l k v).
Proof.
  intros Hf Hl l' c Hc. destruct (Hf _ _ Hc) as (c' & Hc' & Hs & Hn & Hp).
  destruct (decide (l = l')) as [<-|Hne]; [|rewrite write_lookup_ne by done; eauto 6].
  destruct (Hl _ Hc) as (Hpl & Hin & Hmeta & Href).
  destruct (Hp Hpl) as (Hpl' & Hk' & Hm').
  rewrite (write_lookup_eq _ _ _ _ _ Hc'). eexists. split; [done|].
  split; [done|]. split; [by rewrite Hpl|]. intros _. simpl.
  split; [|split].
  - destruct c' as [sh' ps']. by apply plain_aupdate.
  - rewrite aupdate_keys; [done|by rewrite Hk'].
  - rewrite alookup_aupdate_ne by done. done.
Qed.

Lemma frame_insert_new h h' l c :
  frame h h' -> h !! l = None -> frame h (<[l := c]> h').
Proof.
  intros Hf Hl l' c' Hc'. destruct (Hf _ _ Hc') as (c2 & Hc2 & Hrest).
  rewrite list_lookup_insert_ne by congruence. eauto.
Qed.

Lemma for_each_invariant {A} (f : A -> M unit) (P : heap -> Prop) xs :
  (∀ x h o h', In x xs -> P h -> f x h = (o, h') -> P h') ->
  ∀ h o h', P h -> for_each f xs h = (o, h') -> P h'.
Proof.
  induction xs as [|x xs IH]; intros Hf h o h' HP; cbn.
  - by intros [= _ <-].
  - destruct (f x h) as [[[]| |] h1] eqn:E.
    + apply IH; [intros; eapply Hf; eauto using in_cons|].
      eapply Hf; eauto using in_eq.
    + intros [= _ <-]. eapply Hf; eauto using in_eq.
    + intros [= _ <-]. eapply Hf; eauto using in_eq.
Qed.

Lemma resolve_case_object h v :
  resolve_case_of h v = AsObject ->
  ∃ l c, v = VLoc l ∧ h !! l = Some c ∧ plain c = true.
Proof.
  destruct v as [| | | |l]; try done. simpl.
  destruct (h !! l) as [[sh ps]|] eqn:E; [|done].
  destruct sh; try done. intros Hr. exists l, (Cell SObject ps).
  split; [done|]. split; [done|]. unfold plain; simpl.
  destruct (alookup "ref" ps) as [[]|]; done.
Qed.

Lemma resolve_case_list h v :
  resolve_case_of h v = AsList ->
  ∃ l its ps, v = VLoc l ∧ h !! l = Some (Cell (SList its) ps).
Proof.
  destruct v as [| | | |l]; try done. simpl.
  destruct (h !! l) as [[sh ps]|] eqn:E; [|done].
  destruct sh; try done; [by destruct (alookup "ref" ps) as [[]|]|eauto].
Qed.

(** The [ref] attribute of a plain object reads as [undefined]. *)
Lemma plain_ref_undefined h l c :
  h !! l = Some c -> plain c = true -> read_prop h (VLoc l) "ref" = Ret VUndef.
Proof.
  intros Hl Hp. unfold read_prop. rewrite Hl. unfold plain in Hp.
  destruct (shape_of c); try done.
  by destruct (alookup "ref" (props c)) as [[]|].
Qed.

#[local] Abbreviation list_add := (invoke library_fn library_list_op).

(** [resolvedList.add(r)] appends to the array behind the list. *)
Lemma invoke_add l its ps r h :
  h !! l = Some (Cell (SList its) ps) ->
  list_add (VLoc l) "add" r h = (Ret VUndef, <[l := Cell (SList (its ++ [r])) ps]> h).
Proof. intros Hl. unfold invoke. by rewrite Hl. Qed.

Section Methods.
Variable rec : jsvalue -> jsvalue -> M jsvalue.
Hypothesis rec_frame : ∀ v env h o h', rec v env h = (o, h') -> frame h h'.
Hypothesis rec_undefined : ∀ env h r h', rec VUndef env h = (Ret r, h') -> r = VUndef.

Lemma resolve_ref_frame v env h o h' :
  resolve_ref rec v env h = (o, h') -> frame h h'.
Proof.
  cbn. destruct (read_prop h env "ctx") as [ctx| |]; [|by intros [= _ <-]; apply frame_refl..].
  destruct (read_prop h v "ref") as [r| |]; [|by intros [= _ <-]; apply frame_refl..].
  destruct (read_prop h ctx _) as [b| |]; [|by intros [= _ <-]; apply frame_refl..].
  apply rec_frame.
Qed.

Lemma resolve_object_frame v env h o h' :
  resolve_case_of h v = AsObject ->
  resolve_object rec v env h = (o, h') -> frame h h'.
Proof.
  intros (l & c & -> & Hl & Hp)%resolve_case_object.
  unfold resolve_object. cbn [bind own_keys]. rewrite Hl.
  destruct (for_each _ _ h) as [o1 h1] eqn:E. intros Ho.
  assert (h' = h1) as -> by (by destruct o1; injection Ho).
  revert E. apply for_each_invariant with (P := frame h); [|apply frame_refl].
  intros i hi oi hi' Hin Hfi. destruct (String.eqb i "_meta") eqn:Em.
  { by intros [= _ <-]. }
  cbn [bind getp]. destruct (read_prop hi (VLoc l) i) as [u| |] eqn:Eu;
    [|by intros [= _ <-]..].
  destruct (rec u env hi) as [[r| |] hr] eqn:Er;
    [|intros [= _ <-]; eapply frame_trans; [done|by eapply rec_frame]..].
  rewrite setp_write. intros [= _ <-].
  apply frame_write; [eapply frame_trans; [done|by eapply rec_frame]|].
  intros c' Hc'. assert (c' = c) as -> by congruence.
  split; [done|]. split; [done|]. split; [by apply String.eqb_neq|].
  intros ->. destruct (Hfi _ _ Hl) as (ci & Hci & _ & _ & Hpi).
  destruct (Hpi Hp) as (Hpli & _).
  rewrite (plain_ref_undefined _ _ _ Hci Hpli) in Eu. injection Eu as <-.
  by eapply rec_undefined.
Qed.

Lemma resolve_list_frame v env h o h' :
  resolve_list library_fn library_list_op rec v env h = (o, h') -> frame h h'.
Proof.
  unfold resolve_list. cbn [bind list_items alloc].
  destruct v as [| | | |l]; try (intros [= _ <-]; apply frame_refl).
  destruct (h !! l) as [[sh ps]|] eqn:Hl; [|intros [= _ <-]; apply frame_refl].
  destruct sh as [|es|its|f]; try (intros [= _ <-]; apply frame_refl).
  destruct (for_each _ _ _) as [o1 h1] eqn:E. intros Ho.
  assert (h' = h1) as -> by (by destruct o1; injection Ho).
  cut (frame h h1 ∧ ∃ acc, h1 !! length h = Some (Cell (SList acc) []));
    [tauto|]. revert E.
  apply for_each_invariant
    with (P := fun hi => frame h hi ∧ ∃ acc, hi !! length h = Some (Cell (SList acc) [])).
  - intros item hi oi hi' _ [Hfi [acc Hacc]]. cbn [bind].
    destruct (rec item env hi) as [[r| |] hr] eqn:Er.
    + pose proof (rec_frame _ _ _ _ _ Er) as Hfr.
      destruct (Hfr _ _ Hacc) as (c' & Hc' & _ & Hsame & _).
      rewrite (Hsame eq_refl) in Hc'.
      rewrite (invoke_add _ _ _ _ _ Hc'). intros [= _ <-]. split.
      * apply frame_insert_new; [by eapply frame_trans|].
        by apply lookup_ge_None.
      * eexists. apply list_lookup_insert_eq. by eapply lookup_lt_Some.
    + pose proof (rec_frame _ _ _ _ _ Er) as Hfr. intros [= _ <-].
      split; [by eapply frame_trans|].
      destruct (Hfr _ _ Hacc) as (c' & Hc' & _ & Hsame & _).
      rewrite (Hsame eq_refl) in Hc'. eauto.
    + pose proof (rec_frame _ _ _ _ _ Er) as Hfr. intros [= _ <-].
      split; [by eapply frame_trans|].
      destruct (Hfr _ _ Hacc) as (c' & Hc' & _ & Hsame & _).
      rewrite (Hsame eq_refl) in Hc'. eauto.
  - split; [apply frame_alloc|]. eexists. apply lookup_snoc_new.
Qed.
End Methods.

Lemma resolve_other n v env h :
  resolve_case_of h v = AsOther -> deref (S n) v env h = (Ret v, h).
Proof. intros D. cbn [resolve bind resolve_dispatch]. by rewrite D. Qed.

Lemma resolve_undefined n env h r h' :
  deref n VUndef env h = (Ret r, h') -> r = VUndef.
Proof. destruct n; [done|]. rewrite resolve_other by done. by intros [= <- _]. Qed.

Lemma resolve_frame n :
  ∀ v env h o h', deref n v env h = (o, h') -> frame h h'.
Proof.
  induction n as [|n IH]; intros v env h o h'.
  { intros [= _ <-]. apply frame_refl. }
  cbn [resolve bind resolve_dispatch].
  destruct (resolve_case_of h v) eqn:D.
  - by apply resolve_list_frame.
  - apply resolve_object_frame; [done|apply resolve_undefined|done].
  - by apply resolve_ref_frame.
  - intros [= _ <-]. apply frame_refl.
Qed.

(** The loop of the "list" case: it appends to the new list, in order, what
    [resolve] returns for each item. *)
Lemma resolve_list_loop n env h new :
  h !! new = None ->
  ∀ items acc hi h',
    frame h hi ->
    hi !! new = Some (Cell (SList acc) []) ->
    for_each (fun item =>
                let* r := deref n item env in
                let* _ := list_add (VLoc new) "add" r in
                ret tt) items hi = (Ret tt, h') ->
    frame h h' ∧
    ∃ rs, h' !! new = Some (Cell (SList (acc ++ rs)) []) ∧
          Forall2 (resolved_form n env h) items rs.
Proof.
  intros Hnew. induction items as [|item items IH]; intros acc hi h' Hf Hacc; cbn [for_each].
  - intros [= <-]. split; [done|]. exists []. by rewrite app_nil_r.
  - cbn [bind]. destruct (deref n item env hi) as [[r| |] hr] eqn:Er; try done.
    pose proof (resolve_frame _ _ _ _ _ _ Er) as Hfr.
    destruct (Hfr _ _ Hacc) as (c' & Hc' & _ & Hsame & _).
    rewrite (Hsame eq_refl) in Hc'. rewrite (invoke_add _ _ _ _ _ Hc'). cbn [ret].
    intros Hrest. apply IH with (acc := acc ++ [r]) in Hrest as (Hf' & rs & Hrs & Hall).
    + split; [done|]. exists (r :: rs). rewrite <- app_assoc in Hrs. split; [done|].
      constructor; [|done]. by exists hi, hr.
    + apply frame_insert_new; [by eapply frame_trans|done].
    + apply list_lookup_insert_eq. by eapply lookup_lt_Some.
Qed.

(** [resolve] on a list: a new cell, the resolved items in order, and the
    list itself as it was. *)
Lemma resolve_list_copy n env h l its ps r h' :
  h !! l = Some (Cell (SList its) ps) ->
  deref (S n) (VLoc l) env h = (Ret r, h') ->
  r = VLoc (length h) ∧ frame h h' ∧
  h' !! l = Some (Cell (SList its) ps) ∧
  ∃ rs, h' !! length h = Some (Cell (SList rs) []) ∧
        Forall2 (resolved_form n env h) its rs.
Proof.
  intros Hl. cbn [resolve bind resolve_dispatch]. unfold resolve_case_of. rewrite Hl.
  unfold resolve_list. cbn [bind list_items alloc]. rewrite Hl.
  destruct (for_each _ _ _) as [[[]| |] h1] eqn:E; try done.
  intros [= <- <-].
  apply resolve_list_loop with (h := h) (acc := []) in E as (Hf & rs & Hrs & Hall).
  - split; [done|]. split; [done|]. split; [|by exists rs].
    destruct (Hf _ _ Hl) as (c' & Hc' & _ & Hsame & _). by rewrite (Hsame eq_refl) in Hc'.
  - by apply lookup_ge_None.
  - apply frame_alloc.
  - apply lookup_snoc_new.
Qed.

(** ** List assignment *)

(** The value read of a target. *)
Lemma target_read fuel t env h c v :
  read_prop h env "ctx" = Ret (VLoc c) ->
  binding h (VLoc c) t = Ret v ->
  evaluateValue library_fn library_list_op getInitialEnv (S (S fuel))
    (Some (target_node t)) env h
  = (Ret (VLoc (read_result h t)), h ++ read_cells h t v).
Proof.
  intros Hctx Hb. destruct t as [x|o a]; unfold binding in Hb;
    cbn -[read_prop]; rewrite Hctx; cbn -[read_prop].
  - by rewrite Hb.
  - destruct (read_prop h (VLoc c) o) as [ov| |]; try done.
    destruct (is_undefined ov); cbn -[read_prop]; rewrite ?Hb; cbn -[read_prop];
      try (injection Hb as <-);
      rewrite <- app_assoc; simpl; by rewrite length_app, Nat.add_1_r.
Qed.

Lemma read_result_lookup h t v :
  (h ++ read_cells h t v) !! read_result h t
  = Some (Cell SObject [("ref", match t with
                                | Scalar x => VStr x
                                | Attribute _ _ => VLoc (length h)
                                end); ("val", v)]).
Proof.
  destruct t as [x|o a]; simpl.
  - apply lookup_snoc_new.
  - replace (S (length h)) with (length (h ++ [Cell (SArray [VStr o; VStr a]) []]))
      by (rewrite length_app; simpl; lia).
    change (h ++ [?a; ?b]) with (h ++ [a] ++ [b]). rewrite app_assoc.
    apply lookup_snoc_new.
Qed.

(** The "list_assignment" method on a well-formed statement. *)
Lemma interpret_list_assignment fuel op item kw t env h :
  interpret (S fuel) (Some (list_assignment op item kw t)) env h
  = (let* currentListEval :=
       evaluateValue library_fn library_list_op getInitialEnv fuel
         (Some (target_node t)) env in
     let* val := getp currentListEval "val" in
     if is_undefined val then
       let* ref := getp currentListEval "ref" in
       let* msg := no_such_list ref in
       raise (ErrorMsg msg)
     else
       let* itemEval := interpret fuel (Some item) env in
       let* r := getp itemEval "ref" in
       let* it := (if is_undefined r then getp itemEval "val"
                   else new_object [("ref", r)]) in
       let* list := getp currentListEval "val" in
       let* _ := invoke library_fn library_list_op list op it in
       let* c := getp env "ctx" in
       let* val := getp currentListEval "val" in
       let* newCtx := assign c (Some (assignee t)) val in
       nreturn newCtx VUndef) h.
Proof. reflexivity. Qed.

(** Replacing the items of a list does not change what property reads find. *)
Lemma read_prop_insert_props h L c c' o k :
  h !! L = Some c -> props c' = props c ->
  read_prop (<[L := c']> h) o k = read_prop h o k.
Proof.
  intros HL Hp. destruct o as [| | | |lo]; try done. unfold read_prop.
  destruct (decide (L = lo)) as [<-|Hne].
  - rewrite list_lookup_insert_eq by (by eapply lookup_lt_Some).
    by rewrite HL, Hp.
  - by rewrite list_lookup_insert_ne.
Qed.

Lemma insert_allocated (h : heap) L c' l :
  is_Some (<[L := c']> h !! l) <-> is_Some (h !! l).
Proof. by rewrite !lookup_lt_is_Some, length_insert. Qed.

Lemma target_cell_insert_props h L c c' ctx t :
  h !! L = Some c -> props c' = props c ->
  target_cell (<[L := c']> h) ctx t = target_cell h ctx t.
Proof.
  intros HL Hp. destruct t as [x|o a]; unfold target_cell.
  - pose proof (insert_allocated h L c' ctx) as Hi.
    destruct (<[L:=c']> h !! ctx), (h !! ctx); try done.
    + destruct Hi as [Hi _]. by destruct Hi.
    + destruct Hi as [_ Hi]. by destruct Hi.
  - rewrite (read_prop_insert_props _ _ _ _ _ _ HL Hp).
    destruct (read_prop h (VLoc ctx) o) as [[| | | |lo]| |]; try done.
    pose proof (insert_allocated h L c' lo) as Hi.
    destruct (<[L:=c']> h !! lo), (h !! lo); try done.
    + destruct Hi as [Hi _]. by destruct Hi.
    + destruct Hi as [_ Hi]. by destruct Hi.
Qed.

(** The list assignment, run to its final heap, when the target holds an
    Isla list that has the operation. *)
Lemma list_assignment_run fuel op item kw t env h c L its ps f itemEval hx r v l :
  read_prop h env "ctx" = Ret (VLoc c) ->
  binding h (VLoc c) t = Ret (VLoc L) ->
  h !! L = Some (Cell (SList its) ps) ->
  target_cell h c t = Some l ->
  list_method library_list_op op = Some f ->
  interpret (S (S fuel)) (Some item) env (h ++ read_cells h t (VLoc L))
    = (Ret itemEval, (h ++ read_cells h t (VLoc L)) ++ hx) ->
  read_prop ((h ++ read_cells h t (VLoc L)) ++ hx) itemEval "ref" = Ret r ->
  read_prop ((h ++ read_cells h t (VLoc L)) ++ hx) itemEval "val" = Ret v ->
  interpret (S (S (S fuel))) (Some (list_assignment op item kw t)) env h
  = let h1 := (h ++ read_cells h t (VLoc L)) ++ hx in
    let hw := if is_undefined r then h1 else h1 ++ [Cell SObject [("ref", r)]] in
    let it := if is_undefined r then v else VLoc (length h1) in
    (Ret (VLoc (length hw)),
     write (<[L := Cell (SList (f its it)) ps]> hw) l (slot t) (VLoc L)
       ++ [Cell SObject [("ctx", VLoc c); ("ret", VNull)]]).
Proof.
  intros Hctx Hb HL Ht Hop Hitem Hr Hv.
  set (ht := h ++ read_cells h t (VLoc L)) in *.
  set (h1 := ht ++ hx) in *.
  assert (∀ h', read_prop (h1 ++ h') (VLoc (read_result h t)) "val" = Ret (VLoc L))
    as Hval.
  { intros h'. unfold h1. rewrite <- app_assoc. unfold read_prop.
    erewrite lookup_app_l_Some by apply read_result_lookup. done. }
  assert (h1 !! L = Some (Cell (SList its) ps)) as HL1 by (by do 2 apply lookup_app_l_Some).
  assert (target_cell h1 c t = Some l) as Ht1 by (by do 2 apply target_cell_app).
  assert (read_prop h1 env "ctx" = Ret (VLoc c)) as Hctx1
      by (by apply read_prop_app; [apply read_prop_app|]).
  rewrite interpret_list_assignment. cbn [bind].
  rewrite (target_read _ _ _ _ _ _ Hctx Hb). fold ht. cbn [getp].
  assert (read_prop ht (VLoc (read_result h t)) "val" = Ret (VLoc L)) as ->.
  { unfold read_prop, ht. by rewrite read_result_lookup. }
  cbn [is_undefined bind]. rewrite Hitem. fold h1. cbn [getp]. rewrite Hr.
  rewrite (value_or_reference _ _ _ _ Hr Hv).
  destruct (is_undefined r); cbv zeta.
  - specialize (Hval []). rewrite app_nil_r in Hval. rewrite Hval.
    unfold invoke. rewrite HL1, Hop.
    rewrite !(read_prop_insert_props _ _ _ _ _ _ HL1) by done.
    rewrite Hctx1, Hval. rewrite assign_writes with (l := l).
    + cbn. by rewrite write_length, length_insert.
    + by rewrite (target_cell_insert_props _ _ _ _ _ _ HL1).
  - pose proof (Hval [Cell SObject [("ref", r)]]) as Hvw.
    pose proof (read_prop_app _ [Cell SObject [("ref", r)]] _ _ _ Hctx1) as Hcw.
    set (hw := h1 ++ [Cell SObject [("ref", r)]]) in *.
    assert (hw !! L = Some (Cell (SList its) ps)) as HLw by (by apply lookup_app_l_Some).
    rewrite Hvw. unfold invoke. rewrite HLw, Hop.
    rewrite !(read_prop_insert_props _ _ _ _ _ _ HLw) by done.
    rewrite Hcw by done. rewrite Hvw.
    rewrite assign_writes with (l := l).
    + cbn. by rewrite write_length, length_insert.
    + rewrite (target_cell_insert_props _ _ _ _ _ _ HLw) by done.
      by apply target_cell_app.
Qed.




(** ** Type assignment and invocation *)




(** The "invocation" method on a well-formed statement. *)
Lemma interpret_invocation fuel f arg env h :
  interpret (S (S fuel)) (Some (invocation f arg)) env h
  = (let* wrapper := new_object [("ref", VStr f)] in
     let* fn := deref (S fuel) wrapper env in
     let* paramEval := interpret (S fuel) (Some arg) env in
     let* param := getp paramEval "val" in
     let* returnVal := call library_fn fn [env; param] in
     let* c := getp env "ctx" in
     nreturn c returnVal) h.
Proof. reflexivity. Qed.

(** C9, as the code has it: an invocation resolves the callee through the
    context, reads the [val] of the argument's evaluation as it is stored
    (no [resolve] on it), calls the function with the environment and that
    value, and returns a new [{ctx: env.ctx, ret}] whose [ret] is what the
    function returned, except that [undefined] is turned into [null]. *)
Theorem invocation_returns :
  ∀ fuel f arg env h fn h1 paramEval h2 param returnVal h3 c,
    deref (S fuel) (VLoc (length h)) env (h ++ [Cell SObject [("ref", VStr f)]])
      = (Ret fn, h1) ->
    interpret (S fuel) (Some arg) env h1 = (Ret paramEval, h2) ->
    read_prop h2 paramEval "val" = Ret param ->
    call library_fn fn [env; param] h2 = (Ret returnVal, h3) ->
    read_prop h3 env "ctx" = Ret c ->
    interpret (S (S fuel)) (Some (invocation f arg)) env h
    = (Ret (VLoc (length h3)),
       h3 ++ [Cell SObject [("ctx", c);
                            ("ret", if is_undefined returnVal then VNull
                                    else returnVal)]]).
Proof.
  intros fuel f arg env h fn h1 paramEval h2 param returnVal h3 c
    Hfn Harg Hparam Hcall Hctx.
  rewrite interpret_invocation. cbn [bind new_object alloc].
  rewrite Hfn, Harg. cbn [getp]. rewrite Hparam, Hcall, Hctx.
  unfold nreturn. by destruct (is_undefined returnVal).
Qed.



(** ** Contents are what [resolve] preserves *)

Lemma view_attr_mono (f g : jsvalue -> option tree) ps k kt :
  (∀ v t, f v = Some t -> g v = Some t) ->
  view_attr f ps k = Some kt -> view_attr g ps k = Some kt.
Proof.
  intros Hfg. unfold view_attr. destruct (String.eqb k "_meta"); [done|].
  destruct (f _) as [t|] eqn:E; [|done]. by rewrite (Hfg _ _ E).
Qed.

Lemma mapM_mono {A B} (f g : A -> option B) xs ys :
  (∀ x y, In x xs -> f x = Some y -> g x = Some y) ->
  mapM f xs = Some ys -> mapM g xs = Some ys.
Proof.
  intros Hfg. rewrite !mapM_Some. intros H.
  induction H as [|x y xs ys Hxy H IH]; constructor.
  - apply Hfg; [apply in_eq|done].
  - apply IH. intros x' y' Hin. apply Hfg. by apply in_cons.
Qed.

Lemma view_step_mono (f g : jsvalue -> option tree) env h v t :
  (∀ v t, f v = Some t -> g v = Some t) ->
  view_step f env h v = Some t -> view_step g env h v = Some t.
Proof.
  intros Hfg. unfold view_step.
  destruct (resolve_case_of h v); try done.
  - destruct v as [| | | |l]; try done.
    destruct (h !! l) as [[[| |its|] ps]|]; try done.
    destruct (mapM f its) as [ts|] eqn:E; [|done].
    by rewrite (mapM_mono _ g _ _ (fun x y _ => Hfg x y) E).
  - destruct v as [| | | |l]; try done.
    destruct (h !! l) as [c|]; try done.
    destruct (mapM _ _) as [ats|] eqn:E; [|done].
    erewrite mapM_mono; [done| |exact E].
    intros k kt _. by apply view_attr_mono.
  - destruct (read_prop h env "ctx") as [ctx| |]; try done.
    destruct (read_prop h v "ref") as [r| |]; try done.
    destruct (read_prop h ctx _) as [b| |]; try done.
    apply Hfg.
Qed.

Lemma view_S n env h :
  ∀ v t, view n env h v = Some t -> view (S n) env h v = Some t.
Proof.
  induction n as [|n IH]; intros v t; [done|].
  change (view_step (view n env h) env h v = Some t ->
          view_step (view (S n) env h) env h v = Some t).
  by apply view_step_mono.
Qed.

Lemma view_mono n m env h v t :
  (n <= m)%nat -> view n env h v = Some t -> view m env h v = Some t.
Proof. induction 1; [done|]. intros. by apply view_S, IHle. Qed.

Lemma view_unique n m env h v t t' :
  view n env h v = Some t -> view m env h v = Some t' -> t = t'.
Proof.
  intros H1 H2.
  apply (view_mono _ (Nat.max n m)) in H1; [|lia].
  apply (view_mono _ (Nat.max n m)) in H2; [|lia]. congruence.
Qed.

Lemma view_height n env h :
  ∀ v t, view n env h v = Some t -> (theight t <= n)%nat.
Proof.
  induction n as [|n IH]; intros v t; [done|].
  cbn [view]. unfold view_step.
  destruct (resolve_case_of h v).
  - destruct v as [| | | |l]; try done.
    destruct (h !! l) as [[[| |its|] ps]|]; try done.
    destruct (mapM (view n env h) its) as [ts|] eqn:E; [|done].
    intros [= <-]. cbn [theight]. apply le_n_S.
    apply mapM_Some in E. induction E as [|x y xs ys Hxy _ IHE]; simpl; [lia|].
    specialize (IH _ _ Hxy). lia.
  - destruct v as [| | | |l]; try done.
    destruct (h !! l) as [c|]; try done.
    destruct (mapM _ _) as [ats|] eqn:E; [|done].
    intros [= <-]. cbn [theight]. apply le_n_S.
    apply mapM_Some in E. induction E as [|x y xs ys Hxy _ IHE]; simpl; [lia|].
    unfold view_attr in Hxy. destruct (String.eqb x "_meta") eqn:Ex.
    + injection Hxy as <-. simpl. by rewrite Ex.
    + destruct (view n env h _) as [t'|] eqn:Et; [|done].
      injection Hxy as <-. simpl. rewrite Ex. specialize (IH _ _ Et). lia.
  - destruct (read_prop h env "ctx") as [ctx| |]; try done.
    destruct (read_prop h v "ref") as [r| |]; try done.
    destruct (read_prop h ctx _) as [b| |]; try done.
    intros Hb. specialize (IH _ _ Hb). lia.
  - intros [= <-]. simpl. lia.
Qed.

(** *** Soundness of what is read *)

Lemma alookup_In k ps v : alookup k ps = Some v -> In v (map snd ps).
Proof.
  induction ps as [|[k' v'] ps IH]; simpl; [done|].
  destruct (String.eqb k k'); [intros [= ->]; by left|]. intros. right. by apply IH.
Qed.

Lemma read_sound B h o k v :
  well_formed B h -> read_prop h o k = Ret v -> sound B h v.
Proof.
  intros [_ Hwf]. destruct o as [| | |s|l]; simpl; try done.
  - by intros [= <-].
  - destruct (String.eqb k "length"); by intros [= <-].
  - destruct (h !! l) as [c|] eqn:Hl; [|by intros [= <-]].
    destruct (alookup k (props c)) as [v'|] eqn:Ek; simpl; [|by intros [= <-]].
    intros [= <-]. apply (Hwf l c); [done|].
    unfold mentions. apply in_or_app. left. by eapply alookup_In.
Qed.

Lemma items_sound B h l its ps item :
  well_formed B h -> h !! l = Some (Cell (SList its) ps) -> In item its ->
  sound B h item.
Proof.
  intros [_ Hwf] Hl Hin. apply (Hwf l _ _ Hl). unfold mentions. simpl.
  apply in_or_app. by right.
Qed.

(** *** Heaps that agree where sound values can lead *)


Lemma read_prop_agree B h h' o k :
  agree B h h' -> sound B h o -> read_prop h' o k = read_prop h o k.
Proof.
  intros Ha Ho. destruct o as [| | |s|l]; try done.
  unfold read_prop. destruct Ho as [Hl Hb]. by rewrite (Ha l).
Qed.

Lemma to_str_agree B h h' r :
  agree B h h' -> sound B h r -> to_str h' r = to_str h r.
Proof.
  intros Ha Hr. destruct r as [| | |s|l]; try done.
  unfold to_str. destruct Hr as [Hl Hb]. by rewrite (Ha l).
Qed.

Lemma resolve_case_agree B h h' v :
  agree B h h' -> sound B h v -> resolve_case_of h' v = resolve_case_of h v.
Proof.
  intros Ha Hv. destruct v as [| | |s|l]; try done.
  unfold resolve_case_of. destruct Hv as [Hl Hb]. by rewrite (Ha l).
Qed.

Lemma mapM_ext_in {A B} (f g : A -> option B) xs :
  (∀ x, In x xs -> f x = g x) -> mapM f xs = mapM g xs.
Proof.
  induction xs as [|x xs IH]; intros Hfg; [done|]. cbn.
  rewrite (Hfg x) by apply in_eq. rewrite IH; [done|].
  intros. apply Hfg. by apply in_cons.
Qed.

Lemma view_agree B env h h' n :
  well_formed B h -> agree B h h' -> sound B h env ->
  ∀ v, sound B h v -> view n env h' v = view n env h v.
Proof.
  intros Hwf Ha Henv. induction n as [|n IH]; intros v Hv; [done|].
  cbn [view]. unfold view_step.
  rewrite (resolve_case_agree _ _ _ _ Ha Hv).
  destruct (resolve_case_of h v) eqn:D; [| | |done].
  - apply resolve_case_list in D as (l & its & ps & -> & Hl).
    destruct Hv as [Hlt Hb]. rewrite (Ha l Hlt Hb), Hl.
    rewrite (mapM_ext_in (view n env h') (view n env h)); [done|].
    intros item Hin. apply IH. by eapply items_sound.
  - apply resolve_case_object in D as (l & c & -> & Hl & Hp).
    destruct Hv as [Hlt Hb]. rewrite (Ha l Hlt Hb), Hl.
    rewrite (mapM_ext_in (view_attr (view n env h') (props c))
               (view_attr (view n env h) (props c))); [done|].
    intros k _. unfold view_attr. destruct (String.eqb k "_meta"); [done|].
    rewrite IH; [done|]. eapply (read_sound _ _ (VLoc l) k); [done|].
    unfold read_prop. by rewrite Hl.
  - rewrite (read_prop_agree _ _ _ _ _ Ha Henv).
    destruct (read_prop h env "ctx") as [ctx| |] eqn:Ec; [|done..].
    rewrite (read_prop_agree _ _ _ _ _ Ha Hv).
    destruct (read_prop h v "ref") as [r| |] eqn:Er; [|done..].
    pose proof (read_sound _ _ _ _ _ Hwf Ec) as Hctx.
    pose proof (read_sound _ _ _ _ _ Hwf Er) as Hr.
    rewrite (to_str_agree _ _ _ _ Ha Hr), (read_prop_agree _ _ _ _ _ Ha Hctx).
    destruct (read_prop h ctx _) as [b| |] eqn:Eb; [|done..].
    apply IH. by eapply read_sound.
Qed.

(** *** Writing a value with the same contents *)

Lemma write_case h l i r c w :
  h !! l = Some c -> plain c = true -> (i = "ref" -> r = VUndef) ->
  resolve_case_of (write h l i r) w = resolve_case_of h w.
Proof.
  intros Hl Hp Hi. destruct w as [| | | |l']; try done. unfold resolve_case_of.
  destruct (decide (l = l')) as [<-|Hne]; [|by rewrite write_lookup_ne].
  rewrite (write_lookup_eq _ _ _ _ _ Hl), Hl.
  destruct c as [sh ps]. pose proof (plain_aupdate sh ps i r Hp Hi) as Hp'.
  unfold plain in Hp, Hp'. simpl in *. destruct sh; try done.
  destruct (alookup "ref" ps) as [[]|], (alookup "ref" (aupdate i r ps)) as [[]|]; done.
Qed.

Lemma write_to_str h l i r c x :
  h !! l = Some c -> plain c = true -> to_str (write h l i r) x = to_str h x.
Proof.
  intros Hl Hp. destruct x as [| | | |l']; try done. unfold to_str.
  destruct (decide (l = l')) as [<-|Hne]; [|by rewrite write_lookup_ne].
  rewrite (write_lookup_eq _ _ _ _ _ Hl), Hl.
  unfold plain in Hp. by destruct c as [[] ps].
Qed.

Lemma view_write env h l i r c :
  h !! l = Some c -> plain c = true ->
  In i (map fst (props c)) -> i ≠ "_meta" -> (i = "ref" -> r = VUndef) ->
  read_prop (write h l i r) env "ctx" = read_prop h env "ctx" ->
  (∀ k t, view k env h (default VUndef (alookup i (props c))) = Some t ->
          view k env h r = Some t) ->
  ∀ k w t, view k env h w = Some t -> view k env (write h l i r) w = Some t.
Proof.
  intros Hl Hp Hin Hmeta Href Hctx Hsame.
  assert (∀ o k', read_prop (write h l i r) o k' = read_prop h o k' ∨
                  (o = VLoc l ∧ k' = i ∧ read_prop (write h l i r) o k' = Ret r ∧
                   read_prop h o k' = Ret (default VUndef (alookup i (props c)))))
    as Hread.
  { intros o k'. destruct (decide (o = VLoc l)) as [->|Ho];
      [destruct (decide (k' = i)) as [->|Hk]|].
    - right. repeat split; [by eapply write_read_eq|by apply read_prop_cell].
    - left. apply write_read_other. by right.
    - left. apply write_read_other. by left. }
  induction k as [|k IH]; intros w t; [done|].
  cbn [view]. unfold view_step.
  rewrite (write_case _ _ _ _ _ _ Hl Hp Href).
  destruct (resolve_case_of h w) eqn:D; [| | |done].
  - apply resolve_case_list in D as (l' & its & ps & -> & Hl').
    rewrite Hl'. rewrite write_lookup_ne by (intros ->; rewrite Hl in Hl';
      injection Hl' as ->; by unfold plain in Hp). rewrite Hl'.
    destruct (mapM (view k env h) its) as [ts|] eqn:E; [|done].
    by rewrite (mapM_mono _ (view k env (write h l i r)) _ _ (fun x y _ => IH x y) E).
  - apply resolve_case_object in D as (l' & c' & -> & Hl' & Hp').
    rewrite Hl'. destruct (decide (l = l')) as [<-|Hne].
    + rewrite (write_lookup_eq _ _ _ _ _ Hl). cbn [props].
      assert (c' = c) as -> by congruence. rewrite aupdate_keys by done.
      destruct (mapM _ _) as [ats|] eqn:E; [|done].
      erewrite mapM_mono; [done| |exact E].
      intros k' kt _. unfold view_attr.
      destruct (String.eqb k' "_meta") eqn:Em.
      { apply String.eqb_eq in Em as ->. by rewrite alookup_aupdate_ne. }
      destruct (decide (k' = i)) as [->|Hk].
      * rewrite alookup_aupdate_eq. simpl.
        destruct (view k env h (default VUndef (alookup i (props c)))) as [t'|] eqn:Et;
          [|done].
        intros [= <-]. by rewrite (IH _ _ (Hsame _ _ Et)).
      * rewrite alookup_aupdate_ne by done.
        destruct (view k env h _) as [t'|] eqn:Et; [|done].
        intros [= <-]. by rewrite (IH _ _ Et).
    + rewrite write_lookup_ne by done. rewrite Hl'.
      destruct (mapM _ _) as [ats|] eqn:E; [|done].
      erewrite mapM_mono; [done| |exact E].
      intros k' kt _. by apply view_attr_mono.
  - rewrite Hctx. destruct (read_prop h env "ctx") as [ctx| |]; [|done..].
    assert (read_prop (write h l i r) w "ref" = read_prop h w "ref") as ->.
    { apply write_read_other. left. intros ->. simpl in D. rewrite Hl in D.
      unfold plain in Hp. destruct c as [[] ps]; try done. simpl in *.
      by destruct (alookup "ref" ps) as [[]|]. }
    destruct (read_prop h w "ref") as [r'| |]; [|done..].
    rewrite (write_to_str _ _ _ _ _ _ Hl Hp).
    destruct (Hread ctx (to_str h r')) as [->|(-> & Hk & -> & ->)].
    + destruct (read_prop h ctx _) as [b| |]; [|done..]. apply IH.
    + intros Hu. apply IH. by apply Hsame.
Qed.

(** *** Well-formed heaps stay well formed *)

Lemma sound_mono B h h' v :
  sound B h v -> (length h <= length h')%nat -> sound B h' v.
Proof. destruct v; simpl; try done. intros [? ?] ?. split; [lia|done]. Qed.

Lemma sound_weaken (B B' : loc -> Prop) h v :
  (∀ l, B l -> B' l) -> sound B' h v -> sound B h v.
Proof. intros HB. destruct v; simpl; try done. intros [? ?]. split; [done|]. eauto. Qed.

Lemma well_formed_weaken (B B' : loc -> Prop) h :
  (∀ l, B l -> B' l) -> well_formed B' h -> well_formed B h.
Proof.
  intros HB [Hb Hwf]. split; [eauto|].
  intros l c v Hl Hin. eapply sound_weaken; eauto.
Qed.

Lemma aupdate_In k v ps x :
  In x (map snd (aupdate k v ps)) -> x = v ∨ In x (map snd ps).
Proof.
  induction ps as [|[k' v'] ps IH]; simpl.
  - intros [<-|[]]. by left.
  - destruct (String.eqb k k'); simpl.
    + intros [<-|Hin]; [by left|by right; right].
    + intros [<-|Hin]; [by right; left|]. destruct (IH Hin); [by left|by right; right].
Qed.

Lemma well_formed_write B h l i r :
  well_formed B h -> sound B h r -> well_formed B (write h l i r).
Proof.
  intros [Hb Hwf] Hr. split; [by rewrite write_length|].
  intros l' c v Hl' Hin.
  apply sound_mono with (h := h); [|by rewrite write_length].
  destruct (decide (l = l')) as [<-|Hne].
  - destruct (h !! l) as [c0|] eqn:Hl.
    + rewrite (write_lookup_eq _ _ _ _ _ Hl) in Hl'. injection Hl' as <-.
      unfold mentions in Hin. simpl in Hin. apply in_app_or in Hin as [Hin|Hin].
      * apply aupdate_In in Hin as [->|Hin]; [done|].
        apply (Hwf l c0); [done|]. unfold mentions. apply in_or_app. by left.
      * apply (Hwf l c0); [done|]. unfold mentions. apply in_or_app. by right.
    + unfold write in Hl'. rewrite Hl in Hl'. congruence.
  - rewrite write_lookup_ne in Hl' by done. by apply (Hwf l' c).
Qed.

Lemma well_formed_alloc_list B h :
  well_formed B h ->
  well_formed (fun l => B l ∨ l = length h) (h ++ [Cell (SList []) []]).
Proof.
  intros [Hb Hwf]. split.
  - intros b [Hbb| ->]; rewrite length_app; simpl; [specialize (Hb _ Hbb)|]; lia.
  - intros l c v Hl Hin. destruct (decide (l = length h)) as [->|Hne].
    + rewrite lookup_snoc_new in Hl. injection Hl as <-. by simpl in Hin.
    + rewrite lookup_app_l in Hl.
      2:{ apply lookup_lt_Some in Hl. rewrite length_app in Hl. simpl in Hl. lia. }
      specialize (Hwf _ _ _ Hl Hin). destruct v; simpl in *; try done.
      destruct Hwf as [Hlt Hnb]. rewrite length_app. simpl.
      split; [lia|]. intros [?| ->]; [done|lia].
Qed.

Lemma well_formed_add B h l acc ps r :
  well_formed B h -> h !! l = Some (Cell (SList acc) ps) -> sound B h r ->
  well_formed B (<[l := Cell (SList (acc ++ [r])) ps]> h).
Proof.
  intros [Hb Hwf] Hl Hr. split; [by rewrite length_insert|].
  intros l' c v Hl' Hin.
  apply sound_mono with (h := h); [|by rewrite length_insert].
  destruct (decide (l = l')) as [<-|Hne].
  - rewrite list_lookup_insert_eq in Hl' by (by eapply lookup_lt_Some).
    injection Hl' as <-. unfold mentions in Hin. simpl in Hin.
    apply in_app_or in Hin as [Hin|Hin].
    + apply (Hwf l _ _ Hl). unfold mentions. apply in_or_app. by left.
    + apply in_app_or in Hin as [Hin|[<-|[]]]; [|done].
      apply (Hwf l _ _ Hl). unfold mentions. apply in_or_app. by right.
  - rewrite list_lookup_insert_ne in Hl' by done. by apply (Hwf l' c).
Qed.

Lemma env_ready_agree B h h' env :
  agree B h h' -> (length h <= length h')%nat ->
  env_ready B h env -> env_ready B h' env.
Proof.
  intros Ha Hlen (Henv & c & Hctx & Hc & Hnb). split; [by eapply sound_mono|].
  exists c. rewrite (read_prop_agree _ _ _ _ _ Ha Henv). split; [done|].
  split; [|done]. rewrite (resolve_case_agree B h); [done..|].
  apply resolve_case_object in Hc as (? & cc & [= <-] & Hl & _).
  split; [by eapply lookup_lt_Some|done].
Qed.

Lemma env_ready_weaken (B B' : loc -> Prop) h env :
  (∀ l, B l -> B' l) -> env_ready B' h env -> env_ready B h env.
Proof.
  intros HB (Henv & c & Hctx & Hc & Hnb). split; [by eapply sound_weaken|].
  exists c. split; [done|]. split; [done|]. intros Hbc. apply Hnb. by apply HB.
Qed.

Lemma agree_alloc B h c : agree B h (h ++ [c]).
Proof. intros l Hl _. by apply lookup_app_l. Qed.

Lemma agree_insert (B : loc -> Prop) (h : heap) l c : B l -> agree B h (<[l := c]> h).
Proof. intros Hl l' _ Hb. apply list_lookup_insert_ne. by intros ->. Qed.

(** [resolve] on a plain object hands the object back. *)
Lemma resolve_object_result n v env h r h' :
  resolve_case_of h v = AsObject -> deref n v env h = (Ret r, h') -> r = v.
Proof.
  intros D. destruct n; [done|]. cbn [resolve bind resolve_dispatch]. rewrite D.
  apply resolve_case_object in D as (l & c & -> & Hl & _).
  unfold resolve_object. cbn [bind own_keys]. rewrite Hl.
  destruct (for_each _ _ _) as [[[]| |] h1]; try done. by intros [= <- _].
Qed.

Lemma sound_extend B h c v :
  sound B h v -> sound (fun l => B l ∨ l = length h) (h ++ [c]) v.
Proof.
  destruct v as [| | | |l]; simpl; try done. intros [Hl Hb].
  rewrite length_app. simpl. split; [lia|]. intros [?| ->]; [done|lia].
Qed.

Lemma env_ready_extend B h c env :
  env_ready B h env -> env_ready (fun l => B l ∨ l = length h) (h ++ [c]) env.
Proof.
  intros (Henv & cx & Hctx & Hc & Hnb). split; [by apply sound_extend|].
  exists cx. split; [by apply read_prop_app|].
  apply resolve_case_object in Hc as (? & cc & [= <-] & Hl & Hp).
  split.
  - simpl. rewrite (lookup_snoc_old _ _ _ _ Hl). unfold plain in Hp.
    destruct cc as [[] ps]; try done. simpl in Hp.
    by destruct (alookup "ref" ps) as [[]|].
  - apply lookup_lt_Some in Hl. intros [?| ->]; [done|lia].
Qed.

Lemma mapM_In {A B} (f : A -> option B) xs ys x :
  mapM f xs = Some ys -> In x xs -> ∃ y, f x = Some y ∧ In y ys.
Proof.
  rewrite mapM_Some. induction 1 as [|x' y' xs ys Hxy _ IH]; [done|].
  intros [->|Hin]; [exists y'; split; [done|by left]|].
  destruct (IH Hin) as (y & Hy & Hiny). exists y. split; [done|by right].
Qed.

Lemma theight_item ts t : In t ts -> (theight t < theight (TList ts))%nat.
Proof.
  cbn [theight]. induction ts as [|t' ts IH]; [done|]. simpl.
  intros [->|Hin]; [lia|]. specialize (IH Hin). lia.
Qed.

Lemma theight_attr l ats k t :
  In (k, t) ats -> k ≠ "_meta" -> (theight t < theight (TObj l ats))%nat.
Proof.
  cbn [theight]. intros Hin Hk. induction ats as [|[k' t'] ats IH]; [done|]. simpl.
  destruct Hin as [[= -> ->]|Hin].
  - apply String.eqb_neq in Hk. rewrite Hk. lia.
  - specialize (IH Hin). destruct (String.eqb k' "_meta"); lia.
Qed.

(** The attributes under a plain object that has contents have contents,
    less tall. *)
Lemma object_view_attrs m env h l ps T key :
  h !! l = Some (Cell SObject ps) -> plain (Cell SObject ps) = true ->
  view (S m) env h (VLoc l) = Some T ->
  In key (map fst ps) -> key ≠ "_meta" ->
  ∃ t, view m env h (default VUndef (alookup key ps)) = Some t ∧
       (theight t < theight T)%nat.
Proof.
  intros Hl Hp Hv Hin Hk. cbn [view] in Hv. unfold view_step in Hv.
  assert (resolve_case_of h (VLoc l) = AsObject) as D.
  { simpl. rewrite Hl. unfold plain in Hp. simpl in Hp.
    by destruct (alookup "ref" ps) as [[]|]. }
  rewrite D, Hl in Hv. cbn [props] in Hv.
  destruct (mapM _ _) as [ats|] eqn:E; [|done]. injection Hv as <-.
  destruct (mapM_In _ _ _ _ E Hin) as ([k t] & Hkt & Hinkt).
  unfold view_attr in Hkt. apply String.eqb_neq in Hk as Hk'. rewrite Hk' in Hkt.
  destruct (view m env h _) as [t'|]; [|done]. injection Hkt as <- <-.
  exists t'. split; [done|]. by eapply theight_attr.
Qed.

Section ViewsStep.
Variable m : nat.
Variable env : jsvalue.
Hypothesis IHm :
  ∀ B v h t,
    well_formed B h -> env_ready B h env -> sound B h v ->
    view m env h v = Some t ->
    ∃ r h', deref m v env h = (Ret r, h') ∧ resolved_to B env h t r h'.

(** The loop of the "list" case over items that have contents. *)
Lemma list_loop_views (B : loc -> Prop) h0 lnew HT :
  B lnew -> h0 !! lnew = None ->
  ∀ items ts hi acc,
    mapM (view m env hi) items = Some ts ->
    Forall (fun t => theight t < HT) ts ->
    Forall (sound B hi) items ->
    well_formed B hi -> env_ready B hi env -> frame h0 hi ->
    hi !! lnew = Some (Cell (SList acc) []) ->
    ∃ h' rs,
      for_each (fun item =>
                  let* r := deref m item env in
                  let* _ := list_add (VLoc lnew) "add" r in
                  ret tt) items hi = (Ret tt, h') ∧
      well_formed B h' ∧ env_ready B h' env ∧ frame h0 h' ∧
      h' !! lnew = Some (Cell (SList (acc ++ rs)) []) ∧
      Forall2 (fun r t => view (theight t) env h' r = Some t) rs ts ∧
      (∀ k u t', sound B hi u -> view k env hi u = Some t' ->
                 view k env h' u = Some t') ∧
      (∀ l' k T', sound B hi (VLoc l') -> view k env hi (VLoc l') = Some T' ->
                  HT <= theight T' -> h' !! l' = hi !! l').
Proof.
  intros HB Hnew. induction items as [|item items IH];
    intros ts hi acc Hts Hlt Hsound Hwf Henv Hf Hacc.
  - injection Hts as <-. exists hi, []. rewrite app_nil_r.
    split; [done|]. do 4 (split; [done|]). split; [constructor|]. by split.
  - cbn in Hts. destruct (view m env hi item) as [t|] eqn:Et; [|done].
    cbn in Hts. destruct (mapM (view m env hi) items) as [ts'|] eqn:Ets; [|done].
    injection Hts as <-. apply Forall_cons in Hlt as [Ht Hlt].
    apply Forall_cons in Hsound as [Hitem Hsound].
    destruct (IHm B item hi t Hwf Henv Hitem Et)
      as (r & hr & Hres & Hwfr & Henvr & Hr & Hfr & Hpres & Hview & Hmod).
    pose proof (frame_length _ _ Hfr) as Hlen.
    assert (hr !! lnew = Some (Cell (SList acc) [])) as Haccr.
    { destruct (Hfr _ _ Hacc) as (c' & Hc' & _ & Hsame & _).
      by rewrite (Hsame eq_refl) in Hc'. }
    set (hi' := <[lnew := Cell (SList (acc ++ [r])) []]> hr).
    assert (agree B hr hi') as Hag by (by apply agree_insert).
    assert (length hi' = length hr) as Hlen' by apply length_insert.
    assert (∀ k u, sound B hr u -> view k env hi' u = view k env hr u) as Hsame.
    { intros k u Hu. apply (view_agree B); try done. by destruct Henvr. }
    assert (sound B hi' r) as Hr' by (eapply sound_mono; [done|lia]).
    destruct (IH ts' hi' (acc ++ [r])) as (h' & rs & Hloop & Hwf' & Henv' & Hf' & Hacc'
                                             & Hrs & Hpres' & Hmod').
    { eapply mapM_mono; [|exact Ets]. intros x y Hin Hx.
      assert (sound B hi x) as Hsx.
      { rewrite Forall_forall in Hsound. apply Hsound. by apply list_elem_of_In. }
      rewrite Hsame; [by apply Hpres|]. by eapply sound_mono. }
    { done. }
    { eapply Forall_impl; [exact Hsound|]. intros x Hx. simpl.
      eapply sound_mono; [done|lia]. }
    { by apply well_formed_add. }
    { eapply env_ready_agree; [done|lia|done]. }
    { apply frame_insert_new; [by eapply frame_trans|done]. }
    { apply list_lookup_insert_eq. by eapply lookup_lt_Some. }
    exists h', (r :: rs). rewrite <- app_assoc in Hacc'.
    split.
    { cbn [for_each bind]. rewrite Hres. rewrite (invoke_add _ _ _ _ _ Haccr).
      cbn [ret]. exact Hloop. }
    split; [done|]. split; [done|]. split; [done|]. split; [done|].
    split.
    { constructor; [|done]. apply Hpres'; [done|]. by rewrite Hsame. }
    split.
    { intros k u t' Hu Hvu. apply Hpres'.
      - eapply sound_mono; [done|lia].
      - rewrite Hsame; [by apply Hpres|]. by eapply sound_mono. }
    intros l' k T' Hl' Hvl' Hge.
    assert (sound B hr (VLoc l')) as Hl'r by (by eapply sound_mono).
    rewrite (Hmod' l' k T'); [| eapply sound_mono; [done|lia] | | done].
    + unfold hi'. rewrite list_lookup_insert_ne.
      * apply (Hmod l' k T'); [done..|lia].
      * intros ->. by destruct Hl'.
    + rewrite Hsame; [by apply Hpres|done].
Qed.

(** The loop of the "object" case over the attributes of an object that
    has contents [T]. *)
Lemma object_loop_views (B : loc -> Prop) l ks T :
  ¬ B l ->
  ∀ todo hi psi,
    incl todo ks ->
    hi !! l = Some (Cell SObject psi) -> plain (Cell SObject psi) = true ->
    map fst psi = ks ->
    view (S m) env hi (VLoc l) = Some T ->
    well_formed B hi -> env_ready B hi env ->
    ∃ h' ps',
      for_each (fun i =>
                  if String.eqb i "_meta" then ret tt
                  else
                    let* v := getp (VLoc l) i in
                    let* r := deref m v env in
                    setp (VLoc l) i r) todo hi = (Ret tt, h') ∧
      well_formed B h' ∧ env_ready B h' env ∧ frame hi h' ∧
      h' !! l = Some (Cell SObject ps') ∧
      (∀ k u t', sound B hi u -> view k env hi u = Some t' ->
                 view k env h' u = Some t') ∧
      (∀ l' k T', sound B hi (VLoc l') -> view k env hi (VLoc l') = Some T' ->
                  l' ≠ l -> theight T <= theight T' -> h' !! l' = hi !! l') ∧
      (∀ key, In key todo -> key ≠ "_meta" ->
              ∃ t, view (theight t) env h' (default VUndef (alookup key ps')) = Some t) ∧
      (∀ key, ¬ In key todo -> alookup key ps' = alookup key psi).
Proof.
  intros HBl. induction todo as [|i todo IH];
    intros hi psi Hincl Hl Hp Hks HT Hwf Henv.
  { exists hi, psi. split; [done|]. do 2 (split; [done|]).
    split; [apply frame_refl|]. split; [done|]. split; [done|]. split; [done|].
    split; [by intros ? []|done]. }
  assert (incl todo ks) as Hincl' by (intros x Hx; apply Hincl; by right).
  assert (In i ks) as Hi by (apply Hincl; by left).
  assert (l < length hi) as Hllt by (by eapply lookup_lt_Some).
  cbn [for_each bind]. destruct (String.eqb i "_meta") eqn:Em.
  { apply String.eqb_eq in Em as ->. cbn [ret].
    destruct (IH hi psi Hincl' Hl Hp Hks HT Hwf Henv)
      as (h' & ps' & Hloop & Hwf' & Henv' & Hf' & Hl' & Hpres & Hmod & Hdone & Hkeep).
    exists h', ps'. split; [done|]. do 6 (split; [done|]). split.
    - intros key [<-|Hin] Hk; [done|]. by apply Hdone.
    - intros key Hnin. apply Hkeep. intros Hin. apply Hnin. by right. }
  apply String.eqb_neq in Em.
  set (u := default VUndef (alookup i psi)).
  assert (read_prop hi (VLoc l) i = Ret u) as Hu
    by (by apply (read_prop_cell hi l (Cell SObject psi) i)).
  destruct (object_view_attrs m env hi l psi T i Hl Hp HT) as (ti & Hti & Hlt);
    [by rewrite Hks|done|].
  fold u in Hti.
  assert (sound B hi u) as Hsu by (by eapply read_sound).
  destruct (IHm B u hi ti Hwf Henv Hsu Hti)
    as (r & hr & Hres & Hwfr & Henvr & Hr & Hfr & Hpres & Hview & Hmod).
  pose proof (frame_length _ _ Hfr) as Hlen.
  assert (sound B hi (VLoc l)) as Hsl by done.
  assert (hr !! l = Some (Cell SObject psi)) as Hlr.
  { rewrite (Hmod l (S m) T); done. }
  assert (i = "ref" -> r = VUndef) as Href.
  { intros ->. unfold u in Hres. unfold plain in Hp. simpl in Hp.
    destruct (alookup "ref" psi) as [[]|]; try done; by eapply resolve_undefined. }
  set (hw := write hr l i r).
  assert (hw !! l = Some (Cell SObject (aupdate i r psi))) as Hlw
    by (by apply (write_lookup_eq hr l i r (Cell SObject psi))).
  assert (length hw = length hr) as Hlenw by apply write_length.
  assert (read_prop hw env "ctx" = read_prop hr env "ctx") as Hctxw.
  { destruct (decide (env = VLoc l ∧ i = "ctx")) as [[Henvl Hictx]|Hne].
    - destruct Henv as (_ & c & Hc & Hcase & _).
      rewrite Henvl, <- Hictx in Hc |- *. rewrite Hu in Hc. injection Hc as Huc.
      rewrite <- Huc in Hcase.
      apply resolve_object_result in Hres; [|done]. subst r.
      unfold hw. rewrite (write_read_eq _ _ _ _ _ Hlr).
      symmetry. by apply (read_prop_cell hr l (Cell SObject psi) i).
    - apply write_read_other. destruct (decide (env = VLoc l)) as [->|]; [right|by left].
      intros Heq. by apply Hne. }
  assert (∀ k w t, view k env hr w = Some t -> view k env hw w = Some t) as Hwrite.
  { apply (view_write env hr l i r (Cell SObject psi));
      [done|done|by cbn [props]; rewrite Hks|done|done|done|].
    cbn [props]. fold u. intros k t Hk.
    pose proof (Hpres _ _ _ Hsu Hti) as Hti'.
    pose proof (view_unique _ _ _ _ _ _ _ Hk Hti') as ->.
    eapply view_mono; [|exact Hview]. by eapply view_height. }
  assert (well_formed B hw) as Hwfw by (by apply well_formed_write).
  assert (env_ready B hw env) as Henvw.
  { destruct Henvr as (Hse & c & Hc & Hcase & Hnb). split; [eapply sound_mono; [done|lia]|].
    exists c. rewrite Hctxw. split; [done|]. split; [|done].
    unfold hw. by rewrite (write_case _ _ _ _ (Cell SObject psi)). }
  destruct (IH hw (aupdate i r psi)) as (h' & ps' & Hloop & Hwf' & Henv' & Hf' & Hl'
                                          & Hpres' & Hmod' & Hdone & Hkeep); try done.
  { by apply plain_aupdate. }
  { rewrite aupdate_keys; [done|by rewrite Hks]. }
  { apply Hwrite. by apply Hpres. }
  exists h', ps'. split.
  { cbn [bind getp]. rewrite Hu, Hres. unfold hw in Hloop. by rewrite setp_write. }
  split; [done|]. split; [done|]. split.
  { eapply frame_trans; [|exact Hf']. apply frame_write; [done|].
    intros c Hc. assert (c = Cell SObject psi) as -> by congruence.
    split; [done|]. split; [by cbn [props]; rewrite Hks|done]. }
  split; [done|]. split.
  { intros k w t' Hw Hvw. apply Hpres'; [eapply sound_mono; [done|lia]|].
    apply Hwrite. by apply Hpres. }
  split.
  { intros l' k T' Hsl' Hvl' Hne Hge.
    rewrite (Hmod' l' k T'); [|eapply sound_mono; [done|lia]| |done..].
    - unfold hw. rewrite write_lookup_ne by done. apply (Hmod l' k T'); [done..|lia].
    - apply Hwrite. by apply Hpres. }
  split.
  - intros key [<-|Hin] Hk.
    + destruct (In_dec String.string_dec i todo) as [Hin|Hnin]; [by apply Hdone|].
      rewrite (Hkeep _ Hnin), alookup_aupdate_eq. simpl. exists ti.
      apply Hpres'; [eapply sound_mono; [done|lia]|]. by apply Hwrite.
    + by apply Hdone.
  - intros key Hnin. rewrite Hkeep by (intros Hin; apply Hnin; by right).
    apply alookup_aupdate_ne. intros ->. apply Hnin. by left.
Qed.

End ViewsStep.

Lemma views_at_max env h rs ts :
  Forall2 (fun r t => view (theight t) env h r = Some t) rs ts ->
  mapM (view (foldr (fun t a => Nat.max (theight t) a) 0 ts) env h) rs = Some ts.
Proof.
  intros H. apply mapM_Some.
  induction H as [|r t rs ts Hrt _ IH]; [constructor|]. simpl. constructor.
  - eapply view_mono; [|exact Hrt]. lia.
  - eapply Forall2_impl; [exact IH|]. intros r' t' Hr'. simpl in Hr'.
    eapply view_mono; [|exact Hr']. lia.
Qed.

Lemma attrs_at_max env h ps ks ats :
  Forall2 (fun k kt => kt.1 = k ∧
             if String.eqb k "_meta" then kt.2 = TLeaf (default VUndef (alookup k ps))
             else view (theight kt.2) env h (default VUndef (alookup k ps)) = Some kt.2)
    ks ats ->
  mapM (view_attr
          (view (foldr (fun kt a => if String.eqb kt.1 "_meta" then a
                                    else Nat.max (theight kt.2) a) 0 ats) env h) ps)
    ks = Some ats.
Proof.
  intros H. apply mapM_Some.
  induction H as [|k [k' t] ks ats [Hk Hkt] _ IH]; [constructor|].
  simpl in Hk, Hkt. subst k'. simpl. constructor.
  - unfold view_attr. destruct (String.eqb k "_meta"); [by rewrite Hkt|].
    erewrite view_mono; [done| |exact Hkt]. lia.
  - eapply Forall2_impl; [exact IH|]. intros k' kt'. simpl.
    apply view_attr_mono. intros v t'. apply view_mono.
    destruct (String.eqb k "_meta"); lia.
Qed.

Lemma attrs_minimal env h m ps ks ats :
  Forall2 (fun k kt => view_attr (view m env h) ps k = Some kt) ks ats ->
  (∀ k, In k ks -> k ≠ "_meta" ->
        ∃ t, view (theight t) env h (default VUndef (alookup k ps)) = Some t) ->
  Forall2 (fun k kt => kt.1 = k ∧
             if String.eqb k "_meta" then kt.2 = TLeaf (default VUndef (alookup k ps))
             else view (theight kt.2) env h (default VUndef (alookup k ps)) = Some kt.2)
    ks ats.
Proof.
  induction 1 as [|k kt ks ats Hk _ IH]; intros Hdone; [constructor|].
  constructor.
  - unfold view_attr in Hk. destruct (String.eqb k "_meta") eqn:Em.
    { by injection Hk as <-. }
    destruct (view m env h _) as [tk|] eqn:Etk; [|done].
    injection Hk as <-. simpl. split; [done|].
    destruct (Hdone k) as (t' & Ht'); [by left|by apply String.eqb_neq|].
    by rewrite (view_unique _ _ _ _ _ _ _ Etk Ht').
  - apply IH. intros k' Hk'. apply Hdone. by right.
Qed.

(** [resolve] on a sound value that has contents: it returns, with the
    very fuel the walk of the contents needs. *)
Lemma resolve_views m env :
  ∀ B v h t,
    well_formed B h -> env_ready B h env -> sound B h v ->
    view m env h v = Some t ->
    ∃ r h', deref m v env h = (Ret r, h') ∧ resolved_to B env h t r h'.
Proof.
  induction m as [|m IH]; intros B v h t Hwf Henv Hv Hview; [done|].
  pose proof Hview as Hview0.
  cbn [view] in Hview. unfold view_step in Hview.
  cbn [resolve bind resolve_dispatch].
  destruct (resolve_case_of h v) eqn:D.
  - (* a list *)
    apply resolve_case_list in D as (l & its & ps & -> & Hl). rewrite Hl in Hview.
    destruct (mapM (view m env h) its) as [ts|] eqn:Ets; [|done].
    injection Hview as <-.
    set (B' := fun l' => B l' ∨ l' = length h).
    set (ha := h ++ [Cell (SList []) []]).
    assert (Forall (sound B h) its) as Hits.
    { apply Forall_forall. intros x Hx. eapply items_sound; [done..|].
      by apply list_elem_of_In. }
    destruct (list_loop_views m env IH B' h (length h) (theight (TList ts)))
      with (items := its) (ts := ts) (hi := ha) (acc := @nil jsvalue)
      as (h' & rs & Hloop & Hwf' & Henv' & Hf' & Hnew' & Hrs & Hpres & Hmod).
    { by right. }
    { by apply lookup_ge_None. }
    { eapply mapM_mono; [|exact Ets]. intros x y Hin Hx.
      rewrite (view_agree B env h ha); [done|done|apply agree_alloc|by destruct Henv|].
      rewrite Forall_forall in Hits. apply Hits. by apply list_elem_of_In. }
    { apply Forall_forall. intros x Hx. apply theight_item. by apply list_elem_of_In. }
    { eapply Forall_impl; [exact Hits|]. intros x Hx. by apply sound_extend. }
    { by apply well_formed_alloc_list. }
    { by apply env_ready_extend. }
    { apply frame_alloc. }
    { apply lookup_snoc_new. }
    exists (VLoc (length h)), h'. split.
    { unfold resolve_list. cbn [bind list_items alloc]. rewrite Hl. fold ha.
      by rewrite Hloop. }
    assert (∀ l', B l' -> B' l') as HBB' by (intros; by left).
    split; [by eapply well_formed_weaken|]. split; [by eapply env_ready_weaken|].
    split.
    { split; [by eapply lookup_lt_Some|]. intros Hb. destruct Hwf as [Hb' _].
      specialize (Hb' _ Hb). lia. }
    split; [done|]. split.
    { intros k u t' Hu Hvu. apply Hpres; [by apply sound_extend|].
      rewrite (view_agree B env h ha); [done|done|apply agree_alloc|by destruct Henv|done]. }
    split.
    { cbn [theight view]. unfold view_step. simpl resolve_case_of. rewrite Hnew'.
      simpl. by rewrite (views_at_max _ _ _ _ Hrs). }
    intros l' k T' Hl' Hvl' Hlt.
    rewrite (Hmod l' k T'); [|by apply sound_extend| |lia].
    + apply lookup_app_l. by destruct Hl'.
    + rewrite (view_agree B env h ha); [done|done|apply agree_alloc|by destruct Henv|done].
  - (* a plain object *)
    apply resolve_case_object in D as (l & [sh ps] & -> & Hl & Hp).
    assert (sh = SObject) as -> by (unfold plain in Hp; by destruct sh).
    destruct (object_loop_views m env IH B l (map fst ps) t)
      with (todo := map fst ps) (hi := h) (psi := ps)
      as (h' & ps' & Hloop & Hwf' & Henv' & Hf' & Hl' & Hpres & Hmod & Hdone & _);
      [by destruct Hv|apply incl_refl|done..|].
    exists (VLoc l), h'. split.
    { unfold resolve_object. cbn [bind own_keys]. rewrite Hl. cbn [props].
      by rewrite Hloop. }
    pose proof (frame_length _ _ Hf') as Hlen.
    split; [done|]. split; [done|]. split; [eapply sound_mono; [done|lia]|].
    split; [done|]. split; [done|]. split.
    + pose proof (Hpres _ _ _ Hv Hview0) as Hview'.
      cbn [view] in Hview'. unfold view_step in Hview'.
      destruct (Hf' _ _ Hl) as (c' & Hc' & _ & _ & Hplain).
      destruct (Hplain Hp) as (Hp' & Hkeys & _).
      rewrite Hl' in Hc'. injection Hc' as <-. cbn [props] in Hkeys.
      assert (resolve_case_of h' (VLoc l) = AsObject) as D'.
      { simpl. rewrite Hl'. unfold plain in Hp'. simpl in Hp'.
        by destruct (alookup "ref" ps') as [[]|]. }
      rewrite D', Hl' in Hview'. cbn [props] in Hview'.
      destruct (mapM _ _) as [ats|] eqn:Eats; [|done]. injection Hview' as <-.
      cbn [theight view]. unfold view_step. rewrite D', Hl'. cbn [props].
      rewrite attrs_at_max; [done|].
      apply mapM_Some in Eats. apply (attrs_minimal _ _ m); [done|].
      intros k Hk. apply Hdone. by rewrite <- Hkeys.
    + intros l' k T' Hl'' Hvl' Hlt. apply (Hmod l' k T'); [done..| |lia].
      intros ->. rewrite (view_unique _ _ _ _ _ _ _ Hvl' Hview0) in Hlt. lia.
  - (* a reference wrapper *)
    destruct (read_prop h env "ctx") as [ctx| |] eqn:Ec; [|done..].
    destruct (read_prop h v "ref") as [r0| |] eqn:Er; [|done..].
    destruct (read_prop h ctx (to_str h r0)) as [b| |] eqn:Eb; [|done..].
    assert (sound B h b) as Hb by (by eapply read_sound).
    destruct (IH B b h t Hwf Henv Hb Hview) as (r & h' & Hres & Hpost).
    exists r, h'. split; [|done].
    cbn [resolve_ref bind getp to_key]. by rewrite Ec, Er, Eb.
  - (* anything else *)
    injection Hview as <-. exists v, h. split; [done|].
    split; [done|]. split; [done|]. split; [done|]. split; [apply frame_refl|].
    split; [done|]. split; [|done].
    cbn [theight view]. unfold view_step. by rewrite D.
Qed.

Lemma closed_well_formed h : closed h = true -> well_formed (fun _ => False) h.
Proof.
  intros Hc. split; [done|]. intros l c v Hl Hin.
  unfold closed in Hc. rewrite forallb_forall in Hc.
  specialize (Hc c). rewrite forallb_forall in Hc.
  assert (In c h) as Hch by (apply list_elem_of_In; by eapply list_elem_of_lookup_2).
  specialize (Hc Hch v Hin). destruct v; simpl; try done.
  split; [by apply Nat.ltb_lt|tauto].
Qed.

(** C8: [resolve] never writes into the list it is given, however it ends.
    On an Isla list that it can walk to the end (a closed heap, in which
    following the references under the list gives a finite tree [t]; there
    is no cycle detection), [resolve] returns; what it returns is a cell that
    did not exist before, an Isla list holding, item for item and in order,
    what [resolve] returned for the items.  Resolving the list once more
    returns yet another cell and touches neither the list nor the first
    copy, and the two copies have the same contents, those of the list: the
    tree [t]. *)
Theorem resolve_list_is_copy :
  ∀ n e c h l its ps t,
    h !! l = Some (Cell (SList its) ps) ->
    (∀ k env o h', deref k (VLoc l) env h = (o, h') ->
                   h' !! l = Some (Cell (SList its) ps)) ∧
    (closed h = true ->
     is_Some (h !! e) ->
     read_prop h (VLoc e) "ctx" = Ret (VLoc c) ->
     resolve_case_of h (VLoc c) = AsObject ->
     view (S n) (VLoc e) h (VLoc l) = Some t ->
     ∃ h1 rs1,
       deref (S n) (VLoc l) (VLoc e) h = (Ret (VLoc (length h)), h1) ∧
       h !! length h = None ∧
       h1 !! length h = Some (Cell (SList rs1) []) ∧
       Forall2 (resolved_form n (VLoc e) h) its rs1 ∧
       h1 !! l = Some (Cell (SList its) ps) ∧
       view (theight t) (VLoc e) h1 (VLoc (length h)) = Some t ∧
       ∃ h2 rs2,
         deref (S n) (VLoc l) (VLoc e) h1 = (Ret (VLoc (length h1)), h2) ∧
         length h1 ≠ length h ∧ length h1 ≠ l ∧
         h2 !! l = Some (Cell (SList its) ps) ∧
         h2 !! length h = Some (Cell (SList rs1) []) ∧
         h2 !! length h1 = Some (Cell (SList rs2) []) ∧
         Forall2 (resolved_form n (VLoc e) h1) its rs2 ∧
         view (theight t) (VLoc e) h2 (VLoc (length h)) = Some t ∧
         view (theight t) (VLoc e) h2 (VLoc (length h1)) = Some t).
Proof.
  intros n e c h l its ps t Hl. split.
  { intros k env o h' Hres. destruct (resolve_frame _ _ _ _ _ _ Hres _ _ Hl)
      as (c' & Hc' & _ & Hsame & _). by rewrite (Hsame eq_refl) in Hc'. }
  intros Hclosed [ce He] Hctx Hc Hview.
  set (B := fun _ : loc => False).
  assert (well_formed B h) as Hwf by (by apply closed_well_formed).
  assert (env_ready B h (VLoc e)) as Henv.
  { split; [split; [by eapply lookup_lt_Some|tauto]|]. exists c.
    split; [done|]. split; [done|]. tauto. }
  assert (sound B h (VLoc l)) as Hsl by (split; [by eapply lookup_lt_Some|tauto]).
  destruct (resolve_views (S n) (VLoc e) B (VLoc l) h t Hwf Henv Hsl Hview)
    as (r1 & h1 & Hres1 & Hwf1 & Henv1 & Hr1 & Hf1 & Hpres1 & Hview1 & _).
  destruct (resolve_list_copy _ _ _ _ _ _ _ _ Hl Hres1)
    as (-> & _ & Hl1 & rs1 & Hrs1 & Hall1).
  pose proof (frame_length _ _ Hf1) as Hlen1.
  assert (sound B h1 (VLoc l)) as Hsl1 by (eapply sound_mono; [done|lia]).
  pose proof (Hpres1 _ _ _ Hsl Hview) as Hviewl1.
  destruct (resolve_views (S n) (VLoc e) B (VLoc l) h1 t Hwf1 Henv1 Hsl1 Hviewl1)
    as (r2 & h2 & Hres2 & Hwf2 & Henv2 & Hr2 & Hf2 & Hpres2 & Hview2 & _).
  destruct (resolve_list_copy _ _ _ _ _ _ _ _ Hl1 Hres2)
    as (-> & _ & Hl2 & rs2 & Hrs2 & Hall2).
  pose proof (lookup_lt_Some _ _ _ Hrs1) as Hlt1.
  pose proof (lookup_lt_Some _ _ _ Hl1) as Hlt2.
  exists h1, rs1. split; [done|]. split; [by apply lookup_ge_None|].
  do 4 (split; [done|]).
  exists h2, rs2. split; [done|]. split; [lia|]. split; [lia|]. split; [done|].
  split.
  { destruct (Hf2 _ _ Hrs1) as (c' & Hc' & _ & Hsame & _).
    by rewrite (Hsame eq_refl) in Hc'. }
  split; [done|]. split; [done|]. split; [|done].
  by apply Hpres2.
Qed.

(** ** What else [resolve] does and does not do *)

(** X1: whatever [resolve] is given and however it ends (a value, an
    error, no end), it removes no cell; every list, array, function and
    reference wrapper is as it was; a plain object is still a plain object
    with the same attribute names, in the same order, and the same [_meta]. *)
Theorem resolve_leaves_alone :
  ∀ n v env h o h',
    deref n v env h = (o, h') ->
    (length h <= length h')%nat ∧
    (∀ l c, h !! l = Some c -> plain c = false -> h' !! l = Some c) ∧
    (∀ l c, h !! l = Some c -> plain c = true ->
            ∃ c', h' !! l = Some c' ∧ plain c' = true ∧
                  map fst (props c') = map fst (props c) ∧
                  alookup "_meta" (props c') = alookup "_meta" (props c)).
Proof.
  intros n v env h o h' Hres.
  pose proof (resolve_frame _ _ _ _ _ _ Hres) as Hf.
  split; [by apply frame_length|]. split.
  - intros l c Hl Hp. destruct (Hf _ _ Hl) as (c' & Hc' & _ & Hsame & _).
    by rewrite (Hsame Hp) in Hc'.
  - intros l c Hl Hp. destruct (Hf _ _ Hl) as (c' & Hc' & _ & _ & Hplain).
    exists c'. split; [done|]. by apply Hplain.
Qed.

Lemma follow_step n v env h b :
  follow h env v = Some b -> deref (S n) v env h = deref n b env h.
Proof.
  unfold follow. destruct (reference_of h v) as [r|] eqn:Hr; [|done].
  destruct (read_prop h env "ctx") as [ctx| |] eqn:Hctx; [|done..].
  destruct (read_prop h ctx (to_str h r)) as [b'| |] eqn:Hb; [|done..].
  intros [= <-]. rewrite (resolve_reference _ _ _ _ _ _ Hr Hctx).
  cbn [bind getp]. by rewrite Hb.
Qed.

Lemma follow_n_run k :
  ∀ n v env h b,
    follow_n k h env v = Some b -> deref (k + n) v env h = deref n b env h.
Proof.
  induction k as [|k IH]; intros n v env h b; cbn [follow_n Nat.add].
  - by intros [= <-].
  - destruct (follow h env v) as [b1|] eqn:E; [|done]. intros Hk.
    rewrite (follow_step _ _ _ _ _ E). by apply IH.
Qed.

Lemma follow_n_short n :
  ∀ k v env h b,
    follow_n k h env v = Some b -> (n <= k)%nat -> deref n v env h = (OutOfFuel, h).
Proof.
  induction n as [|n IH]; intros k v env h b Hk Hle; [done|].
  destruct k as [|k]; [lia|]. cbn [follow_n] in Hk.
  destruct (follow h env v) as [b1|] eqn:E; [|done].
  rewrite (follow_step _ _ _ _ _ E). apply (IH k _ _ _ b); [done|lia].
Qed.


(** X3: [resolve] has no cycle detection.  When following the references
    from [v] leads back to [v] (as after [x is x], or [x is y; y is x]),
    [resolve] on [v] has no result: every amount of fuel runs out, the
    recursion of the source never returns.  Nothing is written on the way. *)
Theorem reference_cycle_never_resolves :
  ∀ k v env h,
    follow_n (S k) h env v = Some v ->
    ∀ n, deref n v env h = (OutOfFuel, h).
Proof.
  intros k v env h Hcycle n. induction (lt_wf n) as [n _ IH].
  destruct (decide (n <= S k)%nat) as [Hle|Hgt].
  - by apply (follow_n_short n (S k) _ _ _ v).
  - replace n with (S k + (n - S k)) by lia.
    rewrite (follow_n_run _ _ _ _ _ _ Hcycle). apply IH. lia.
Qed.

(** X4: the Sequencer composes: running [xs ++ ys] is running [xs] and then
    [ys] from the environment and the heap [xs] left, and an error or a
    missing result in [xs] is the outcome of the whole. *)
Theorem runSequence_app :
  ∀ fuel xs ys env h,
    runSequence library_fn library_list_op getInitialEnv fuel (xs ++ ys) env h
    = (let* env' := runSequence library_fn library_list_op getInitialEnv fuel xs env in
       runSequence library_fn library_list_op getInitialEnv fuel ys env') h.
Proof.
  intros fuel xs. induction xs as [|x xs IH]; intros ys env h; [done|].
  unfold runSequence in *. cbn [app runSequence_with bind].
  destruct (rmRet env h) as [[env1| |] h1]; [|done..].
  destruct (interpretAst _ _ _ fuel (Some x) env1 h1) as [[env2| |] h2]; [|done..].
  apply IH.
Qed.

(** X5: a statement that throws ends the sequence.  The error is the one
    the statement threw, the heap is the heap at the throw (what the earlier
    statements wrote stays written; nothing is rolled back), and none of the
    statements after it runs. *)
Theorem runSequence_abort :
  ∀ fuel xs s ys env h env1 h1 e h2,
    run_sequence fuel xs env h = (Ret env1, h1) ->
    (let* env := rmRet env1 in interpret fuel (Some s) env) h1 = (Raise e, h2) ->
    run_sequence fuel (xs ++ s :: ys) env h = (Raise e, h2).
Proof.
  intros fuel xs. induction xs as [|x xs IH];
    intros s ys env h env1 h1 e h2 Hxs Hs.
  - injection Hxs as <- <-. unfold runSequence. cbn [app runSequence_with].
    cbn [bind] in Hs |- *.
    destruct (rmRet env h) as [[env'| |] h']; [|done..].
    by destruct (interpretAst _ _ _ fuel (Some s) env' h') as [[]]; try done.
  - unfold runSequence in *. cbn [app runSequence_with bind] in Hxs |- *.
    destruct (rmRet env h) as [[env'| |] h']; [|done..].
    destruct (interpretAst _ _ _ fuel (Some x) env' h') as [[env''| |] h'']; [|done..].
    by eapply IH.
Qed.

Lemma plain_case h l c :
  h !! l = Some c -> plain c = true -> resolve_case_of h (VLoc l) = AsObject.
Proof.
  intros Hl Hp. simpl. rewrite Hl. destruct c as [[] ps]; try done.
  unfold plain in Hp. simpl in Hp. by destruct (alookup "ref" ps) as [[]|].
Qed.

(** A value whose contents are read in as many steps as they are deep is
    not a reference: following one would take a step more. *)
Lemma tight_view_not_reference env h v t :
  view (theight t) env h v = Some t -> resolve_case_of h v ≠ AsRef.
Proof.
  intros Hv D. destruct (theight t) as [|m] eqn:Eh; [done|].
  cbn [view] in Hv. unfold view_step in Hv. rewrite D in Hv.
  destruct (read_prop h env "ctx") as [ctx| |]; [|done..].
  destruct (read_prop h v "ref") as [r| |]; [|done..].
  destruct (read_prop h ctx (to_str h r)) as [b| |]; [|done..].
  apply view_height in Hv. lia.
Qed.

Lemma alookup_key k ps v : alookup k ps = Some v -> In k (map fst ps).
Proof.
  induction ps as [|[k' v'] ps IH]; simpl; [done|].
  destruct (String.eqb k k') eqn:E; [|auto].
  apply String.eqb_eq in E as ->. by left.
Qed.

(** X6: on a plain object that it can walk to the end, [resolve] returns
    the object itself, rewritten in place: the same cell, the same attribute
    names and [_meta], the same contents [t]; but no attribute holds a
    reference wrapper any more, each holds what [resolve] made of it.  A
    second [resolve] returns the same object again, with the same contents. *)
Theorem resolve_object_in_place :
  ∀ n e c h l ps t,
    closed h = true ->
    is_Some (h !! e) ->
    read_prop h (VLoc e) "ctx" = Ret (VLoc c) ->
    resolve_case_of h (VLoc c) = AsObject ->
    h !! l = Some (Cell SObject ps) ->
    plain (Cell SObject ps) = true ->
    view (S n) (VLoc e) h (VLoc l) = Some t ->
    ∃ h1 ps1,
      deref (S n) (VLoc l) (VLoc e) h = (Ret (VLoc l), h1) ∧
      h1 !! l = Some (Cell SObject ps1) ∧
      map fst ps1 = map fst ps ∧
      alookup "_meta" ps1 = alookup "_meta" ps ∧
      (∀ k v, alookup k ps1 = Some v -> k ≠ "_meta" ->
              resolve_case_of h1 v ≠ AsRef) ∧
      view (theight t) (VLoc e) h1 (VLoc l) = Some t ∧
      ∃ h2,
        deref (S n) (VLoc l) (VLoc e) h1 = (Ret (VLoc l), h2) ∧
        view (theight t) (VLoc e) h2 (VLoc l) = Some t.
Proof.
  intros n e c h l ps t Hclosed [ce He] Hctx Hc Hl Hp Hview.
  set (B := fun _ : loc => False).
  assert (well_formed B h) as Hwf by (by apply closed_well_formed).
  assert (env_ready B h (VLoc e)) as Henv.
  { split; [split; [by eapply lookup_lt_Some|tauto]|]. exists c.
    split; [done|]. split; [done|]. tauto. }
  assert (sound B h (VLoc l)) as Hsl by (split; [by eapply lookup_lt_Some|tauto]).
  pose proof (plain_case _ _ _ Hl Hp) as D.
  destruct (resolve_views (S n) (VLoc e) B (VLoc l) h t Hwf Henv Hsl Hview)
    as (r1 & h1 & Hres1 & Hwf1 & Henv1 & Hr1 & Hf1 & Hpres1 & Hview1 & _).
  pose proof (resolve_object_result _ _ _ _ _ _ D Hres1) as ->.
  destruct (object_loop_views n (VLoc e) (resolve_views n (VLoc e)) B l (map fst ps) t)
    with (todo := map fst ps) (hi := h) (psi := ps)
    as (h' & ps1 & Hloop & _ & _ & _ & Hl1 & _ & _ & Hdone & _);
    [tauto|apply incl_refl|done..|].
  assert (h' = h1) as ->.
  { revert Hres1. cbn [resolve bind resolve_dispatch]. rewrite D.
    unfold resolve_object. cbn [bind own_keys]. rewrite Hl. cbn [props].
    rewrite Hloop. by intros [= <-]. }
  destruct (Hf1 _ _ Hl) as (c1 & Hc1 & _ & _ & Hplain).
  rewrite Hl1 in Hc1. injection Hc1 as <-.
  destruct (Hplain Hp) as (Hp1 & Hkeys & Hmeta). cbn [props] in Hkeys, Hmeta.
  pose proof (frame_length _ _ Hf1) as Hlen1.
  assert (sound B h1 (VLoc l)) as Hsl1 by (eapply sound_mono; [done|lia]).
  pose proof (Hpres1 _ _ _ Hsl Hview) as Hviewl1.
  destruct (resolve_views (S n) (VLoc e) B (VLoc l) h1 t Hwf1 Henv1 Hsl1 Hviewl1)
    as (r2 & h2 & Hres2 & _ & _ & _ & _ & _ & Hview2 & _).
  pose proof (resolve_object_result _ _ _ _ _ _ (plain_case _ _ _ Hl1 Hp1) Hres2) as ->.
  exists h1, ps1. do 4 (split; [done|]). split.
  { intros k v Hk Hne.
    destruct (Hdone k) as (tk & Htk); [rewrite <- Hkeys; by eapply alookup_key|done|].
    rewrite Hk in Htk. by eapply tight_view_not_reference. }
  split; [done|]. by exists h2.
Qed.

Lemma resolve_reference_case n v env h r :
  reference_of h v = Some r ->
  deref (S n) v env h = resolve_ref (deref n) v env h ∧
  read_prop h v "ref" = Ret r.
Proof.
  intros Hv. destruct v as [| | | |w]; try done. simpl in Hv.
  cbn [resolve bind resolve_dispatch]. unfold resolve_case_of, read_prop.
  destruct (h !! w) as [[[] ps]|] eqn:E; try done. simpl.
  destruct (alookup "ref" ps) as [r'|] eqn:Er; [|done].
  by destruct r'; try done; injection Hv as <-.
Qed.

(** X7: [resolve] needs the environment only to follow a reference, and
    then it needs its context: on a reference wrapper, with no environment
    or with one that has no [ctx], it raises the host's TypeError and writes
    nothing. *)
Theorem resolve_reference_needs_context :
  ∀ n v env h r,
    reference_of h v = Some r ->
    env = VUndef ∨ env = VNull ∨
    read_prop h env "ctx" = Ret VUndef ∨ read_prop h env "ctx" = Ret VNull ->
    deref (S n) v env h = (Raise TypeError, h).
Proof.
  intros n v env h r Hv Henv.
  destruct (resolve_reference_case n v env h r Hv) as [-> Hr].
  cbn [resolve_ref bind getp to_key].
  destruct Henv as [->| [->| [->| ->]]]; try done; by rewrite Hr.
Qed.

(** ** Assignments at the edges *)

(** A write and later allocations leave every other cell, and every other
    attribute of the cell written, as they were. *)
Lemma write_frame h l k v hx :
  is_Some (h !! l) ->
  (∀ l' cl, l' ≠ l -> h !! l' = Some cl -> (write h l k v ++ hx) !! l' = Some cl) ∧
  (∀ k', k' ≠ k -> read_prop (write h l k v ++ hx) (VLoc l) k' = read_prop h (VLoc l) k') ∧
  (∀ cl, h !! l = Some cl ->
         ∃ cl', (write h l k v ++ hx) !! l = Some cl' ∧ shape_of cl' = shape_of cl).
Proof.
  intros [c Hc]. pose proof (write_lookup_eq _ _ k v _ Hc) as Hw. split; [|split].
  - intros l' cl Hne Hl'. apply lookup_app_l_Some. by rewrite write_lookup_ne.
  - intros k' Hk'. unfold read_prop.
    rewrite (lookup_app_l_Some _ _ _ _ Hw), Hc. simpl.
    by rewrite alookup_aupdate_ne.
  - intros cl Hcl. assert (cl = c) as -> by congruence.
    eexists. split; [by apply lookup_app_l_Some|done].
Qed.

(** X8: a value assignment writes one slot.  Once its right-hand side is
    evaluated it changes the attribute it assigns, in the context for a
    scalar target and in the object bound to [o] for [o a], and nothing
    else: every other cell and every other attribute of that cell is as it
    was, the cell keeps its shape, and at most a reference wrapper and the
    new environment are allocated. *)
Theorem value_assignment_writes_one_slot :
  ∀ fuel t kw rhs env h valueNode h1 r v c l,
    interpret fuel (Some rhs) env h = (Ret valueNode, h1) ->
    read_prop h1 valueNode "ref" = Ret r ->
    read_prop h1 valueNode "val" = Ret v ->
    read_prop h1 env "ctx" = Ret (VLoc c) ->
    target_cell h1 c t = Some l ->
    ∃ e h2,
      interpret (S fuel) (Some (value_assignment t kw rhs)) env h
        = (Ret (VLoc e), h2) ∧
      (∀ l' cl, l' ≠ l -> h1 !! l' = Some cl -> h2 !! l' = Some cl) ∧
      (∀ k, k ≠ slot t -> read_prop h2 (VLoc l) k = read_prop h1 (VLoc l) k) ∧
      (∀ cl, h1 !! l = Some cl ->
             ∃ cl', h2 !! l = Some cl' ∧ shape_of cl' = shape_of cl) ∧
      (length h2 <= length h1 + 2)%nat.
Proof.
  intros fuel t kw rhs env h valueNode h1 r v c l Hrhs Hr Hv Hctx Ht.
  rewrite (value_assignment_run _ _ _ _ _ _ _ _ _ _ _ _ Hrhs Hr Hv Hctx Ht).
  pose proof (target_cell_allocated _ _ _ _ Ht) as Hl.
  destruct (is_undefined r).
  - eexists _, _. split; [reflexivity|].
    destruct (write_frame h1 l (slot t) v
                [Cell SObject [("ctx", VLoc c); ("ret", VNull)]] Hl) as (H1 & H2 & H3).
    do 3 (split; [done|]). rewrite length_app, write_length. simpl. lia.
  - eexists _, _. split; [reflexivity|].
    set (hw := h1 ++ [Cell SObject [("ref", r)]]).
    assert (is_Some (hw !! l)) as Hlw.
    { destruct Hl as [cl Hcl]. exists cl. by apply lookup_snoc_old. }
    destruct (write_frame hw l (slot t) (VLoc (length h1))
                [Cell SObject [("ctx", VLoc c); ("ret", VNull)]] Hlw) as (H1 & H2 & H3).
    split; [|split; [|split]].
    + intros l' cl Hne Hl'. apply H1; [done|]. by apply lookup_snoc_old.
    + intros k Hk. rewrite H2 by done. destruct Hl as [cl Hcl].
      unfold read_prop, hw. by rewrite (lookup_snoc_old _ _ _ _ Hcl), Hcl.
    + intros cl Hcl. apply H3. by apply lookup_snoc_old.
    + rewrite length_app, write_length. unfold hw. rewrite length_app. simpl. lia.
Qed.

(** The "object" method of [assign] on a well-formed assignee. *)
Lemma assign_attribute h c o a v ov :
  read_prop h (VLoc c) o = Ret ov ->
  assign (VLoc c) (Some (assignee (Attribute o a))) v h
  = (let* _ := setp ov a v in ret (VLoc c)) h.
Proof. intros Ho. cbn -[setp read_prop]. by rewrite Ho. Qed.

(** The value assignment to [o a], up to the write. *)
Lemma attribute_assignment_run fuel o a kw rhs env h valueNode h1 r v c ov :
  interpret fuel (Some rhs) env h = (Ret valueNode, h1) ->
  read_prop h1 valueNode "ref" = Ret r ->
  read_prop h1 valueNode "val" = Ret v ->
  read_prop h1 env "ctx" = Ret (VLoc c) ->
  is_Some (h1 !! c) ->
  read_prop h1 (VLoc c) o = Ret ov ->
  interpret (S fuel) (Some (value_assignment (Attribute o a) kw rhs)) env h
  = let hw := if is_undefined r then h1 else h1 ++ [Cell SObject [("ref", r)]] in
    let stored := if is_undefined r then v else VLoc (length h1) in
    (let* _ := setp ov a stored in nreturn (VLoc c) VUndef) hw.
Proof.
  intros Hrhs Hr Hv Hctx [cc Hc] Ho.
  cbn -[assign setp]. rewrite Hrhs. cbn -[assign setp]. rewrite Hr.
  rewrite (value_or_reference _ _ _ _ Hr Hv).
  destruct (is_undefined r); cbv zeta.
  - rewrite Hctx, (assign_attribute _ _ _ _ _ _ Ho). cbn -[setp].
    by destruct (setp ov a v h1) as [[[]| |] ?].
  - rewrite (read_prop_app _ _ _ _ _ Hctx) by done.
    rewrite (assign_attribute _ _ _ _ _ ov).
    + cbn -[setp]. by destruct (setp ov a _ _) as [[[]| |] ?].
    + unfold read_prop in Ho |- *. by rewrite (lookup_snoc_old _ _ _ _ Hc), <- Ho, Hc.
Qed.


(** X10: a value assignment to [o a] when [o] is bound to a number or a
    string neither fails nor stores anything: the write to the attribute of
    a primitive is dropped by the host, the statement returns its
    [{ctx, ret: null}] as if it had worked, and every cell is as the
    evaluation of the right-hand side left it. *)
Theorem attribute_of_primitive_dropped :
  ∀ fuel o a kw rhs env h valueNode h1 r v c ov,
    interpret fuel (Some rhs) env h = (Ret valueNode, h1) ->
    read_prop h1 valueNode "ref" = Ret r ->
    read_prop h1 valueNode "val" = Ret v ->
    read_prop h1 env "ctx" = Ret (VLoc c) ->
    is_Some (h1 !! c) ->
    read_prop h1 (VLoc c) o = Ret ov ->
    (∃ z, ov = VNum z) ∨ (∃ s, ov = VStr s) ->
    ∃ e h2,
      interpret (S fuel) (Some (value_assignment (Attribute o a) kw rhs)) env h
        = (Ret (VLoc e), h2) ∧
      h1 !! e = None ∧
      h2 !! e = Some (Cell SObject [("ctx", VLoc c); ("ret", VNull)]) ∧
      (∀ l cl, h1 !! l = Some cl -> h2 !! l = Some cl) ∧
      read_prop h2 (VLoc c) o = Ret ov.
Proof.
  intros fuel o a kw rhs env h valueNode h1 r v c ov Hrhs Hr Hv Hctx Hc Ho Hov.
  rewrite (attribute_assignment_run _ _ _ _ _ _ _ _ _ _ _ _ _ Hrhs Hr Hv Hctx Hc Ho).
  cbv zeta.
  assert (∀ hw x, (let* _ := setp ov a x in nreturn (VLoc c) VUndef) hw
                  = (Ret (VLoc (length hw)),
                     hw ++ [Cell SObject [("ctx", VLoc c); ("ret", VNull)]])) as ->.
  { intros hw x. by destruct Hov as [[z ->]|[s ->]]. }
  destruct Hc as [cc Hcc].
  assert (∀ hx, read_prop (h1 ++ hx) (VLoc c) o = Ret ov) as Hread.
  { intros hx. unfold read_prop in Ho |- *.
    by rewrite (lookup_app_l_Some _ _ _ _ Hcc), <- Ho, Hcc. }
  eexists _, _. split; [reflexivity|].
  destruct (is_undefined r).
  - split; [by apply lookup_ge_None|]. split; [apply lookup_snoc_new|].
    split; [intros; by apply lookup_snoc_old|]. apply Hread.
  - split; [apply lookup_ge_None; rewrite length_app; simpl; lia|].
    split; [apply lookup_snoc_new|].
    split; [intros; by do 2 apply lookup_snoc_old|].
    rewrite <- app_assoc. apply Hread.
Qed.




(** X14: a list assignment whose operand carries no reference (a literal)
    hands the value itself to the list operation, which changes the list in
    place: the target still holds the very same list, now with the items the
    operation made of the old ones and the value, and no cell other than the
    list and the cell holding the target slot has changed. *)
Theorem list_assignment_in_place :
  ∀ fuel op item kw t env h c L its ps f l itemEval hx r v,
    read_prop h env "ctx" = Ret (VLoc c) ->
    binding h (VLoc c) t = Ret (VLoc L) ->
    h !! L = Some (Cell (SList its) ps) ->
    target_cell h c t = Some l ->
    list_method library_list_op op = Some f ->
    interpret (S (S fuel)) (Some item) env (h ++ read_cells h t (VLoc L))
      = (Ret itemEval, (h ++ read_cells h t (VLoc L)) ++ hx) ->
    read_prop ((h ++ read_cells h t (VLoc L)) ++ hx) itemEval "ref" = Ret r ->
    read_prop ((h ++ read_cells h t (VLoc L)) ++ hx) itemEval "val" = Ret v ->
    is_undefined r = true ->
    ∃ e h2 ps',
      interpret (S (S (S fuel))) (Some (list_assignment op item kw t)) env h
      = (Ret (VLoc e), h2) ∧
      h2 !! L = Some (Cell (SList (f its v)) ps') ∧
      binding h2 (VLoc c) t = Ret (VLoc L) ∧
      ∀ l' cl, l' ≠ L -> l' ≠ l ->
               ((h ++ read_cells h t (VLoc L)) ++ hx) !! l' = Some cl ->
               h2 !! l' = Some cl.
Proof.
  intros fuel op item kw t env h c L its ps f l itemEval hx r v
    Hctx Hb HL Ht Hop Hitem Hr Hv Hu.
  pose proof (list_assignment_run _ _ _ kw _ _ _ _ _ _ _ _ _ _ _ _ _
                Hctx Hb HL Ht Hop Hitem Hr Hv) as Hrun.
  rewrite Hu in Hrun. cbv zeta in Hrun.
  set (h1 := (h ++ read_cells h t (VLoc L)) ++ hx) in *.
  set (hl := <[L := Cell (SList (f its v)) ps]> h1) in *.
  assert (h1 !! L = Some (Cell (SList its) ps)) as HL1
      by (by do 2 apply lookup_app_l_Some).
  assert (hl !! L = Some (Cell (SList (f its v)) ps)) as HlL.
  { apply list_lookup_insert_eq. by eapply lookup_lt_Some. }
  assert (target_cell hl c t = Some l) as Htl.
  { unfold hl. rewrite (target_cell_insert_props _ _ _ _ _ _ HL1) by done.
    by do 2 apply target_cell_app. }
  assert (∃ ps', write hl l (slot t) (VLoc L) !! L = Some (Cell (SList (f its v)) ps'))
    as [ps' HwL].
  { destruct (decide (l = L)) as [->|Hne].
    - eexists. by rewrite (write_lookup_eq _ _ _ _ _ HlL).
    - exists ps. by rewrite write_lookup_ne. }
  eexists _, _, ps'. split; [exact Hrun|].
  split; [by apply lookup_snoc_old|]. split; [by apply binding_write|].
  intros l' cl HneL Hnel Hl'. apply lookup_snoc_old.
  rewrite write_lookup_ne by done. unfold hl. by rewrite list_lookup_insert_ne.
Qed.

(** ** Straight-line programs *)

(** The statements [x1 is n1; ...] run in a row from an environment that is
    not its own context. *)
Lemma assignments_sequence fuel xs :
  ∀ e h c,
    read_prop h (VLoc e) "ctx" = Ret (VLoc c) ->
    is_Some (h !! c) ->
    e ≠ c ->
    ∃ e' h2,
      run_sequence (S (S (S (S (S fuel)))))
        (map (fun s => Node "expression" [s]) (assignments xs)) (VLoc e) h
        = (Ret (VLoc e'), h2) ∧
      read_prop h2 (VLoc e') "ctx" = Ret (VLoc c) ∧
      (∀ x, read_prop h2 (VLoc c) x
            = match last_assigned x xs with
              | Some n => Ret (VNum n)
              | None => read_prop h (VLoc c) x
              end) ∧
      (∀ l cl, l ≠ c -> l ≠ e -> h !! l = Some cl -> h2 !! l = Some cl).
Proof.
  induction xs as [|[y n] xs IH]; intros e h c Hctx Hc Hec.
  - exists e, h. by repeat split.
  - cbn [assignments map fst snd]. rewrite statement_run. cbn [bind].
    rewrite rmRet_write.
    set (ha := write h e "ret" VNull).
    assert (read_prop ha (VLoc e) "ctx" = Ret (VLoc c)) as Hctxa.
    { unfold ha. by rewrite write_read_other by (by right). }
    assert (is_Some (ha !! c)) as Hca by (by apply write_allocated).
    destruct (value_assignment_literal fuel y n (Node "is" []) _ _ _ Hctxa Hca)
      as (e1 & h1 & -> & Hnew & He1 & Hy1 & Hframe & Hslots).
    assert (read_prop h1 (VLoc e1) "ctx" = Ret (VLoc c)) as Hctx1
        by (by unfold read_prop; rewrite He1).
    assert (is_Some (h1 !! c)) as Hc1 by (by eapply read_prop_allocated).
    assert (e1 ≠ c) as He1c.
    { intros ->. destruct Hca as [cc Hcc]. congruence. }
    destruct (IH e1 h1 c Hctx1 Hc1 He1c) as (e' & h2 & Hrun & Hctx2 & Hread & Hrest).
    exists e', h2. split; [exact Hrun|]. split; [done|]. split.
    + intros x. rewrite Hread. cbn [last_assigned].
      destruct (last_assigned x xs) as [m|]; [done|].
      destruct (String.eqb x y) eqn:E.
      * apply String.eqb_eq in E as ->. done.
      * apply String.eqb_neq in E. rewrite Hslots by done.
        unfold ha. apply write_read_other. left. congruence.
    + intros l cl Hlc Hle Hl. apply Hrest; [done| |].
      * intros ->. assert (ha !! e1 = Some cl); [|congruence].
        unfold ha. by rewrite write_lookup_ne.
      * apply Hframe; [done|]. unfold ha. by rewrite write_lookup_ne.
Qed.

(** X15: a program of scalar assignments of integer literals works as a
    store should.  It runs to the end; afterwards every name assigned holds
    the number of the last assignment to it, every other slot of the
    context holds what it held before, and no cell other than the context
    and the environment handed in (whose [ret] is cleared) has changed. *)
Theorem assignments_run :
  ∀ fuel xs e h c,
    read_prop h (VLoc e) "ctx" = Ret (VLoc c) ->
    is_Some (h !! c) ->
    e ≠ c ->
    ∃ e' h2,
      interpret (S (S (S (S (S (S (S fuel))))))) (Some (program (assignments xs)))
        (VLoc e) h = (Ret (VLoc e'), h2) ∧
      read_prop h2 (VLoc e') "ctx" = Ret (VLoc c) ∧
      (∀ x, read_prop h2 (VLoc c) x
            = match last_assigned x xs with
              | Some n => Ret (VNum n)
              | None => read_prop h (VLoc c) x
              end) ∧
      (∀ l cl, l ≠ c -> l ≠ e -> h !! l = Some cl -> h2 !! l = Some cl).
Proof.
  intros fuel xs e h c Hctx Hc Hec.
  rewrite program_run by done. cbn [bind]. rewrite rmRet_write.
  set (ha := write h e "ret" VNull).
  assert (read_prop ha (VLoc e) "ctx" = Ret (VLoc c)) as Hctxa.
  { unfold ha. by rewrite write_read_other by (by right). }
  assert (is_Some (ha !! c)) as Hca by (by apply write_allocated).
  destruct (assignments_sequence fuel xs e ha c Hctxa Hca Hec)
    as (e' & h2 & -> & Hctx2 & Hread & Hrest).
  exists e', h2. split; [done|]. split; [done|]. split.
  - intros x. rewrite Hread. destruct (last_assigned x xs); [done|].
    unfold ha. apply write_read_other. left. congruence.
  - intros l cl Hlc Hle Hl. apply Hrest; [done..|]. unfold ha.
    by rewrite write_lookup_ne.
Qed.

(** ** Dispatch *)

Ltac crack_tag t :=
  destruct t as [|[[] [] [] [] [] [] [] []] t]; lazy beta iota;
  try (let H := fresh in intros H; discriminate H).

(** The tags [production_of] sends to a method of [interpretAst] are the
    eleven it is registered for. *)
Lemma has_method_tags tag :
  has_method (production_of (Some tag)) = true -> In tag interpretAst_tags.
Proof.
  unfold production_of, has_method.
  do 17 (try crack_tag tag); intros _; simpl; tauto.
Qed.

(** X16: a node whose tag is none of the eleven [interpretAst] has a method
    for (the tags of the value nodes, which only [evaluateValue] knows,
    among them) makes it throw the string "You've forgotten a tag type.",
    not an Error object, before anything is read or written. *)
Theorem interpretAst_unknown_tag :
  ∀ fuel tag cs env h,
    ¬ In tag interpretAst_tags ->
    interpret (S fuel) (Some (Node tag cs)) env h
    = (Raise (ThrownStr "You've forgotten a tag type."), h).
Proof.
  intros fuel tag cs env h Htag.
  pose proof (has_method_tags tag) as Hm.
  cbn [interpretAst bind tag_of ret].
  destruct (production_of (Some tag)); try done; destruct Htag; by apply Hm.
Qed.

(** ** Writing and reading back *)

(** X17: what a value assignment stores under a target is what a value read
    of that target finds next: [assign] and [evaluateValue] agree on where a
    scalar and an attribute path live.  The read hands back, as its [val],
    the value of a right-hand side that carried no reference, and the new
    reference wrapper otherwise, unresolved. *)
Theorem value_assignment_read_back :
  ∀ fuel fuel' t kw rhs env h valueNode h1 r v c l,
    interpret fuel (Some rhs) env h = (Ret valueNode, h1) ->
    read_prop h1 valueNode "ref" = Ret r ->
    read_prop h1 valueNode "val" = Ret v ->
    read_prop h1 env "ctx" = Ret (VLoc c) ->
    target_cell h1 c t = Some l ->
    ∃ e h2 stored,
      interpret (S fuel) (Some (value_assignment t kw rhs)) env h
        = (Ret (VLoc e), h2) ∧
      evaluateValue library_fn library_list_op getInitialEnv (S (S fuel'))
        (Some (target_node t)) (VLoc e) h2
        = (Ret (VLoc (read_result h2 t)), h2 ++ read_cells h2 t stored) ∧
      read_prop (h2 ++ read_cells h2 t stored) (VLoc (read_result h2 t)) "val"
        = Ret stored ∧
      if is_undefined r then stored = v
      else reference_of h2 stored = Some r ∧ reference_of h1 stored = None.
Proof.
  intros fuel fuel' t kw rhs env h valueNode h1 r v c l Hrhs Hr Hv Hctx Ht.
  rewrite (value_assignment_run _ _ _ _ _ _ _ _ _ _ _ _ Hrhs Hr Hv Hctx Ht).
  pose proof (target_cell_allocated _ _ _ _ Ht) as [cl Hcl].
  pose proof (lookup_lt_Some _ _ _ Hcl) as Hlt.
  destruct (is_undefined r) eqn:Eu.
  - set (h2 := write h1 l (slot t) v ++ _).
    assert (read_prop h2 (VLoc (length h1)) "ctx" = Ret (VLoc c)) as Hctx2.
    { unfold read_prop, h2.
      replace (length h1) with (length (write h1 l (slot t) v)) by apply write_length.
      by rewrite lookup_snoc_new. }
    assert (binding h2 (VLoc c) t = Ret v) as Hb by (by apply binding_write).
    exists (length h1), h2, v. split; [done|].
    split; [by apply (target_read _ _ _ _ c)|]. split; [|done].
    unfold read_prop. by rewrite read_result_lookup.
  - set (hw := h1 ++ [Cell SObject [("ref", r)]]).
    set (h2 := write hw l (slot t) (VLoc (length h1)) ++ _).
    assert (length hw = S (length h1)) as Hlw
        by (unfold hw; rewrite length_app; simpl; lia).
    assert (read_prop h2 (VLoc (S (length h1))) "ctx" = Ret (VLoc c)) as Hctx2.
    { unfold read_prop, h2.
      replace (S (length h1)) with (length (write hw l (slot t) (VLoc (length h1))))
        by (by rewrite write_length).
      by rewrite lookup_snoc_new. }
    assert (binding h2 (VLoc c) t = Ret (VLoc (length h1))) as Hb
        by (by apply binding_write, target_cell_app).
    exists (S (length h1)), h2, (VLoc (length h1)). split; [done|].
    split; [by apply (target_read _ _ _ _ c)|].
    split; [unfold read_prop; by rewrite read_result_lookup|].
    split.
    + unfold reference_of, h2.
      erewrite lookup_snoc_old; [|rewrite write_lookup_ne by lia; apply lookup_snoc_new].
      simpl. by rewrite Eu.
    + unfold reference_of. by rewrite lookup_ge_None_2.
Qed.

(** X18: an assignment to an attribute does not follow references.  When
    [p] holds a reference wrapper (as after [p is o]), [p a is ...] writes
    the attribute [a] into the wrapper itself: the wrapper still names what
    it named, and the object it names, like every other cell, is as it was. *)
Theorem attribute_assignment_through_alias :
  ∀ fuel p a kw rhs env h valueNode h1 r v c w r0,
    interpret fuel (Some rhs) env h = (Ret valueNode, h1) ->
    read_prop h1 valueNode "ref" = Ret r ->
    read_prop h1 valueNode "val" = Ret v ->
    read_prop h1 env "ctx" = Ret (VLoc c) ->
    read_prop h1 (VLoc c) p = Ret (VLoc w) ->
    reference_of h1 (VLoc w) = Some r0 ->
    w ≠ c ->
    a ≠ "ref" ->
    ∃ e h2 stored,
      interpret (S fuel) (Some (value_assignment (Attribute p a) kw rhs)) env h
        = (Ret (VLoc e), h2) ∧
      read_prop h2 (VLoc w) a = Ret stored ∧
      reference_of h2 (VLoc w) = Some r0 ∧
      (∀ l' cl, l' ≠ w -> h1 !! l' = Some cl -> h2 !! l' = Some cl) ∧
      if is_undefined r then stored = v else reference_of h2 stored = Some r.
Proof.
  intros fuel p a kw rhs env h valueNode h1 r v c w r0 Hrhs Hr Hv Hctx Hp Hw Hwc Ha.
  assert (∃ ps, h1 !! w = Some (Cell SObject ps) ∧ alookup "ref" ps = Some r0
                ∧ is_undefined r0 = false) as (ps & Hcw & Href & Hr0).
  { unfold reference_of in Hw. destruct (h1 !! w) as [[[] ps]|]; try done.
    destruct (alookup "ref" ps) as [r'|] eqn:Er; [|done].
    destruct (is_undefined r') eqn:E; [done|]. injection Hw as <-. by exists ps. }
  assert (target_cell h1 c (Attribute p a) = Some w) as Ht.
  { unfold target_cell. rewrite Hp, Hcw. by rewrite bool_decide_eq_false_2. }
  rewrite (value_assignment_run _ _ _ _ _ _ _ _ _ _ _ _ Hrhs Hr Hv Hctx Ht).
  pose proof (lookup_lt_Some _ _ _ Hcw) as Hlt.
  cbn [slot]. destruct (is_undefined r) eqn:Eu.
  - destruct (write_frame h1 w a v [Cell SObject [("ctx", VLoc c); ("ret", VNull)]])
      as (H1 & H2 & _); [eauto|].
    pose proof (write_lookup_eq _ _ a v _ Hcw) as Hww.
    eexists (length h1), _, v. split; [reflexivity|].
    split; [|split; [|split; [done|done]]].
    + unfold read_prop. rewrite (lookup_snoc_old _ _ _ _ Hww). simpl.
      by rewrite alookup_aupdate_eq.
    + unfold reference_of. rewrite (lookup_snoc_old _ _ _ _ Hww). simpl.
      rewrite alookup_aupdate_ne by done. by rewrite Href, Hr0.
  - set (hw := h1 ++ [Cell SObject [("ref", r)]]).
    assert (hw !! w = Some (Cell SObject ps)) as Hcw' by (by apply lookup_snoc_old).
    destruct (write_frame hw w a (VLoc (length h1))
                [Cell SObject [("ctx", VLoc c); ("ret", VNull)]])
      as (H1 & H2 & _); [eauto|].
    pose proof (write_lookup_eq _ _ a (VLoc (length h1)) _ Hcw') as Hww.
    eexists (S (length h1)), _, (VLoc (length h1)). split; [reflexivity|].
    split; [|split; [|split]].
    + unfold read_prop. rewrite (lookup_snoc_old _ _ _ _ Hww). simpl.
      by rewrite alookup_aupdate_eq.
    + unfold reference_of. rewrite (lookup_snoc_old _ _ _ _ Hww). simpl.
      rewrite alookup_aupdate_ne by done. by rewrite Href, Hr0.
    + intros l' cl Hne Hl'. apply H1; [done|]. by apply lookup_snoc_old.
    + unfold reference_of.
      erewrite lookup_snoc_old; [|rewrite write_lookup_ne by lia; apply lookup_snoc_new].
      simpl. by rewrite Eu.
Qed.

(** ** Knots *)

Lemma for_each_ret {A} (f : A -> M unit) (P : heap -> Prop) xs :
  (∀ x h h', In x xs -> P h -> f x h = (Ret tt, h') -> P h') ->
  ∀ h h', P h -> for_each f xs h = (Ret tt, h') -> P h'.
Proof.
  induction xs as [|x xs IH]; intros Hf h h' HP; cbn.
  - by intros [= <-].
  - destruct (f x h) as [[[]| |] h1] eqn:E; try done.
    apply IH; [intros; eapply Hf; eauto using in_cons|].
    eapply Hf; eauto using in_eq.
Qed.

Lemma for_each_blocked {A} (f : A -> M unit) (P : heap -> Prop) xs x0 :
  In x0 xs ->
  (∀ x h h', In x xs -> P h -> f x h = (Ret tt, h') -> P h') ->
  (∀ h h', P h -> f x0 h ≠ (Ret tt, h')) ->
  ∀ h h', P h -> for_each f xs h ≠ (Ret tt, h').
Proof.
  induction xs as [|x xs IH]; intros Hin Hf Hblock h h' HP; [done|]. cbn.
  destruct (f x h) as [[[]| |] h1] eqn:E; try done.
  destruct Hin as [->|Hin].
  - by destruct (Hblock _ _ HP E).
  - apply IH; [done|intros; eapply Hf; eauto using in_cons|done|].
    eapply Hf; eauto using in_eq.
Qed.

(** A link depends on the cell of the container only. *)
Lemma knot_link_cell h h' l w k :
  h' !! l = h !! l -> knot_link h l w k -> knot_link h' l w k.
Proof. unfold knot_link. by intros ->. Qed.

Lemma knot_link_allocated h l w k : knot_link h l w k -> is_Some (h !! l).
Proof. unfold knot_link. destruct (h !! l); [eauto|done]. Qed.

Lemma knotted_cells env c l w x k h :
  knotted env c l w x k h ->
  ∃ e ce cl psw cc,
    env = VLoc e ∧ h !! e = Some ce ∧
    h !! l = Some cl ∧
    h !! w = Some (Cell SObject psw) ∧ alookup "ref" psw = Some (VStr x) ∧
    h !! c = Some cc ∧ plain cc = true.
Proof.
  intros (Hl & Hw & Hctx & Hc & _).
  destruct (knot_link_allocated _ _ _ _ Hl) as [cl Hcl].
  destruct (read_prop_found _ _ _ _ Hctx) as (e & ce & -> & He & _).
  apply resolve_case_object in Hc as (? & cc & [= <-] & Hcc & Hp).
  unfold reference_of in Hw. destruct (h !! w) as [[[] psw]|] eqn:Ew; try done.
  destruct (alookup "ref" psw) as [r|] eqn:Er; [|done].
  destruct (is_undefined r); [done|]. injection Hw as ->.
  exists e, ce, cl, psw, cc. by repeat split.
Qed.

(** The container of a knot is a list or a plain object, and the wrapper in
    it is neither. *)
Lemma knotted_cases env c l w x k h :
  knotted env c l w x k h ->
  (resolve_case_of h (VLoc l) = AsList ∨ resolve_case_of h (VLoc l) = AsObject) ∧
  resolve_case_of h (VLoc w) = AsRef.
Proof.
  intros Hk. destruct (knotted_cells _ _ _ _ _ _ _ Hk)
    as (e & ce & cl & psw & cc & -> & He & Hl & Hw & Hr & Hcc & Hp).
  destruct Hk as (Hlink & _). unfold knot_link in Hlink. rewrite Hl in Hlink.
  split.
  - destruct cl as [[| |its|] ps]; try done; [right|left].
    + destruct Hlink as [Hpl _]. by apply (plain_case _ _ _ Hl).
    + simpl. by rewrite Hl.
  - simpl. by rewrite Hw, Hr.
Qed.

Lemma knotted_alloc env c l w x k h cnew :
  knotted env c l w x k h -> knotted env c l w x k (h ++ [cnew]).
Proof.
  intros Hk. destruct (knotted_cells _ _ _ _ _ _ _ Hk)
    as (e & ce & cl & psw & cc & -> & He & Hl & Hw & Hr & Hcc & Hp).
  destruct Hk as (Hlink & _ & Hctx & _ & Hx).
  split.
  { apply (knot_link_cell h); [|done]. by rewrite Hl, (lookup_snoc_old _ _ _ _ Hl). }
  split; [unfold reference_of; by rewrite (lookup_snoc_old _ _ _ _ Hw), Hr|].
  split; [by apply read_prop_app|].
  split; [by apply (plain_case _ _ cc); [apply lookup_snoc_old|]|].
  by apply read_prop_app.
Qed.

Lemma knotted_insert env c l w x k h lnew cnew :
  knotted env c l w x k h -> env ≠ VLoc lnew -> lnew ≠ c -> lnew ≠ l -> lnew ≠ w ->
  knotted env c l w x k (<[lnew := cnew]> h).
Proof.
  intros Hk Hne Hnc Hnl Hnw. destruct (knotted_cells _ _ _ _ _ _ _ Hk)
    as (e & ce & cl & psw & cc & -> & He & Hl & Hw & Hr & Hcc & Hp).
  destruct Hk as (Hlink & _ & Hctx & _ & Hx).
  assert (e ≠ lnew) as Hne' by congruence.
  split; [apply (knot_link_cell h); [by rewrite list_lookup_insert_ne|done]|].
  split; [unfold reference_of; by rewrite list_lookup_insert_ne, Hw, Hr|].
  split; [by rewrite read_prop_insert_ne|].
  split; [apply (plain_case _ _ cc); [by rewrite list_lookup_insert_ne|done]|].
  by rewrite read_prop_insert_ne.
Qed.

(** A write that spares the knot: not into the wrapper, not over the link,
    the context of the environment or the slot of the knot, and not turning
    a plain object into a reference. *)
Lemma knotted_write env c l w x k h lv i r :
  knotted env c l w x k h ->
  lv ≠ w ->
  (env = VLoc lv -> i = "ctx" -> r = VLoc c) ->
  ¬ (lv = c ∧ i = x) ->
  (lv = l -> i = k -> resolve_case_of h (VLoc l) = AsList) ->
  (i = "ref" -> resolve_case_of h (VLoc lv) = AsObject -> r = VUndef) ->
  knotted env c l w x k (write h lv i r).
Proof.
  intros Hk Hnw Henv Hslot Hlink Hplain.
  destruct (knotted_cells _ _ _ _ _ _ _ Hk)
    as (e & ce & cl & psw & cc & -> & He & Hl & Hw & Hr & Hcc & Hp).
  pose proof Hk as (Hkl & _ & Hctx & Hc & Hx).
  split; [|split; [|split; [|split]]].
  - destruct (decide (lv = l)) as [->|Hne];
      [|apply (knot_link_cell h); [by rewrite write_lookup_ne|done]].
    unfold knot_link in Hkl |- *. rewrite (write_lookup_eq _ _ _ _ _ Hl).
    rewrite Hl in Hkl. destruct cl as [[| |its|] ps]; try done. cbn [shape_of props].
    destruct Hkl as (Hpl & Hk' & Hlk).
    assert (resolve_case_of h (VLoc l) = AsObject) as Dl by (by apply (plain_case _ _ _ Hl)).
    split; [|split; [done|]].
    + apply plain_aupdate; [done|]. intros ->. by apply Hplain.
    + destruct (decide (i = k)) as [->|Hik]; [|by rewrite alookup_aupdate_ne].
      rewrite Hlink in Dl; done.
  - unfold reference_of. by rewrite write_lookup_ne, Hw, Hr.
  - destruct (decide (e = lv)) as [<-|Hel];
      [|rewrite write_read_other; [done|left; congruence]].
    destruct (decide (i = "ctx")) as [->|Hi];
      [|rewrite write_read_other; [done|by right]].
    rewrite (Henv eq_refl eq_refl). by apply (write_read_eq _ _ _ _ ce).
  - destruct (decide (lv = c)) as [->|Hne];
      [|apply (plain_case _ _ cc); [by rewrite write_lookup_ne|done]].
    apply (plain_case _ _ _ (write_lookup_eq _ _ i r _ Hcc)).
    destruct cc as [shc psc]. apply plain_aupdate; [done|]. intros ->. by apply Hplain.
  - rewrite write_read_other; [done|].
    destruct (decide (lv = c)) as [->|Hlc]; [right|left; congruence].
    intros <-. by apply Hslot.
Qed.

(** A run of [resolve] that returns leaves a knot tied; started on the
    container of the knot or on the wrapper in it, it does not return. *)
Lemma knot_holds env c l w x k n :
  ∀ v h o h',
    knotted env c l w x k h ->
    deref n v env h = (o, h') ->
    (∀ r, o = Ret r -> knotted env c l w x k h') ∧
    (v = VLoc l ∨ v = VLoc w -> ∀ r, o ≠ Ret r).
Proof.
  induction n as [|n IH]; intros v h o h' Hk.
  { intros [= <- <-]. by split. }
  destruct (knotted_cells _ _ _ _ _ _ _ Hk)
    as (e & ce & cl & psw & cc & -> & He & Hl & Hw & Hr & Hcc & Hp).
  destruct (knotted_cases _ _ _ _ _ _ _ Hk) as [Dl Dw].
  cbn [resolve bind resolve_dispatch].
  destruct (resolve_case_of h v) eqn:D.
  - (* a list *)
    apply resolve_case_list in D as (lv & itv & psv & -> & Hlv).
    unfold resolve_list. cbn [bind list_items alloc]. rewrite Hlv.
    set (new := length h). set (h0 := h ++ [Cell (SList []) []]).
    set (P := fun hi => knotted (VLoc e) c l w x k hi ∧
                        ∃ acc, hi !! new = Some (Cell (SList acc) [])).
    set (f := fun item => let* r := deref n item (VLoc e) in
                          let* _ := list_add (VLoc new) "add" r in ret tt).
    assert (P h0) as HP0.
    { split; [by apply knotted_alloc|]. eexists. apply lookup_snoc_new. }
    assert (∀ item hi hi', P hi -> f item hi = (Ret tt, hi') -> P hi') as Hstep.
    { intros item hi hi' [Hki [acc Hacc]]. unfold f. cbn [bind].
      destruct (deref n item (VLoc e) hi) as [[r| |] hr] eqn:Er; try done.
      destruct (IH _ _ _ _ Hki Er) as [Hkr _]. specialize (Hkr r eq_refl).
      destruct (resolve_frame _ _ _ _ _ _ Er _ _ Hacc) as (c' & Hc' & _ & Hsame & _).
      rewrite (Hsame eq_refl) in Hc'. rewrite (invoke_add _ _ _ _ _ Hc').
      intros [= <-]. split.
      - apply lookup_lt_Some in He, Hl, Hw, Hcc. unfold new.
        apply knotted_insert; [done|intros [= ->]; lia|lia..].
      - eexists. apply list_lookup_insert_eq. by eapply lookup_lt_Some. }
    destruct (for_each f itv h0) as [[[]| |] h1] eqn:E; intros [= <- <-].
    + split.
      * intros r _.
        by destruct (for_each_ret f P itv (fun x _ _ _ => Hstep x _ _) h0 h1 HP0 E).
      * intros [[= ->]|[= ->]]; [|congruence]. exfalso.
        destruct Hk as (Hlink & _). unfold knot_link in Hlink. rewrite Hlv in Hlink.
        apply (for_each_blocked f P itv (VLoc w) Hlink (fun x _ _ _ => Hstep x _ _))
          with (h := h0) (h' := h1); [|done..].
        intros hi hi' [Hki _]. unfold f. cbn [bind].
        destruct (deref n (VLoc w) (VLoc e) hi) as [[r| |] hr] eqn:Er; try done.
        destruct (IH _ _ _ _ Hki Er) as [_ Hno]. by destruct (Hno (or_intror eq_refl) r).
    + split; [done|]. intros _ r. done.
    + split; [done|]. intros _ r. done.
  - (* a plain object *)
    pose proof D as Dv.
    apply resolve_case_object in D as (lv & cv & -> & Hlv & Hpv).
    unfold resolve_object. cbn [bind own_keys]. rewrite Hlv.
    assert (lv ≠ w) as Hnw by (intros ->; congruence).
    set (f := fun i => if String.eqb i "_meta" then ret tt
                       else let* u := getp (VLoc lv) i in
                            let* r := deref n u (VLoc e) in
                            setp (VLoc lv) i r).
    assert (∀ i hi hi', knotted (VLoc e) c l w x k hi ->
                        f i hi = (Ret tt, hi') ->
                        knotted (VLoc e) c l w x k hi') as Hstep.
    { intros i hi hi' Hki. unfold f. destruct (String.eqb i "_meta"); [by intros [= <-]|].
      cbn [bind getp]. destruct (read_prop hi (VLoc lv) i) as [u| |] eqn:Eu; try done.
      destruct (deref n u (VLoc e) hi) as [[r| |] hr] eqn:Er; try done.
      destruct (IH _ _ _ _ Hki Er) as [Hkr Hno]. specialize (Hkr r eq_refl).
      rewrite setp_write. intros [= <-].
      pose proof (resolve_frame _ _ _ _ _ _ Er) as Hf.
      (* a cell of [hi] that is a plain object in [hr] was one in [hi] *)
      assert (∀ lo co, hi !! lo = Some co ->
                       resolve_case_of hr (VLoc lo) = AsObject -> plain co = true)
        as Hback.
      { intros lo co Hlo Dr. destruct (plain co) eqn:Epl; [done|].
        destruct (Hf _ _ Hlo) as (c' & Hc' & _ & Hsame & _).
        rewrite (Hsame Epl) in Hc'.
        apply resolve_case_object in Dr as (? & cr & [= <-] & Hcr & Hpr). congruence. }
      destruct (knotted_cells _ _ _ _ _ _ _ Hki)
        as (? & cei & cli & pswi & cci & [= <-] & Hei & Hli & Hwi & Hri & Hcci & Hpi).
      pose proof Hki as (Hlinki & _ & Hctxi & Hci & Hxi).
      apply knotted_write; [done|done|..].
      - intros [= <-] ->. rewrite Hctxi in Eu. injection Eu as <-.
        by rewrite (resolve_object_result _ _ _ _ _ _ Hci Er).
      - intros [-> ->]. rewrite Hxi in Eu. injection Eu as <-.
        by destruct (Hno (or_introl eq_refl) r).
      - intros -> ->. destruct (knotted_cases _ _ _ _ _ _ _ Hkr) as [[Dr|Dr] _]; [done|].
        exfalso. pose proof (Hback _ _ Hli Dr) as Hpli.
        unfold knot_link in Hlinki. rewrite Hli in Hlinki.
        destruct cli as [[| |?|] psi]; try done. destruct Hlinki as (_ & _ & Hlk).
        unfold read_prop in Eu. rewrite Hli in Eu. simpl in Eu. rewrite Hlk in Eu.
        injection Eu as <-. by destruct (Hno (or_intror eq_refl) r).
      - intros -> Dr. destruct (hi !! lv) as [co|] eqn:Hlo.
        + rewrite (plain_ref_undefined _ _ _ Hlo (Hback _ _ Hlo Dr)) in Eu.
          injection Eu as <-. by eapply resolve_undefined.
        + unfold read_prop in Eu. rewrite Hlo in Eu. injection Eu as <-.
          by eapply resolve_undefined. }
    destruct (for_each f (map fst (props cv)) h) as [[[]| |] h1] eqn:E;
      intros [= <- <-].
    + split.
      * intros r _.
        exact (for_each_ret f _ _ (fun i _ _ _ => Hstep i _ _) h h1 Hk E).
      * intros [[= ->]|[= ->]]; [|done]. exfalso.
        pose proof Hk as (Hlink & _). unfold knot_link in Hlink. rewrite Hlv in Hlink.
        destruct cv as [[| |?|] psv]; try done. destruct Hlink as (_ & Hk' & Hlk).
        cbn [props] in E.
        set (P := fun hi => knotted (VLoc e) c l w x k hi ∧
                            ∃ ps, hi !! l = Some (Cell SObject ps)).
        assert (∀ i hi hi', P hi -> f i hi = (Ret tt, hi') -> P hi') as Hstep'.
        { intros i hi hi' [Hki [psi Hli]] Hfi. split; [by eapply Hstep|].
          revert Hfi. unfold f. destruct (String.eqb i "_meta"); [intros [= <-]; eauto|].
          cbn [bind getp]. destruct (read_prop hi (VLoc l) i) as [u| |]; try done.
          destruct (deref n u (VLoc e) hi) as [[r| |] hr] eqn:Er; try done.
          rewrite setp_write. intros [= <-].
          destruct (resolve_frame _ _ _ _ _ _ Er _ _ Hli) as ([shr psr] & Hlr & Hsh & _).
          simpl in Hsh. subst shr. rewrite (write_lookup_eq _ _ _ _ _ Hlr). eauto. }
        apply (for_each_blocked f P _ k (alookup_key _ _ _ Hlk)
                 (fun i _ _ _ => Hstep' i _ _)) with (h := h) (h' := h1);
          [|by split; eauto|done].
        intros hi hi' [Hki [psi Hli]]. unfold f.
        apply String.eqb_neq in Hk'. rewrite Hk'. cbn [bind getp].
        destruct (read_prop hi (VLoc l) k) as [u| |] eqn:Eu; try done.
        destruct (deref n u (VLoc e) hi) as [[r| |] hr] eqn:Er; try done.
        exfalso. destruct (IH _ _ _ _ Hki Er) as [_ Hno].
        destruct Hki as (Hlinki & _). unfold knot_link in Hlinki. rewrite Hli in Hlinki.
        destruct Hlinki as (_ & _ & Hlki).
        unfold read_prop in Eu. rewrite Hli in Eu. simpl in Eu. rewrite Hlki in Eu.
        injection Eu as <-. by destruct (Hno (or_intror eq_refl) r).
    + split; [done|]. intros _ r. done.
    + split; [done|]. intros _ r. done.
  - (* a reference wrapper *)
    destruct Hk as (Hk1 & Hrw & Hctx & Hc & Hx).
    cbn [resolve_ref bind getp to_key]. rewrite Hctx.
    destruct (read_prop h v "ref") as [r0| |] eqn:Er0;
      [|intros [= <- <-]; split; [done|intros _ r; done]..].
    destruct (read_prop h (VLoc c) (to_str h r0)) as [b| |] eqn:Eb;
      [|intros [= <- <-]; split; [done|intros _ r; done]..].
    intros Hres.
    destruct (IH _ _ _ _ (conj Hk1 (conj Hrw (conj Hctx (conj Hc Hx)))) Hres)
      as [Hkeep Hno].
    split; [done|]. intros [->| ->].
    + destruct Dl; congruence.
    + unfold read_prop in Er0. rewrite Hw in Er0. simpl in Er0. rewrite Hr in Er0.
      injection Er0 as <-. cbn [to_str] in Eb. rewrite Hx in Eb. injection Eb as <-.
      apply Hno. by left.
  - (* anything else *)
    intros [= <- <-]. split; [by intros r _|].
    intros [->| ->]; [destruct Dl|]; congruence.
Qed.

(** X19: a knot is never resolved.  When a list holds among its items, or a
    plain object holds under one of its attributes, a reference to a slot of
    the context that holds that very list or object (as after
    [l is a list; add l to l], or [o is a thing; o a is o]), [resolve] on it
    returns nothing, whatever the fuel: the walk of the source never comes
    back. *)
Theorem knot_never_resolves :
  ∀ e c h l w x k,
    knot_link h l w k ->
    reference_of h (VLoc w) = Some (VStr x) ->
    read_prop h (VLoc e) "ctx" = Ret (VLoc c) ->
    resolve_case_of h (VLoc c) = AsObject ->
    read_prop h (VLoc c) x = Ret (VLoc l) ->
    ∀ n r h', deref n (VLoc l) (VLoc e) h ≠ (Ret r, h').
Proof.
  intros e c h l w x k Hlink Hw Hctx Hc Hx n r h' Hres.
  assert (knotted (VLoc e) c l w x k h) as Hk by (by repeat split).
  destruct (knot_holds _ _ _ _ _ _ n _ _ _ _ Hk Hres) as [_ Hno].
  by destruct (Hno (or_introl eq_refl) r).
Qed.

(** ** Through an alias, through a path *)

Lemma invoke_no_method h b op item :
  no_list_method h b op = true ->
  invoke library_fn library_list_op b op item h = (Raise TypeError, h).
Proof.
  unfold no_list_method, invoke, call. destruct b as [| | | s |lb]; try done.
  - intros _. cbn. by destruct (String.eqb op "length").
  - cbn. destruct (h !! lb) as [[[| | |] ps]|] eqn:E; try done;
      cbn; rewrite ?E; destruct (alookup op ps) as [[]|]; try done.
Qed.

Lemma no_list_method_app h hx b op :
  no_list_method h b op = true -> no_list_method (h ++ hx) b op = true.
Proof.
  unfold no_list_method. destruct b as [| | | |lb]; try done.
  destruct (h !! lb) as [c|] eqn:E; [|done].
  by rewrite (lookup_app_l_Some _ _ _ _ E).
Qed.

(** X20: a list assignment does not resolve its target.  When the target
    is bound, but to something that is no Isla list and has nothing to call
    under the operation's name (a number, or the reference wrapper that
    [m is l] stores for a list [l]), the statement raises the host's
    TypeError, once target and operand are evaluated; no cell that existed
    is changed. *)
Theorem list_assignment_on_non_list :
  ∀ fuel op item kw t env h c b itemEval hx r v,
    read_prop h env "ctx" = Ret (VLoc c) ->
    binding h (VLoc c) t = Ret b ->
    no_list_method h b op = true ->
    interpret (S (S fuel)) (Some item) env (h ++ read_cells h t b)
      = (Ret itemEval, (h ++ read_cells h t b) ++ hx) ->
    read_prop ((h ++ read_cells h t b) ++ hx) itemEval "ref" = Ret r ->
    read_prop ((h ++ read_cells h t b) ++ hx) itemEval "val" = Ret v ->
    ∃ h2,
      interpret (S (S (S fuel))) (Some (list_assignment op item kw t)) env h
      = (Raise TypeError, h2) ∧
      ∀ l cl, h !! l = Some cl -> h2 !! l = Some cl.
Proof.
  intros fuel op item kw t env h c b itemEval hx r v Hctx Hb Hno Hitem Hr Hv.
  set (ht := h ++ read_cells h t b) in *.
  set (h1 := ht ++ hx) in *.
  assert (is_undefined b = false) as Hdef by (by destruct b).
  assert (∀ h', read_prop (h1 ++ h') (VLoc (read_result h t)) "val" = Ret b) as Hval.
  { intros h'. unfold h1. rewrite <- app_assoc. unfold read_prop.
    erewrite lookup_app_l_Some by apply read_result_lookup. done. }
  rewrite interpret_list_assignment. cbn [bind].
  rewrite (target_read _ _ _ _ _ _ Hctx Hb). fold ht. cbn [getp].
  assert (read_prop ht (VLoc (read_result h t)) "val" = Ret b) as ->.
  { unfold read_prop, ht. by rewrite read_result_lookup. }
  rewrite Hdef. cbn [bind]. rewrite Hitem. fold h1. cbn [getp]. rewrite Hr.
  rewrite (value_or_reference _ _ _ _ Hr Hv).
  destruct (is_undefined r).
  - specialize (Hval []). rewrite app_nil_r in Hval. rewrite Hval.
    rewrite invoke_no_method by (by do 2 apply no_list_method_app).
    eexists. split; [reflexivity|]. intros l cl Hl. by do 2 apply lookup_app_l_Some.
  - rewrite Hval.
    rewrite invoke_no_method by (by do 3 apply no_list_method_app).
    eexists. split; [reflexivity|]. intros l cl Hl. by do 3 apply lookup_app_l_Some.
Qed.

(** A variable on the right-hand side is a value read of its target. *)
Lemma variable_target_read fuel t env h c v :
  read_prop h env "ctx" = Ret (VLoc c) ->
  binding h (VLoc c) t = Ret v ->
  interpret (S (S (S (S fuel)))) (Some (variable t)) env h
  = (Ret (VLoc (read_result h t)), h ++ read_cells h t v).
Proof.
  intros Hctx Hb.
  change (interpret (S (S (S (S fuel)))) (Some (variable t)) env h)
    with (evaluateValue library_fn library_list_op getInitialEnv (S (S fuel))
            (Some (target_node t)) env h).
  by apply (target_read _ _ _ _ c).
Qed.

(** X21: the reference stored for an attribute path leads nowhere.
    [y is o a] stores under [y] a wrapper whose [ref] is the two-element
    path [[o, a]]; [resolve] uses that path as one property name of the
    context, the string [o,a], so unless the context has a slot of that
    name the binding of [y] resolves to [undefined], whatever [o a] holds. *)
Theorem attribute_alias_resolves_to_nothing :
  ∀ fuel o a y kw env h c v,
    read_prop h env "ctx" = Ret (VLoc c) ->
    is_Some (h !! c) ->
    binding h (VLoc c) (Attribute o a) = Ret v ->
    read_prop h (VLoc c) (o +:+ "," +:+ a) = Ret VUndef ->
    y ≠ o +:+ "," +:+ a ->
    ∃ e w p h2,
      interpret (S (S (S (S (S fuel)))))
        (Some (value_assignment (Scalar y) kw (variable (Attribute o a)))) env h
        = (Ret (VLoc e), h2) ∧
      read_prop h2 (VLoc c) y = Ret (VLoc w) ∧
      h2 !! w = Some (Cell SObject [("ref", VLoc p)]) ∧
      h2 !! p = Some (Cell (SArray [VStr o; VStr a]) []) ∧
      ∀ n, deref (S (S n)) (VLoc w) (VLoc e) h2 = (Ret VUndef, h2).
Proof.
  intros fuel o a y kw env h c v Hctx [cc Hc] Hb Hslot Hy.
  pose proof (lookup_lt_Some _ _ _ Hc) as Hlt.
  set (h1 := h ++ read_cells h (Attribute o a) v).
  assert (h1 !! c = Some cc) as Hc1 by (by apply lookup_app_l_Some).
  assert (h1 !! length h = Some (Cell (SArray [VStr o; VStr a]) [])) as Hp1.
  { unfold h1. simpl. change (h ++ [?x; ?z]) with (h ++ [x] ++ [z]).
    rewrite app_assoc. apply lookup_app_l_Some, lookup_snoc_new. }
  assert (length h1 = S (S (length h))) as Hl1
      by (unfold h1; rewrite length_app; simpl; lia).
  assert (target_cell h1 c (Scalar y) = Some c) as Ht by (simpl; by rewrite Hc1).
  rewrite value_assignment_run
    with (valueNode := VLoc (read_result h (Attribute o a))) (h1 := h1)
         (r := VLoc (length h)) (v := v) (c := c) (l := c);
    [|by apply (variable_target_read _ _ _ _ c)
     |unfold read_prop, h1; by rewrite read_result_lookup..
     |by apply read_prop_app|done].
  cbn [is_undefined slot].
  set (hw := h1 ++ [Cell SObject [("ref", VLoc (length h))]]).
  set (h2 := write hw c y (VLoc (length h1))
             ++ [Cell SObject [("ctx", VLoc c); ("ret", VNull)]]).
  assert (hw !! c = Some cc) as Hcw by (by apply lookup_snoc_old).
  pose proof (write_lookup_eq _ _ y (VLoc (length h1)) _ Hcw) as Hwc.
  assert (h2 !! length h1 = Some (Cell SObject [("ref", VLoc (length h))])) as Hw2.
  { apply lookup_snoc_old. rewrite write_lookup_ne by lia. apply lookup_snoc_new. }
  assert (h2 !! length h = Some (Cell (SArray [VStr o; VStr a]) [])) as Hp2.
  { apply lookup_snoc_old. rewrite write_lookup_ne by lia. by apply lookup_snoc_old. }
  assert (h2 !! S (length h1) = Some (Cell SObject [("ctx", VLoc c); ("ret", VNull)]))
    as He2.
  { unfold h2.
    replace (S (length h1)) with (length (write hw c y (VLoc (length h1)))).
    - apply lookup_snoc_new.
    - rewrite write_length. unfold hw. rewrite length_app. simpl. lia. }
  exists (S (length h1)), (length h1), (length h), h2.
  split; [done|]. split.
  { unfold read_prop, h2. rewrite (lookup_snoc_old _ _ _ _ Hwc). simpl.
    by rewrite alookup_aupdate_eq. }
  split; [done|]. split; [done|].
  intros n.
  rewrite resolve_reference with (r := VLoc (length h)) (ctx := VLoc c);
    [|unfold reference_of; by rewrite Hw2|unfold read_prop; by rewrite He2].
  cbn [bind getp]. unfold to_str. rewrite Hp2. cbn [join_comma join_str].
  assert (read_prop h2 (VLoc c) (o +:+ "," +:+ a) = Ret VUndef) as ->.
  { unfold read_prop, h2. rewrite (lookup_snoc_old _ _ _ _ Hwc). simpl.
    rewrite alookup_aupdate_ne by done.
    unfold read_prop in Hslot. by rewrite Hc in Hslot. }
  by apply resolve_other.
Qed.

End Facts.



(** C2 at work: [y is nothing] in the sample context, whose slot [nothing]
    holds a built-in function. *)
Lemma value_assignment_stores_witness :
  ∃ e h2 stored,
    sample_interpret 5
      (Some (value_assignment (Scalar "y") (Node "is" []) (variable (Scalar "nothing"))))
      sample_env sample_heap = (Ret (VLoc e), h2) ∧
    h2 !! e = Some (Cell SObject [("ctx", VLoc 5); ("ret", VNull)]) ∧
    binding h2 (VLoc 5) (Scalar "y") = Ret stored ∧
    ∃ w, stored = VLoc w ∧
         (sample_heap ++ [Cell SObject [("ref", VStr "nothing"); ("val", VLoc 3)]]) !! w = None ∧
         h2 !! w = Some (Cell SObject [("ref", VStr "nothing")]).
Proof.
  apply (value_assignment_stores sample_fn sample_list_op sample_initial_env
           4 (Scalar "y") (Node "is" []) (variable (Scalar "nothing"))
           sample_env sample_heap (VLoc 7)
           (sample_heap ++ [Cell SObject [("ref", VStr "nothing"); ("val", VLoc 3)]])
           (VStr "nothing") (VLoc 3) 5 5); reflexivity.
Defined.


(** C3, refuted as stated: the context [x is 5; y is x; z is y] leaves
    behind is reached by value assignments only, starts from a context
    without references, and holds a reference ([z]) that points at a slot
    ([y]) whose binding is a reference. *)
Lemma reference_chain_reached :
  chain_free sample_heap sample_ctx = true ∧
  ∃ e h',
    sample_interpret 9 (Some chain_program) sample_env sample_heap = (Ret e, h') ∧
    chain_free h' sample_ctx = false.
Proof. split; [reflexivity|]. eexists _, _. split; reflexivity. Qed.

(** C3 amended, at work: [z is y] after [x is 5; y is x]. *)
Lemma reference_chain_stored_witness :
  let h := (sample_interpret 8
              (Some (program [value_assignment (Scalar "x") (Node "is" []) (literal_integer 5);
                              value_assignment (Scalar "y") (Node "is" []) (variable (Scalar "x"))]))
              sample_env sample_heap).2 in
  ∃ e wz h2,
    sample_interpret 5
      (Some (value_assignment (Scalar "z") (Node "is" []) (variable (Scalar "y"))))
      sample_env h = (Ret (VLoc e), h2) ∧
    read_prop h2 (VLoc 5) "z" = Ret (VLoc wz) ∧
    reference_of h2 (VLoc wz) = Some (VStr "y") ∧
    read_prop h2 (VLoc 5) "y" = Ret (VLoc 10) ∧
    reference_of h2 (VLoc 10) = Some (VStr "x") ∧
    points_at_reference h2 (VLoc 5) (VLoc wz) = true ∧
    ∀ n, sample_resolve (S (S n)) (VLoc wz) sample_env h2
         = (let* b := getp (VLoc 5) "x" in sample_resolve n b sample_env) h2.
Proof.
  apply (reference_chain_stored sample_fn sample_list_op sample_initial_env
           0 "x" "y" "z" (Node "is" []) sample_env _ 5 10).
  - discriminate.
  - reflexivity.
  - discriminate.
  - reflexivity.
  - reflexivity.
  - discriminate.
Defined.

(** C5, refuted as stated: after [x is 5; y is x] in the sample context the
    slot of [x] holds 5, but the slot of [y] holds a reference wrapper
    naming [x]: a scalar read of [y] does not yield 5, and what is stored is
    not the scalar. *)
Lemma scalar_copy_refuted :
  ∃ e h' w,
    sample_interpret 8
      (Some (program [value_assignment (Scalar "x") (Node "is" []) (literal_integer 5);
                      value_assignment (Scalar "y") (Node "is" []) (variable (Scalar "x"))]))
      sample_env sample_heap = (Ret e, h') ∧
    binding h' sample_ctx (Scalar "x") = Ret (VNum 5) ∧
    binding h' sample_ctx (Scalar "y") = Ret (VLoc w) ∧
    reference_of h' (VLoc w) = Some (VStr "x") ∧
    binding h' sample_ctx (Scalar "y") ≠ Ret (VNum 5).
Proof. eexists _, _, _. repeat split; [reflexivity..|discriminate]. Qed.

(** C5 amended, at work in the sample context. *)
Lemma scalar_assignment_then_alias_witness :
  ∃ e h2 w,
    sample_interpret 8
      (Some (program [value_assignment (Scalar "x") (Node "is" []) (literal_integer 5);
                      value_assignment (Scalar "y") (Node "is" []) (variable (Scalar "x"))]))
      sample_env sample_heap = (Ret (VLoc e), h2) ∧
    binding h2 (VLoc 5) (Scalar "x") = Ret (VNum 5) ∧
    binding h2 (VLoc 5) (Scalar "y") = Ret (VLoc w) ∧
    reference_of h2 (VLoc w) = Some (VStr "x") ∧
    ∀ n, sample_resolve (S (S n)) (VLoc w) (VLoc e) h2 = (Ret (VNum 5), h2).
Proof.
  apply (scalar_assignment_then_alias sample_fn sample_list_op sample_initial_env
           0 (Node "is" []) (Node "is" []) sample_env sample_heap 5).
  - reflexivity.
  - eexists. reflexivity.
Defined.





(** C9, refuted as stated: the built-in [nothing] returns [undefined], and
    the statement's [ret] is [null], not [undefined]. *)
Lemma invocation_undefined_becomes_null :
  (∀ args h, sample_fn 2 args h = (Ret VUndef, h)) ∧
  binding sample_heap sample_ctx (Scalar "nothing") = Ret (VLoc 3) ∧
  sample_heap !! 3 = Some (Cell (SFun 2) []) ∧
  ∃ e h',
    sample_interpret 5 (Some (invocation "nothing" (literal_integer 1)))
      sample_env sample_heap = (Ret e, h') ∧
    read_prop h' e "ret" = Ret VNull ∧
    read_prop h' e "ret" ≠ Ret VUndef.
Proof.
  split; [done|]. split; [reflexivity|]. split; [reflexivity|].
  eexists _, _. split; [reflexivity|]. split; [reflexivity|discriminate].
Qed.

(** C9 amended, at work: [same nothing] returns its argument as it is
    stored, the function in the slot [nothing]. *)
Lemma invocation_returns_witness :
  sample_interpret 5 (Some (invocation "same" (variable (Scalar "nothing"))))
    sample_env sample_heap
  = (Ret (VLoc 9),
     (sample_heap ++ [Cell SObject [("ref", VStr "same")];
                      Cell SObject [("ref", VStr "nothing"); ("val", VLoc 3)]])
       ++ [Cell SObject [("ctx", VLoc 5); ("ret", VLoc 3)]]).
Proof.
  apply (invocation_returns sample_fn sample_list_op sample_initial_env
           3 "same" (variable (Scalar "nothing")) sample_env sample_heap
           (VLoc 4) (sample_heap ++ [Cell SObject [("ref", VStr "same")]])
           (VLoc 8)
           (sample_heap ++ [Cell SObject [("ref", VStr "same")];
                            Cell SObject [("ref", VStr "nothing"); ("val", VLoc 3)]])
           (VLoc 3) (VLoc 3)
           (sample_heap ++ [Cell SObject [("ref", VStr "same")];
                            Cell SObject [("ref", VStr "nothing"); ("val", VLoc 3)]])
           (VLoc 5)); reflexivity.
Defined.

(** C8 at work: resolving the list [k] of the nested heap, twice. *)
Lemma resolve_list_is_copy_witness :
  (∀ k env o h', sample_resolve k (VLoc 13) env nested_heap = (o, h') ->
                 h' !! 13 = Some (Cell (SList [VLoc 23; VLoc 27]) [("_meta", VLoc 14)])) ∧
  ∃ h1 rs1,
    sample_resolve 6 (VLoc 13) (VLoc 6) nested_heap
      = (Ret (VLoc (length nested_heap)), h1) ∧
    nested_heap !! length nested_heap = None ∧
    h1 !! length nested_heap = Some (Cell (SList rs1) []) ∧
    Forall2 (resolved_form sample_fn sample_list_op 5 (VLoc 6) nested_heap)
      [VLoc 23; VLoc 27] rs1 ∧
    h1 !! 13 = Some (Cell (SList [VLoc 23; VLoc 27]) [("_meta", VLoc 14)]) ∧
    view 4 (VLoc 6) h1 (VLoc (length nested_heap)) = Some nested_contents ∧
    ∃ h2 rs2,
      sample_resolve 6 (VLoc 13) (VLoc 6) h1 = (Ret (VLoc (length h1)), h2) ∧
      length h1 ≠ length nested_heap ∧ length h1 ≠ 13 ∧
      h2 !! 13 = Some (Cell (SList [VLoc 23; VLoc 27]) [("_meta", VLoc 14)]) ∧
      h2 !! length nested_heap = Some (Cell (SList rs1) []) ∧
      h2 !! length h1 = Some (Cell (SList rs2) []) ∧
      Forall2 (resolved_form sample_fn sample_list_op 5 (VLoc 6) h1)
        [VLoc 23; VLoc 27] rs2 ∧
      view 4 (VLoc 6) h2 (VLoc (length nested_heap)) = Some nested_contents ∧
      view 4 (VLoc 6) h2 (VLoc (length h1)) = Some nested_contents.
Proof.
  destruct (resolve_list_is_copy sample_fn sample_list_op 5 6 5 nested_heap
              13 [VLoc 23; VLoc 27] [("_meta", VLoc 14)] nested_contents)
    as [Hkeeps Hcopies]; [vm_compute; reflexivity|].
  split; [exact Hkeeps|].
  apply Hcopies; try (vm_compute; reflexivity).
  eexists. vm_compute. reflexivity.
Defined.

(** Why C8 asks for finite contents: [resolve] has no cycle detection.  On
    the list that [l is a list; add l to l] builds, which holds a reference
    to its own slot, no amount of fuel makes it return. *)
Lemma resolve_knot_never_returns :
  knot_heap !! 7 = Some (Cell (SList [VLoc 12]) [("_meta", VLoc 8)]) ∧
  reference_of knot_heap (VLoc 12) = Some (VStr "l") ∧
  binding knot_heap sample_ctx (Scalar "l") = Ret (VLoc 7) ∧
  ¬ ∃ n r h', sample_resolve n (VLoc 7) sample_env knot_heap = (Ret r, h').
Proof.
  split; [reflexivity|]. split; [reflexivity|]. split; [reflexivity|].
  assert (∀ n h,
            h !! 7 = Some (Cell (SList [VLoc 12]) [("_meta", VLoc 8)]) ->
            h !! 12 = Some (Cell SObject [("ref", VStr "l")]) ->
            read_prop h sample_env "ctx" = Ret (VLoc 5) ->
            read_prop h (VLoc 5) "l" = Ret (VLoc 7) ->
            (sample_resolve n (VLoc 7) sample_env h).1 = OutOfFuel ∧
            (sample_resolve n (VLoc 12) sample_env h).1 = OutOfFuel) as Hloop.
  { induction n as [|n IH]; intros h H7 H12 Hctx Hl; [done|]. split.
    - unfold sample_resolve. cbn [resolve bind resolve_dispatch].
      unfold resolve_case_of. rewrite H7. unfold resolve_list.
      cbn [bind list_items alloc]. rewrite H7. cbn [for_each bind].
      destruct (IH (h ++ [Cell (SList []) []])) as [_ Hw];
        [by apply lookup_app_l_Some..|by apply read_prop_app|by apply read_prop_app|].
      unfold sample_resolve in Hw.
      by destruct (resolve _ _ n (VLoc 12) _ _) as [[] ?]; simpl in Hw.
    - unfold sample_resolve. cbn [resolve bind resolve_dispatch].
      unfold resolve_case_of. rewrite H12. cbn [alookup String.eqb Ascii.eqb Bool.eqb].
      cbn [resolve_ref bind getp to_key]. rewrite Hctx.
      assert (read_prop h (VLoc 12) "ref" = Ret (VStr "l")) as ->
        by (by unfold read_prop; rewrite H12).
      cbn [to_str]. rewrite Hl. by destruct (IH h H7 H12 Hctx Hl) as [HL _]. }
  intros (n & r & h' & Hret).
  destruct (Hloop n knot_heap) as [HL _]; try reflexivity.
  by rewrite Hret in HL.
Qed.

(** X1 at work: resolving the object [o] of the nested heap, whose
    attribute [a] is a reference to a list. *)
Lemma resolve_leaves_alone_witness :
  let run := sample_resolve 6 (VLoc 7) (VLoc 6) nested_heap in
  (length nested_heap <= length run.2)%nat ∧
  (∀ l c, nested_heap !! l = Some c -> plain c = false -> run.2 !! l = Some c) ∧
  (∀ l c, nested_heap !! l = Some c -> plain c = true ->
          ∃ c', run.2 !! l = Some c' ∧ plain c' = true ∧
                map fst (props c') = map fst (props c) ∧
                alookup "_meta" (props c') = alookup "_meta" (props c)).
Proof.
  intros run.
  apply (resolve_leaves_alone sample_fn sample_list_op 6 (VLoc 7) (VLoc 6)
           nested_heap run.1 run.2).
  apply surjective_pairing.
Defined.

(** X6 at work: the object [o] of the nested heap, resolved twice. *)
Lemma resolve_object_in_place_witness :
  let t := TObj 7 [("_meta", TLeaf (VLoc 8)); ("a", TList [TLeaf (VNum 7)]);
                   ("n", TLeaf (VNum 5))] in
  ∃ h1 ps1,
    sample_resolve 6 (VLoc 7) (VLoc 6) nested_heap = (Ret (VLoc 7), h1) ∧
    h1 !! 7 = Some (Cell SObject ps1) ∧
    map fst ps1 = ["_meta"; "a"; "n"] ∧
    alookup "_meta" ps1 = Some (VLoc 8) ∧
    (∀ k v, alookup k ps1 = Some v -> k ≠ "_meta" ->
            resolve_case_of h1 v ≠ AsRef) ∧
    view 3 (VLoc 6) h1 (VLoc 7) = Some t ∧
    ∃ h2,
      sample_resolve 6 (VLoc 7) (VLoc 6) h1 = (Ret (VLoc 7), h2) ∧
      view 3 (VLoc 6) h2 (VLoc 7) = Some t.
Proof.
  intros t.
  apply (resolve_object_in_place sample_fn sample_list_op 5 6 5 nested_heap 7
           [("_meta", VLoc 8); ("a", VLoc 17); ("n", VNum 5)] t);
    try (vm_compute; reflexivity).
  eexists. vm_compute. reflexivity.
Defined.


(** X3 at work: after [x is y; y is x] the binding of [x] leads back to
    itself in two steps. *)
Lemma reference_cycle_never_resolves_witness :
  read_prop cycle_heap sample_ctx "x" = Ret (VLoc 8) ∧
  ∀ n, sample_resolve n (VLoc 8) sample_env cycle_heap = (OutOfFuel, cycle_heap).
Proof.
  split; [reflexivity|].
  apply (reference_cycle_never_resolves sample_fn sample_list_op 1 (VLoc 8)
           sample_env cycle_heap).
  reflexivity.
Defined.

(** X5 at work: [x is 5; add 1 to foo; y is 6] with [foo] unbound.  The
    sequence ends with the error of the second statement; [x] is bound, [y]
    is not. *)
Lemma runSequence_abort_witness :
  let x_is_5 := value_assignment (Scalar "x") (Node "is" []) (literal_integer 5) in
  let add_to_foo :=
    list_assignment "add" (literal_integer 1) (Node "to" []) (Scalar "foo") in
  let y_is_6 := value_assignment (Scalar "y") (Node "is" []) (literal_integer 6) in
  let h1 := (sample_interpret 5 (Some x_is_5) sample_env sample_heap).2 in
  let h2 := h1 ++ [Cell SObject [("ref", VStr "foo"); ("val", VUndef)]] in
  runSequence sample_fn sample_list_op sample_initial_env 5
    ([x_is_5] ++ add_to_foo :: [y_is_6]) sample_env sample_heap
  = (Raise (ErrorMsg "I do not know of a list called foo."), h2) ∧
  read_prop h2 sample_ctx "x" = Ret (VNum 5) ∧
  read_prop h2 sample_ctx "y" = Ret VUndef.
Proof.
  intros x_is_5 add_to_foo y_is_6 h1 h2. split; [|split; reflexivity].
  apply (runSequence_abort sample_fn sample_list_op sample_initial_env 5
           [x_is_5] add_to_foo [y_is_6] sample_env sample_heap (VLoc 8) h1);
    reflexivity.
Defined.

(** X7 at work: the wrapper that [y is x] stores, resolved with no
    environment. *)
Lemma resolve_reference_needs_context_witness :
  let h := (sample_interpret 5
              (Some (value_assignment (Scalar "y") (Node "is" []) (variable (Scalar "x"))))
              sample_env sample_heap).2 in
  sample_resolve 1 (VLoc 8) VUndef h = (Raise TypeError, h).
Proof.
  intros h.
  apply (resolve_reference_needs_context sample_fn sample_list_op 0 (VLoc 8) VUndef
           h (VStr "x")).
  - reflexivity.
  - by left.
Defined.

(** X8 at work: [y is nothing] in the sample context. *)
Lemma value_assignment_writes_one_slot_witness :
  let h1 := sample_heap ++ [Cell SObject [("ref", VStr "nothing"); ("val", VLoc 3)]] in
  ∃ e h2,
    sample_interpret 5
      (Some (value_assignment (Scalar "y") (Node "is" []) (variable (Scalar "nothing"))))
      sample_env sample_heap = (Ret (VLoc e), h2) ∧
    (∀ l' cl, l' ≠ 5 -> h1 !! l' = Some cl -> h2 !! l' = Some cl) ∧
    (∀ k, k ≠ "y" -> read_prop h2 (VLoc 5) k = read_prop h1 (VLoc 5) k) ∧
    (∀ cl, h1 !! 5 = Some cl -> ∃ cl', h2 !! 5 = Some cl' ∧ shape_of cl' = shape_of cl) ∧
    (length h2 <= length h1 + 2)%nat.
Proof.
  intros h1.
  apply (value_assignment_writes_one_slot sample_fn sample_list_op sample_initial_env
           4 (Scalar "y") (Node "is" []) (variable (Scalar "nothing"))
           sample_env sample_heap (VLoc 7) h1 (VStr "nothing") (VLoc 3) 5 5);
    reflexivity.
Defined.


(** X10 at work: [x a is 6] after [x is 5]. *)
Lemma attribute_of_primitive_dropped_witness :
  let h := (sample_interpret 5
              (Some (value_assignment (Scalar "x") (Node "is" []) (literal_integer 5)))
              sample_env sample_heap).2 in
  let h1 := h ++ [Cell SObject [("val", VNum 6)]] in
  ∃ e h2,
    sample_interpret 4
      (Some (value_assignment (Attribute "x" "a") (Node "is" []) (literal_integer 6)))
      sample_env h = (Ret (VLoc e), h2) ∧
    h1 !! e = None ∧
    h2 !! e = Some (Cell SObject [("ctx", VLoc 5); ("ret", VNull)]) ∧
    (∀ l cl, h1 !! l = Some cl -> h2 !! l = Some cl) ∧
    read_prop h2 (VLoc 5) "x" = Ret (VNum 5).
Proof.
  intros h h1.
  apply (attribute_of_primitive_dropped sample_fn sample_list_op sample_initial_env
           3 "x" "a" (Node "is" []) (literal_integer 6)
           sample_env h (VLoc 9) h1 VUndef (VNum 6) 5 (VNum 5));
    try reflexivity.
  - eexists. reflexivity.
  - left. by exists 5%Z.
Defined.




(** X14 at work: [add 5 to l] with [l] a list. *)
Lemma list_assignment_in_place_witness :
  let h1 := list_heap ++ [Cell SObject [("ref", VStr "l"); ("val", VLoc 7)];
                          Cell SObject [("val", VNum 5)]] in
  ∃ e h2 ps',
    sample_interpret 5
      (Some (list_assignment "add" (literal_integer 5) (Node "to" []) (Scalar "l")))
      sample_env list_heap = (Ret (VLoc e), h2) ∧
    h2 !! 7 = Some (Cell (SList [VNum 5]) ps') ∧
    binding h2 (VLoc 5) (Scalar "l") = Ret (VLoc 7) ∧
    ∀ l' cl, l' ≠ 7 -> l' ≠ 5 -> h1 !! l' = Some cl -> h2 !! l' = Some cl.
Proof.
  intros h1.
  apply (list_assignment_in_place sample_fn sample_list_op sample_initial_env
           2 "add" (literal_integer 5) (Node "to" []) (Scalar "l")
           sample_env list_heap 5 7 [] [("_meta", VLoc 8)]
           (fun items item => items ++ [item]) 5 (VLoc 11)
           [Cell SObject [("val", VNum 5)]] VUndef (VNum 5)); reflexivity.
Defined.

(** X15 at work: [x is 1; y is 2; x is 3] in the sample context. *)
Lemma assignments_run_witness :
  ∃ e' h2,
    sample_interpret 7 (Some (program (assignments [("x", 1%Z); ("y", 2%Z); ("x", 3%Z)])))
      sample_env sample_heap = (Ret (VLoc e'), h2) ∧
    read_prop h2 (VLoc e') "ctx" = Ret (VLoc 5) ∧
    (∀ x, read_prop h2 (VLoc 5) x
          = match last_assigned x [("x", 1%Z); ("y", 2%Z); ("x", 3%Z)] with
            | Some n => Ret (VNum n)
            | None => read_prop sample_heap (VLoc 5) x
            end) ∧
    (∀ l cl, l ≠ 5 -> l ≠ 6 -> sample_heap !! l = Some cl -> h2 !! l = Some cl).
Proof.
  apply (assignments_run sample_fn sample_list_op sample_initial_env
           0 [("x", 1%Z); ("y", 2%Z); ("x", 3%Z)] 6 sample_heap 5).
  - reflexivity.
  - eexists. reflexivity.
  - discriminate.
Defined.

(** X16 at work: a [scalar] node, which only [evaluateValue] knows, handed
    to [interpretAst]. *)
Lemma interpretAst_unknown_tag_witness :
  sample_interpret 1 (Some (Node "scalar" [identifier "x"])) sample_env sample_heap
  = (Raise (ThrownStr "You've forgotten a tag type."), sample_heap).
Proof.
  apply (interpretAst_unknown_tag sample_fn sample_list_op sample_initial_env
           0 "scalar" [identifier "x"] sample_env sample_heap).
  unfold interpretAst_tags. simpl. intuition discriminate.
Defined.

(** X17 at work: [o a is nothing] with [o] an object, read back. *)
Lemma value_assignment_read_back_witness :
  let h := (sample_interpret 2 (Some (type_assignment (Scalar "o") (Node "is" []) "thing"))
              sample_env sample_heap).2 in
  ∃ e h2 stored,
    sample_interpret 5
      (Some (value_assignment (Attribute "o" "a") (Node "is" [])
               (variable (Scalar "nothing"))))
      sample_env h = (Ret (VLoc e), h2) ∧
    evaluateValue sample_fn sample_list_op sample_initial_env 2
      (Some (target_node (Attribute "o" "a"))) (VLoc e) h2
    = (Ret (VLoc (read_result h2 (Attribute "o" "a"))),
       h2 ++ read_cells h2 (Attribute "o" "a") stored) ∧
    read_prop (h2 ++ read_cells h2 (Attribute "o" "a") stored)
      (VLoc (read_result h2 (Attribute "o" "a"))) "val" = Ret stored ∧
    reference_of h2 stored = Some (VStr "nothing") ∧
    reference_of (h ++ [Cell SObject [("ref", VStr "nothing"); ("val", VLoc 3)]]) stored
    = None.
Proof.
  intros h.
  apply (value_assignment_read_back sample_fn sample_list_op sample_initial_env
           4 0 (Attribute "o" "a") (Node "is" []) (variable (Scalar "nothing"))
           sample_env h (VLoc 10)
           (h ++ [Cell SObject [("ref", VStr "nothing"); ("val", VLoc 3)]])
           (VStr "nothing") (VLoc 3) 5 7); reflexivity.
Defined.

(** X18 at work: [p a is 5] after [o is a thing; p is o]. *)
Lemma attribute_assignment_through_alias_witness :
  let h1 := alias_heap ++ [Cell SObject [("val", VNum 5)]] in
  read_prop alias_heap sample_ctx "o" = Ret (VLoc 7) ∧
  read_prop alias_heap sample_ctx "p" = Ret (VLoc 11) ∧
  ∃ e h2 stored,
    sample_interpret 4
      (Some (value_assignment (Attribute "p" "a") (Node "is" []) (literal_integer 5)))
      sample_env alias_heap = (Ret (VLoc e), h2) ∧
    read_prop h2 (VLoc 11) "a" = Ret stored ∧
    reference_of h2 (VLoc 11) = Some (VStr "o") ∧
    (∀ l' cl, l' ≠ 11 -> h1 !! l' = Some cl -> h2 !! l' = Some cl) ∧
    stored = VNum 5.
Proof.
  intros h1. split; [reflexivity|]. split; [reflexivity|].
  apply (attribute_assignment_through_alias sample_fn sample_list_op sample_initial_env
           3 "p" "a" (Node "is" []) (literal_integer 5)
           sample_env alias_heap (VLoc 13) h1 VUndef (VNum 5) 5 11 (VStr "o"));
    try reflexivity; discriminate.
Defined.

(** X19 at work: the list that [l is a list; add l to l] builds, and the
    object that [o is a thing; o a is o] builds. *)
Lemma knot_never_resolves_witness :
  (∀ n r h', sample_resolve n (VLoc 7) (VLoc 6) knot_heap ≠ (Ret r, h')) ∧
  (∀ n r h', sample_resolve n (VLoc 7) (VLoc 6) object_knot_heap ≠ (Ret r, h')).
Proof.
  split.
  - apply (knot_never_resolves sample_fn sample_list_op 6 5 knot_heap 7 12 "l" "");
      try reflexivity.
    vm_compute. by left.
  - apply (knot_never_resolves sample_fn sample_list_op 6 5 object_knot_heap 7 11 "o" "a");
      try reflexivity.
    vm_compute. by repeat split.
Defined.

(** X20 at work: [add 5 to m] after [l is a list; m is l]. *)
Lemma list_assignment_on_non_list_witness :
  read_prop list_alias_heap sample_ctx "l" = Ret (VLoc 7) ∧
  read_prop list_alias_heap sample_ctx "m" = Ret (VLoc 11) ∧
  reference_of list_alias_heap (VLoc 11) = Some (VStr "l") ∧
  ∃ h2,
    sample_interpret 5
      (Some (list_assignment "add" (literal_integer 5) (Node "to" []) (Scalar "m")))
      sample_env list_alias_heap = (Raise TypeError, h2) ∧
    ∀ l cl, list_alias_heap !! l = Some cl -> h2 !! l = Some cl.
Proof.
  do 3 (split; [reflexivity|]).
  apply (list_assignment_on_non_list sample_fn sample_list_op sample_initial_env
           2 "add" (literal_integer 5) (Node "to" []) (Scalar "m")
           sample_env list_alias_heap 5 (VLoc 11) (VLoc 14)
           [Cell SObject [("val", VNum 5)]] VUndef (VNum 5)); reflexivity.
Defined.

(** X21 at work: [y is o a] after [o is a thing; o a is 5]: the attribute
    holds 5, the binding of [y] resolves to [undefined]. *)
Lemma attribute_alias_resolves_to_nothing_witness :
  binding attribute_heap sample_ctx (Attribute "o" "a") = Ret (VNum 5) ∧
  ∃ e w p h2,
    sample_interpret 5
      (Some (value_assignment (Scalar "y") (Node "is" [])
               (variable (Attribute "o" "a"))))
      sample_env attribute_heap = (Ret (VLoc e), h2) ∧
    read_prop h2 (VLoc 5) "y" = Ret (VLoc w) ∧
    h2 !! w = Some (Cell SObject [("ref", VLoc p)]) ∧
    h2 !! p = Some (Cell (SArray [VStr "o"; VStr "a"]) []) ∧
    ∀ n, sample_resolve (S (S n)) (VLoc w) (VLoc e) h2 = (Ret VUndef, h2).
Proof.
  split; [reflexivity|].
  apply (attribute_alias_resolves_to_nothing sample_fn sample_list_op sample_initial_env
           0 "o" "a" "y" (Node "is" []) sample_env attribute_heap 5 (VNum 5));
    try reflexivity.
  - eexists. reflexivity.
  - discriminate.
Defined.
